(** * An intrusive AVL tree over a pointer heap (lib/rbtree.c, lib/avl_test.c)

    The C code manipulates [struct avl_node] records through raw parent, left
    and right pointers.  The embedding keeps that shape: a heap maps addresses
    to node records, a pointer is an optional address ([None] is [NULL]), and
    every C function becomes a computation in a small state-and-fault monad.
    Loops take a fuel argument; dereferencing [NULL] or an unallocated address
    is a fault. *)

From Stdlib Require Import ZArith List Lia.
From stdpp Require Import base option list gmap sorting.

Local Open Scope Z_scope.

(** ** Data model *)

Definition addr := positive.

(** A [struct avl_node *]: [None] is the null pointer. *)
Definition ptr := option addr.

(** [struct avl_node]; the height field is an [int8_t]. *)
Record avl_node := mk_node {
  avl_parent : ptr;
  avl_left   : ptr;
  avl_right  : ptr;
  avl_hgt    : Z
}.

(** The memory the functions work on: the one [struct avl_root] cell and the
    allocated nodes. *)
Record state := mk_state {
  st_root : ptr;
  st_heap : gmap addr avl_node
}.

(** Conversion of an [int] to [int8_t] (two's complement wrap-around). *)
Definition int8 (z : Z) : Z := (z + 128) mod 256 - 128.

Definition ptr_eqb (p q : ptr) : bool := bool_decide (p = q).

(** ** The monad *)

Inductive fault := NullDeref | BadAddr.

Inductive outcome (A : Type) :=
| Done (a : A) (s : state)
| Fault (f : fault)
| OutOfFuel.
Arguments Done {A} a s.
Arguments Fault {A} f.
Arguments OutOfFuel {A}.

Definition M (A : Type) : Type := state → outcome A.

Definition ret {A} (a : A) : M A := λ s, Done a s.

Definition bind {A B} (c : M A) (k : A → M B) : M B :=
  λ s, match c s with
       | Done a s' => k a s'
       | Fault f => Fault f
       | OutOfFuel => OutOfFuel
       end.

Definition timeout {A} : M A := λ _, OutOfFuel.

Notation "'do' x <- c ; k" := (bind c (λ x, k))
  (at level 10, x name, c at level 99, k at level 200).
Notation "c ;; k" := (bind c (λ _, k))
  (at level 100, k at level 200, right associativity).

(** Memory accesses.  [load p] is the read of [*p]. *)
Definition load (p : ptr) : M avl_node :=
  λ s, match p with
       | None => Fault NullDeref
       | Some a => match st_heap s !! a with
                   | Some nd => Done nd s
                   | None => Fault BadAddr
                   end
       end.

Definition store (p : ptr) (f : avl_node → avl_node) : M unit :=
  λ s, match p with
       | None => Fault NullDeref
       | Some a => match st_heap s !! a with
                   | Some nd => Done tt (mk_state (st_root s) (<[a := f nd]> (st_heap s)))
                   | None => Fault BadAddr
                   end
       end.

Definition with_parent (v : ptr) (nd : avl_node) : avl_node :=
  mk_node v (avl_left nd) (avl_right nd) (avl_hgt nd).
Definition with_left (v : ptr) (nd : avl_node) : avl_node :=
  mk_node (avl_parent nd) v (avl_right nd) (avl_hgt nd).
Definition with_right (v : ptr) (nd : avl_node) : avl_node :=
  mk_node (avl_parent nd) (avl_left nd) v (avl_hgt nd).
Definition with_hgt (v : Z) (nd : avl_node) : avl_node :=
  mk_node (avl_parent nd) (avl_left nd) (avl_right nd) v.

Definition get_parent (p : ptr) : M ptr := do nd <- load p; ret (avl_parent nd).
Definition get_left (p : ptr) : M ptr := do nd <- load p; ret (avl_left nd).
Definition get_right (p : ptr) : M ptr := do nd <- load p; ret (avl_right nd).
Definition set_parent (p v : ptr) : M unit := store p (with_parent v).
Definition set_left (p v : ptr) : M unit := store p (with_left v).
Definition set_right (p v : ptr) : M unit := store p (with_right v).
Definition set_hgt (p : ptr) (v : Z) : M unit := store p (with_hgt v).

Definition get_root : M ptr := λ s, Done (st_root s) s.
Definition set_root (v : ptr) : M unit := λ s, Done tt (mk_state v (st_heap s)).

(** ** lib/rbtree.c *)

Definition avl_init_node (node : ptr) : M unit :=
  set_right node None;;
  set_left node None;;
  set_parent node None;;
  set_hgt node 1.

Definition avl_height (n : ptr) : M Z :=
  match n with
  | None => ret 0
  | Some _ => do nd <- load n; ret (avl_hgt nd)
  end.

Definition avl_update_height (n : ptr) : M unit :=
  do l <- get_left n;
  do hl <- avl_height l;
  do r <- get_right n;
  do hr <- avl_height r;
  set_hgt n (int8 (Z.max hl hr + 1)).

Definition avl_rotate_right (y : ptr) : M unit :=
  do x <- get_left y;
  do xr <- get_right x;
  set_left y xr;;
  do xr <- get_right x;
  (if xr is Some _ then set_parent xr y else ret tt);;
  do yp <- get_parent y;
  set_parent x yp;;
  do yp <- get_parent y;
  (if yp is Some _ then
     do ypl <- get_left yp;
     if ptr_eqb y ypl then set_left yp x else set_right yp x
   else set_root x);;
  set_right x y;;
  set_parent y x;;
  avl_update_height y;;
  avl_update_height x.

Definition avl_rotate_left (x : ptr) : M unit :=
  do y <- get_right x;
  do yl <- get_left y;
  set_right x yl;;
  do yl <- get_left y;
  (if yl is Some _ then set_parent yl x else ret tt);;
  do xp <- get_parent x;
  set_parent y xp;;
  do xp <- get_parent x;
  (if xp is Some _ then
     do xpl <- get_left xp;
     if ptr_eqb x xpl then set_left xp y else set_right xp y
   else set_root y);;
  set_left y x;;
  set_parent x y;;
  avl_update_height x;;
  avl_update_height y.

(** The body of the [while (n)] loop of [avl_rebalance], up to and excluding
    the final [n = n->avl_parent]. *)
Definition avl_rebalance_body (n : ptr) : M unit :=
  avl_update_height n;;
  do l <- get_left n;
  do hl <- avl_height l;
  do r <- get_right n;
  do hr <- avl_height r;
  let balance := int8 (hl - hr) in
  if 1 <? balance then
    do l <- get_left n;
    do ll <- get_left l;
    do hll <- avl_height ll;
    do lr <- get_right l;
    do hlr <- avl_height lr;
    (if hll <? hlr then avl_rotate_left l else ret tt);;
    avl_rotate_right n
  else if balance <? -1 then
    do r <- get_right n;
    do rr <- get_right r;
    do hrr <- avl_height rr;
    do rl <- get_left r;
    do hrl <- avl_height rl;
    (if hrr <? hrl then avl_rotate_right r else ret tt);;
    avl_rotate_left n
  else ret tt.

Fixpoint avl_rebalance (fuel : nat) (n : ptr) : M unit :=
  match n with
  | None => ret tt
  | Some _ =>
    match fuel with
    | O => timeout
    | S fuel' =>
      avl_rebalance_body n;;
      do p <- get_parent n;
      avl_rebalance fuel' p
    end
  end.

Definition avl_link_node (node parent : ptr) (left : bool) : M unit :=
  avl_init_node node;;
  set_parent node parent;;
  if parent is Some _ then
    if left then set_left parent node else set_right parent node
  else set_root node.

Definition avl_insert_color (fuel : nat) (node : ptr) : M unit :=
  do p <- get_parent node;
  avl_rebalance fuel p.

Fixpoint avl_subtree_min (fuel : nat) (n : ptr) : M ptr :=
  match n with
  | None => ret None
  | Some _ =>
    do l <- get_left n;
    match l with
    | None => ret n
    | Some _ =>
      match fuel with
      | O => timeout
      | S fuel' => avl_subtree_min fuel' l
      end
    end
  end.

Definition avl_erase (fuel : nat) (node : ptr) : M unit :=
  do parent <- get_parent node;
  do nl <- get_left node;
  do node <- (if nl is Some _ then
                do nr <- get_right node;
                if nr is Some _ then
                  do nr <- get_right node;
                  avl_subtree_min fuel nr
                else ret node
              else ret node);
  do nl <- get_left node;
  do child <- (if nl is Some _ then ret nl else get_right node);
  (if child is Some _ then set_parent child parent else ret tt);;
  (if parent is Some _ then
     do pl <- get_left parent;
     if ptr_eqb node pl then set_left parent child else set_right parent child
   else set_root child);;
  avl_rebalance fuel parent.

Definition avl_first (fuel : nat) : M ptr :=
  do r <- get_root;
  avl_subtree_min fuel r.

(** The [while] loop of [avl_next]. *)
Fixpoint avl_next_up (fuel : nat) (n : ptr) : M ptr :=
  do p <- get_parent n;
  match p with
  | None => ret p
  | Some _ =>
    do pr <- get_right p;
    if ptr_eqb n pr then
      match fuel with
      | O => timeout
      | S fuel' => avl_next_up fuel' p
      end
    else ret p
  end.

Definition avl_next (fuel : nat) (node : ptr) : M ptr :=
  do r <- get_right node;
  if r is Some _ then avl_subtree_min fuel r
  else avl_next_up fuel node.

(** ** lib/avl_test.c *)

(** [struct test_node] embeds the node header next to an [int key]; the keys
    live in their own map from the node's address, which is what
    [container_of] recovers. *)
Definition key_of (keys : gmap addr Z) (p : ptr) : M Z :=
  λ s, match p with
       | None => Fault NullDeref
       | Some a => match keys !! a with
                   | Some k => Done k s
                   | None => Fault BadAddr
                   end
       end.

(** A [struct avl_node **]: the root cell or a child field of a node. *)
Inductive slot := RootSlot | LeftSlot (p : ptr) | RightSlot (p : ptr).

Global Instance slot_eq_dec : EqDecision slot.
Proof. solve_decision. Defined.

Definition read_slot (l : slot) : M ptr :=
  match l with
  | RootSlot => get_root
  | LeftSlot p => get_left p
  | RightSlot p => get_right p
  end.

(** The descent loop of [avl_insert_key], which follows [link]. *)
Fixpoint avl_insert_walk (fuel : nat) (keys : gmap addr Z) (tn : ptr)
    (parent : ptr) (link : slot) : M (ptr * slot) :=
  do cur <- read_slot link;
  match cur with
  | None => ret (parent, link)
  | Some _ =>
    match fuel with
    | O => timeout
    | S fuel' =>
      do k <- key_of keys tn;
      do ik <- key_of keys cur;
      if k <? ik then avl_insert_walk fuel' keys tn cur (LeftSlot cur)
      else avl_insert_walk fuel' keys tn cur (RightSlot cur)
    end
  end.

Definition avl_insert_key (fuel : nat) (keys : gmap addr Z) (tn : ptr) : M unit :=
  do pl <- avl_insert_walk fuel keys tn None RootSlot;
  avl_link_node tn (fst pl) (bool_decide (snd pl = LeftSlot (fst pl)));;
  avl_insert_color fuel tn.

(** [print_inorder]: the keys in the order [avl_first]/[avl_next] visit them. *)
Fixpoint inorder_from (fuel inner : nat) (keys : gmap addr Z) (n : ptr) : M (list Z) :=
  match n with
  | None => ret []
  | Some _ =>
    match fuel with
    | O => timeout
    | S fuel' =>
      do k <- key_of keys n;
      do nx <- avl_next inner n;
      do rest <- inorder_from fuel' inner keys nx;
      ret (k :: rest)
    end
  end.

Definition print_inorder (fuel : nat) (keys : gmap addr Z) : M (list Z) :=
  do n <- avl_first fuel;
  inorder_from fuel fuel keys n.

(** What [malloc] hands out: a record whose fields hold no meaningful value. *)
Definition fresh_node : avl_node := mk_node None None None 0.

Definition empty_tree : state := mk_state None ∅.

(** The insertion loop of [main]: node [i] is allocated at the next free
    address, its key is set, and [avl_insert_key] links it. *)
Fixpoint insert_keys (fuel : nat) (ks : list Z) (next : addr)
    (keys : gmap addr Z) (s : state) : outcome (gmap addr Z) :=
  match ks with
  | [] => Done keys s
  | k :: ks' =>
    let keys' := <[next := k]> keys in
    let s1 := mk_state (st_root s) (<[next := fresh_node]> (st_heap s)) in
    match avl_insert_key fuel keys' (Some next) s1 with
    | Done _ s2 => insert_keys fuel ks' (Pos.succ next) keys' s2
    | Fault f => Fault f
    | OutOfFuel => OutOfFuel
    end
  end.

(** The search loop of [main] that finds the node holding a key. *)
Fixpoint find_key (fuel : nat) (keys : gmap addr Z) (k : Z) (n : ptr) : M ptr :=
  match n with
  | None => ret None
  | Some _ =>
    match fuel with
    | O => timeout
    | S fuel' =>
      do nk <- key_of keys n;
      if bool_decide (k = nk) then ret n
      else if k <? nk then do l <- get_left n; find_key fuel' keys k l
      else do r <- get_right n; find_key fuel' keys k r
    end
  end.

(** One round of the deletion loop of [main] as far as the call of
    [avl_erase]: the search, and the erasure of the node found.  The
    [free(tn)] that follows in the source is not part of it; the whole round
    is [delete_key]. *)
Definition erase_key (fuel : nat) (keys : gmap addr Z) (k : Z) : M unit :=
  do r <- get_root;
  do n <- find_key fuel keys k r;
  if n is Some _ then avl_erase fuel n else ret tt.

(** [free]: the node is no longer allocated, so that any later access to it
    is a fault; so is freeing an address that is not allocated. *)
Definition free (p : ptr) : M unit :=
  λ s, match p with
       | None => Done tt s
       | Some a => match st_heap s !! a with
                   | Some _ => Done tt (mk_state (st_root s) (delete a (st_heap s)))
                   | None => Fault BadAddr
                   end
       end.

(** One round of the deletion loop of [main]: the node found is erased and
    then freed. *)
Definition delete_key (fuel : nat) (keys : gmap addr Z) (k : Z) : M unit :=
  do r <- get_root;
  do n <- find_key fuel keys k r;
  if n is Some _ then avl_erase fuel n;; free n else ret tt.

(** ** Trees read off the heap *)

(** The shape of a tree, with the address of every node. *)
Inductive tree :=
| Leaf
| Node (l : tree) (a : addr) (r : tree).

Fixpoint inorder (t : tree) : list addr :=
  match t with
  | Leaf => []
  | Node l a r => inorder l ++ a :: inorder r
  end.

(** Recomputed height: 0 for an absent child, 1 for a leaf node. *)
Fixpoint height (t : tree) : Z :=
  match t with
  | Leaf => 0
  | Node l _ r => 1 + Z.max (height l) (height r)
  end.

Definition tree_top (t : tree) : ptr :=
  match t with
  | Leaf => None
  | Node _ a _ => Some a
  end.

(** Follows the child pointers from [p], at most [fuel] levels deep. *)
Fixpoint reify (fuel : nat) (h : gmap addr avl_node) (p : ptr) : option tree :=
  match p with
  | None => Some Leaf
  | Some a =>
    match fuel with
    | O => None
    | S fuel' =>
      match h !! a with
      | None => None
      | Some nd =>
        match reify fuel' h (avl_left nd), reify fuel' h (avl_right nd) with
        | Some l, Some r => Some (Node l a r)
        | _, _ => None
        end
      end
    end
  end.

Definition stored_height (h : gmap addr avl_node) (p : ptr) : Z :=
  match p with
  | None => 0
  | Some a => match h !! a with Some nd => avl_hgt nd | None => 0 end
  end.

(** Invariants 2 and 3 of the data model, checked at every node of [t]. *)
Fixpoint balanced_b (t : tree) : bool :=
  match t with
  | Leaf => true
  | Node l _ r =>
    (Z.abs (height l - height r) <=? 1) && balanced_b l && balanced_b r
  end.

Fixpoint heights_ok_b (h : gmap addr avl_node) (t : tree) : bool :=
  match t with
  | Leaf => true
  | Node l a r =>
    (stored_height h (Some a) =? height t) && heights_ok_b h l && heights_ok_b h r
  end.

Definition avl_invariant_b (fuel : nat) (s : state) : bool :=
  match reify fuel (st_heap s) (st_root s) with
  | Some t => balanced_b t && heights_ok_b (st_heap s) t
  | None => false
  end.

(** The deletion loop of [main]: one round for each key of [ks] in turn. *)
Fixpoint delete_keys (fuel : nat) (keys : gmap addr Z) (ks : list Z) : M unit :=
  match ks with
  | [] => ret tt
  | k :: ks' => delete_key fuel keys k;; delete_keys fuel keys ks'
  end.

(** ** Well-formed trees in the heap *)

(** [shape h par p t]: the pointer [p] leads to the tree [t] laid out in [h],
    every node of which names its parent correctly; [par] is the parent of
    the topmost node (back-pointer integrity, invariant 4). *)
Fixpoint shape (h : gmap addr avl_node) (par p : ptr) (t : tree) : Prop :=
  match t with
  | Leaf => p = None
  | Node l a r =>
    p = Some a ∧
    ∃ nd, h !! a = Some nd ∧ avl_parent nd = par ∧
          shape h (Some a) (avl_left nd) l ∧ shape h (Some a) (avl_right nd) r
  end.

(** Invariant 3 (height correctness) as a proposition. *)
Fixpoint heights_ok (h : gmap addr avl_node) (t : tree) : Prop :=
  match t with
  | Leaf => True
  | Node l a r =>
    stored_height h (Some a) = height t ∧ heights_ok h l ∧ heights_ok h r
  end.

(** Invariant 2 (AVL balance) as a proposition. *)
Fixpoint balanced (t : tree) : Prop :=
  match t with
  | Leaf => True
  | Node l _ r =>
    -1 <= height l - height r <= 1 ∧ balanced l ∧ balanced r
  end.

(** The whole memory holds the tree [t] below the root cell, no node twice. *)
Definition tree_in (s : state) (t : tree) : Prop :=
  shape (st_heap s) None (st_root s) t ∧ NoDup (inorder t).

(** A well-formed AVL tree: shape, stored heights and balance. *)
Definition avl_tree_in (s : state) (t : tree) : Prop :=
  tree_in s t ∧ heights_ok (st_heap s) t ∧ balanced t.

(** *** Trees with a hole *)

(** One step from a subtree to its parent: the parent's address and the
    sibling subtree. *)
Inductive frame :=
| InLeft (g : addr) (sib : tree)
| InRight (sib : tree) (g : addr).

(** The path from a subtree up to the root, innermost frame first. *)
Definition ctx := list frame.

Definition fill (f : frame) (t : tree) : tree :=
  match f with
  | InLeft g sib => Node t g sib
  | InRight sib g => Node sib g t
  end.

Fixpoint plug (c : ctx) (t : tree) : tree :=
  match c with
  | [] => t
  | f :: c' => plug c' (fill f t)
  end.

Definition frame_addr (f : frame) : addr :=
  match f with
  | InLeft g _ => g
  | InRight _ g => g
  end.

Definition frame_sib (f : frame) : tree :=
  match f with
  | InLeft _ sib => sib
  | InRight sib _ => sib
  end.

(** The node that owns the hole of a context (null at the root). *)
Definition ctx_par (c : ctx) : ptr :=
  match c with
  | [] => None
  | f :: _ => Some (frame_addr f)
  end.

(** Whether the hole of a context is the left child field of its owner. *)
Definition ctx_side (c : ctx) : bool :=
  match c with
  | InLeft _ _ :: _ => true
  | _ => false
  end.

(** The addresses that a context owns: the ancestors and their other
    subtrees. *)
Fixpoint ctx_dom (c : ctx) : list addr :=
  match c with
  | [] => []
  | f :: c' => frame_addr f :: inorder (frame_sib f) ++ ctx_dom c'
  end.

(** [ctx_shape h c p par rt]: the context [c] is laid out in [h] below the
    root cell [rt]; the slot of the hole holds [p] and belongs to [par]. *)
Fixpoint ctx_shape (h : gmap addr avl_node) (c : ctx) (p par rt : ptr) : Prop :=
  match c with
  | [] => par = None ∧ rt = p
  | InLeft g sib :: c' =>
    par = Some g ∧
    ∃ nd, h !! g = Some nd ∧ avl_left nd = p ∧
          shape h (Some g) (avl_right nd) sib ∧
          ctx_shape h c' (Some g) (avl_parent nd) rt
  | InRight sib g :: c' =>
    par = Some g ∧
    ∃ nd, h !! g = Some nd ∧ avl_right nd = p ∧
          shape h (Some g) (avl_left nd) sib ∧
          ctx_shape h c' (Some g) (avl_parent nd) rt
  end.

(** *** What a rotation may change *)

(** The slot that held [old] (the root cell when [par] is null, else the
    matching child field of [par]) now holds [new]; the other child field of
    [par] is as before. *)
Definition slot_redirected (s s' : state) (par : ptr) (old : addr) (new : ptr) : Prop :=
  match par with
  | None => st_root s = Some old ∧ st_root s' = new
  | Some g =>
    ∃ gnd gnd', st_heap s !! g = Some gnd ∧ st_heap s' !! g = Some gnd' ∧
      ((avl_left gnd = Some old ∧ avl_left gnd' = new ∧
        avl_right gnd' = avl_right gnd) ∨
       (avl_right gnd = Some old ∧ avl_right gnd' = new ∧
        avl_left gnd' = avl_left gnd))
  end.

(** Every node other than [a] and [b] keeps its stored height. *)
Definition heights_kept_except (s s' : state) (a b : addr) : Prop :=
  ∀ k, k ≠ a → k ≠ b →
    stored_height (st_heap s') (Some k) = stored_height (st_heap s) (Some k).

(** *** The walks of the ordered traversal, as the specification words them *)

(** [left_walk h a b]: walking [left] links from [a] stops at [b], the first
    node with no left child. *)
Inductive left_walk (h : gmap addr avl_node) : addr → addr → Prop :=
| left_walk_stop a nd :
    h !! a = Some nd → avl_left nd = None → left_walk h a a
| left_walk_step a nd l b :
    h !! a = Some nd → avl_left nd = Some l → left_walk h l b →
    left_walk h a b.

(** [up_walk h n r]: ascending parent links from [n] while the current node
    is its parent's right child, [r] is the first ancestor entered from its
    left child, or null when the root is passed. *)
Inductive up_walk (h : gmap addr avl_node) : addr → ptr → Prop :=
| up_walk_root n nd :
    h !! n = Some nd → avl_parent nd = None → up_walk h n None
| up_walk_left n nd p pnd :
    h !! n = Some nd → avl_parent nd = Some p →
    h !! p = Some pnd → avl_left pnd = Some n →
    up_walk h n (Some p)
| up_walk_right n nd p pnd r :
    h !! n = Some nd → avl_parent nd = Some p →
    h !! p = Some pnd → avl_right pnd = Some n →
    up_walk h p r →
    up_walk h n r.

(** *** What one visit of the rebalance walker does to a subtree *)

Definition rot_right (t : tree) : tree :=
  match t with
  | Node (Node A x B) y C => Node A x (Node B y C)
  | _ => t
  end.

Definition rot_left (t : tree) : tree :=
  match t with
  | Node A x (Node B y C) => Node (Node A x B) y C
  | _ => t
  end.

(** The subtree below a visited node after the visit: the rotations that
    [avl_rebalance] picks from the heights of the children and grandchildren. *)
Definition rebalance_node (t : tree) : tree :=
  match t with
  | Leaf => Leaf
  | Node l a r =>
    let balance := height l - height r in
    if 1 <? balance then
      match l with
      | Leaf => t
      | Node ll _ lr =>
        rot_right (Node (if height ll <? height lr then rot_left l else l) a r)
      end
    else if balance <? -1 then
      match r with
      | Leaf => t
      | Node rl _ rr =>
        rot_left (Node l a (if height rr <? height rl then rot_right r else r))
      end
    else t
  end.

(** Whether the topmost node has balance factor -1, 0 or 1. *)
Definition top_balanced (t : tree) : bool :=
  match t with
  | Leaf => true
  | Node l _ r => (-1 <=? height l - height r) && (height l - height r <=? 1)
  end.

(** *** The rebalance walker, as the specification words it *)

(** [balance = height(left) - height(right)]. *)
Definition balance_of (n : ptr) : M Z :=
  do l <- get_left n;
  do hl <- avl_height l;
  do r <- get_right n;
  do hr <- avl_height r;
  ret (hl - hr).

(** What the walker does at one node: recompute the height; if the node is
    left-heavy, rotate left at the left child when that child's own balance
    is negative, then rotate right at the node; symmetrically when the node
    is right-heavy. *)
Definition visit_spec (n : ptr) : M unit :=
  avl_update_height n;;
  do balance <- balance_of n;
  if 1 <? balance then
    do l <- get_left n;
    do bl <- balance_of l;
    (if bl <? 0 then avl_rotate_left l else ret tt);;
    avl_rotate_right n
  else if balance <? -1 then
    do r <- get_right n;
    do br <- balance_of r;
    (if 0 <? br then avl_rotate_right r else ret tt);;
    avl_rotate_left n
  else ret tt.

(** The chain of parent links from [p]: the node itself, its parent, and so
    on until a null parent, at most [fuel] nodes. *)
Fixpoint ancestors (fuel : nat) (h : gmap addr avl_node) (p : ptr) : list addr :=
  match fuel, p with
  | S fuel', Some a =>
    a :: match h !! a with
         | Some nd => ancestors fuel' h (avl_parent nd)
         | None => []
         end
  | _, _ => []
  end.

(** [rebalance_walk s n vs s']: starting at [n] in memory [s], the walker
    visits the nodes [vs] in turn, each time moving to the parent the visited
    node has after its visit, and stops in memory [s'] only when that parent
    is null. *)
Inductive rebalance_walk : state → ptr → list addr → state → Prop :=
| rebalance_walk_end s :
    rebalance_walk s None [] s
| rebalance_walk_visit s n s1 p vs s' :
    visit_spec (Some n) s = Done tt s1 →
    get_parent (Some n) s1 = Done p s1 →
    rebalance_walk s1 p vs s' →
    rebalance_walk s (Some n) (n :: vs) s'.

(** *** The precondition of the rebalance walker *)

Definition children_ok (h : gmap addr avl_node) (t : tree) : Prop :=
  match t with
  | Leaf => True
  | Node l _ r => heights_ok h l ∧ heights_ok h r
  end.

(** [walk_inv s c t]: the memory holds the tree [plug c t]; the walker is
    about to visit the topmost node of [t]; every subtree hanging off the
    path from that node to the root has correct stored heights (the nodes on
    the path itself may be stale); and the heights fit the [int8_t] field. *)
Definition walk_inv (s : state) (c : ctx) (t : tree) : Prop :=
  ctx_shape (st_heap s) c (tree_top t) (ctx_par c) (st_root s) ∧
  shape (st_heap s) (ctx_par c) (tree_top t) t ∧
  NoDup (inorder t ++ ctx_dom c) ∧
  children_ok (st_heap s) t ∧
  Forall (λ f, heights_ok (st_heap s) (frame_sib f)) c ∧
  height (plug c t) <= 127.

(** An upper bound on the number of visits the walker still makes. *)
Definition walk_fuel (c : ctx) (t : tree) : nat :=
  (256 * length c + 2 * Z.to_nat (height t)
   + (if top_balanced t then 0 else 1))%nat.

(** Balance of the ancestors of a subtree of height [H]. *)
Fixpoint ctx_balanced (c : ctx) (H : Z) : Prop :=
  match c with
  | [] => True
  | f :: c' =>
    balanced (frame_sib f) ∧
    -1 <= H - height (frame_sib f) <= 1 ∧
    ctx_balanced c' (1 + Z.max H (height (frame_sib f)))
  end.

(** The walker's situation after an insertion or a removal below the topmost
    node of [t] in a tree that was AVL-balanced: the children of that node
    are balanced and differ in height by at most 2, and the ancestors are
    balanced for a subtree whose height [H] is within 1 of the height the
    subtree has once its topmost node is fixed. *)
Definition avl_walk_inv (c : ctx) (t : tree) : Prop :=
  match t with
  | Leaf => False
  | Node l _ r =>
    balanced l ∧ balanced r ∧ -2 <= height l - height r <= 2 ∧
    ∃ H, ctx_balanced c H ∧
         H - 1 <= height (rebalance_node t) <= H + 1
  end.

(** ** Scenarios of the test harness *)

(** The first half of [main]: insert the keys, then print the tree in order. *)
Definition inorder_after_inserts (fuel : nat) (ks : list Z) : option (list Z) :=
  match insert_keys fuel ks 1%positive ∅ empty_tree with
  | Done keys s =>
    match print_inorder fuel keys s with
    | Done l _ => Some l
    | _ => None
    end
  | _ => None
  end.

(** A three-node tree: node 1 at the root, nodes 2 and 3 its children. *)
Definition example_state : state :=
  mk_state (Some 1%positive)
    (list_to_map
       [(1%positive, mk_node None (Some 2%positive) (Some 3%positive) 2);
        (2%positive, mk_node (Some 1%positive) None None 1);
        (3%positive, mk_node (Some 1%positive) None None 1)]).

Definition example_tree : tree :=
  Node (Node Leaf 2%positive Leaf) 1%positive (Node Leaf 3%positive Leaf).

(** ** In-order position of a hole *)

(** The nodes that come before the hole of a context in the in-order
    sequence, and those that come after it. *)
Fixpoint ctx_before (c : ctx) : list addr :=
  match c with
  | [] => []
  | InLeft _ _ :: c' => ctx_before c'
  | InRight sib g :: c' => ctx_before c' ++ inorder sib ++ [g]
  end.

Fixpoint ctx_after (c : ctx) : list addr :=
  match c with
  | [] => []
  | InLeft g sib :: c' => g :: inorder sib ++ ctx_after c'
  | InRight _ _ :: c' => ctx_after c'
  end.

(** ** Keys of the test harness *)

(** The key that [container_of] finds next to a node. *)
Definition key_at (keys : gmap addr Z) (a : addr) : Z := default 0 (keys !! a).

(** Every node of the list has a key, and the keys are in non-decreasing
    order along the list. *)
Definition keys_sorted (keys : gmap addr Z) (l : list addr) : Prop :=
  Forall (λ a, is_Some (keys !! a)) l ∧
  StronglySorted Z.le (key_at keys <$> l).

(** The order by key and, among nodes with equal keys, by address.  The
    insertion loop of [main] hands out addresses in increasing order, so that
    for its nodes this is the order by key and then by time of insertion. *)
Definition key_then_addr (keys : gmap addr Z) (a b : addr) : Prop :=
  key_at keys a < key_at keys b ∨
  (key_at keys a = key_at keys b ∧ (a < b)%positive).

(** The [struct avl_node **] that addresses the hole of a context. *)
Definition ctx_slot (c : ctx) : slot :=
  match c with
  | [] => RootSlot
  | InLeft g _ :: _ => LeftSlot (Some g)
  | InRight _ g :: _ => RightSlot (Some g)
  end.

(** ** Allocation *)

(** A computation that neither allocates nor frees: when it returns, the set
    of allocated addresses is the one it started with. *)
Definition keeps_alloc {A} (c : M A) : Prop :=
  ∀ s a s', c s = Done a s' → dom (st_heap s') = dom (st_heap s).

(** ** The end of [main] *)

(** The cleanup loop of [main] from node [n]: the successor is read before
    the node is erased and freed. *)
Fixpoint cleanup_from (fuel inner : nat) (n : ptr) : M unit :=
  match n with
  | None => ret tt
  | Some _ =>
    match fuel with
    | O => timeout
    | S fuel' =>
      do next <- avl_next inner n;
      avl_erase inner n;;
      free n;;
      cleanup_from fuel' inner next
    end
  end.

Definition cleanup (fuel : nat) : M unit :=
  do n <- avl_first fuel;
  cleanup_from fuel fuel n.

(** ** Further examples *)

(** Keys for the three-node example, and for a fourth node. *)
Definition example_keys : gmap addr Z :=
  list_to_map [(1%positive, 20); (2%positive, 10); (3%positive, 30);
               (4%positive, 40)].

(** The three-node example with a fourth node allocated but not linked. *)
Definition example_state_spare : state :=
  mk_state (st_root example_state)
           (<[4%positive := fresh_node]> (st_heap example_state)).

(** A five-node tree: node 1 at the root with children 2 and 3, node 2 with
    children 4 and 5. *)
Definition example_state5 : state :=
  mk_state (Some 1%positive)
    (list_to_map
       [(1%positive, mk_node None (Some 2%positive) (Some 3%positive) 3);
        (2%positive, mk_node (Some 1%positive) (Some 4%positive) (Some 5%positive) 2);
        (3%positive, mk_node (Some 1%positive) None None 1);
        (4%positive, mk_node (Some 2%positive) None None 1);
        (5%positive, mk_node (Some 2%positive) None None 1)]).

Definition example_tree5 : tree :=
  Node (Node (Node Leaf 4%positive Leaf) 2%positive (Node Leaf 5%positive Leaf))
       1%positive (Node Leaf 3%positive Leaf).

(** A tree in the middle of an insertion: node 5 has been linked as the right
    child of node 4 and node 4 has been visited, so that the height stored at
    node 2 is stale (2 instead of 3) and node 2 is left-heavy by 2 with a
    right-heavy left child; the walker is about to visit node 2. *)
Definition example_state_lr : state :=
  mk_state (Some 1%positive)
    (list_to_map
       [(1%positive, mk_node None (Some 2%positive) (Some 3%positive) 3);
        (2%positive, mk_node (Some 1%positive) (Some 4%positive) None 2);
        (3%positive, mk_node (Some 1%positive) None None 1);
        (4%positive, mk_node (Some 2%positive) None (Some 5%positive) 2);
        (5%positive, mk_node (Some 4%positive) None None 1)]).

(** The subtree at node 2 of that tree, and the path from it to the root. *)
Definition example_subtree_lr : tree :=
  Node (Node Leaf 4%positive (Node Leaf 5%positive Leaf)) 2%positive Leaf.

Definition example_ctx_lr : ctx := [InLeft 1%positive (Node Leaf 3%positive Leaf)].

(** * Running the monad *)

Lemma bind_Done {A B} (c : M A) (k : A → M B) s a s1 :
  c s = Done a s1 → bind c k s = k a s1.
Proof. intros H. unfold bind. by rewrite H. Qed.

Lemma get_parent_run s a nd :
  st_heap s !! a = Some nd → get_parent (Some a) s = Done (avl_parent nd) s.
Proof. intros H. unfold get_parent, bind, load, ret. by rewrite H. Qed.

Lemma get_left_run s a nd :
  st_heap s !! a = Some nd → get_left (Some a) s = Done (avl_left nd) s.
Proof. intros H. unfold get_left, bind, load, ret. by rewrite H. Qed.

Lemma get_right_run s a nd :
  st_heap s !! a = Some nd → get_right (Some a) s = Done (avl_right nd) s.
Proof. intros H. unfold get_right, bind, load, ret. by rewrite H. Qed.

Lemma int8_id z : -128 <= z <= 127 → int8 z = z.
Proof.
  intros Hz. unfold int8.
  rewrite Z.mod_small by lia. lia.
Qed.

(** * Shapes and frames *)

Lemma shape_top h par p t : shape h par p t → p = tree_top t.
Proof. destruct t; simpl; [done | by intros [-> _]]. Qed.

Lemma shape_top_in h par a t : shape h par (Some a) t → a ∈ inorder t.
Proof.
  destruct t; simpl; [done|]. intros (? & _). simplify_eq.
  apply elem_of_app. right. apply elem_of_cons. by left.
Qed.

Lemma shape_ne h par p t a : shape h par p t → a ∉ inorder t → p ≠ Some a.
Proof. intros Hs Ha ->. by apply Ha, (shape_top_in h par a t). Qed.

Lemma shape_alloc h par a t : shape h par (Some a) t → is_Some (h !! a).
Proof.
  destruct t; simpl; [done|]. intros (? & nd & Hnd & _). simplify_eq. eauto.
Qed.

Lemma is_Some_insert {A} (m : gmap addr A) i j x :
  is_Some (m !! j) → is_Some (<[i := x]> m !! j).
Proof. rewrite lookup_insert_is_Some. destruct (decide (i = j)); auto. Qed.

Lemma shape_ext h h' par p t :
  (∀ a, a ∈ inorder t → h' !! a = h !! a) →
  shape h par p t → shape h' par p t.
Proof.
  revert par p. induction t as [|l IHl a r IHr]; intros par p Hext; simpl; [done|].
  intros (-> & nd & Ha & Hp & Hl & Hr). split; [done|].
  exists nd. split_and!; [| done | |].
  - rewrite Hext; [done | set_solver].
  - apply IHl; [|done]. intros b Hb. apply Hext. set_solver.
  - apply IHr; [|done]. intros b Hb. apply Hext. set_solver.
Qed.

Lemma heights_ok_ext h h' t :
  (∀ a, a ∈ inorder t → stored_height h' (Some a) = stored_height h (Some a)) →
  heights_ok h t → heights_ok h' t.
Proof.
  induction t as [|l IHl a r IHr]; intros Hext; simpl; [done|].
  intros (Ha & Hl & Hr). split_and!.
  - rewrite <- Ha. apply Hext. set_solver.
  - apply IHl; [|done]. intros b Hb. apply Hext. set_solver.
  - apply IHr; [|done]. intros b Hb. apply Hext. set_solver.
Qed.

Lemma ctx_shape_ext h h' c p par rt :
  (∀ a, a ∈ ctx_dom c → h' !! a = h !! a) →
  ctx_shape h c p par rt → ctx_shape h' c p par rt.
Proof.
  revert p par. induction c as [|[g sib|sib g] c IH]; intros p par Hext; simpl; [done| |].
  - intros (-> & nd & Hg & Hp & Hs & Hc). split; [done|]. exists nd.
    split_and!; [| done | |].
    + rewrite Hext; [done | set_solver].
    + eapply shape_ext; [|done]. intros b Hb. apply Hext. set_solver.
    + apply IH; [|done]. intros b Hb. apply Hext. set_solver.
  - intros (-> & nd & Hg & Hp & Hs & Hc). split; [done|]. exists nd.
    split_and!; [| done | |].
    + rewrite Hext; [done | set_solver].
    + eapply shape_ext; [|done]. intros b Hb. apply Hext. set_solver.
    + apply IH; [|done]. intros b Hb. apply Hext. set_solver.
Qed.

Lemma height_nonneg t : 0 <= height t.
Proof. induction t; simpl; lia. Qed.

Lemma heights_ok_top h par p t :
  shape h par p t → heights_ok h t → stored_height h p = height t.
Proof.
  destruct t; simpl.
  - by intros ->.
  - by intros (-> & _) (? & _).
Qed.

Lemma stored_height_insert_eq h a nd :
  stored_height (<[a := nd]> h) (Some a) = avl_hgt nd.
Proof. unfold stored_height. by rewrite lookup_insert_eq. Qed.

Lemma stored_height_insert_ne h a nd p :
  p ≠ Some a → stored_height (<[a := nd]> h) p = stored_height h p.
Proof.
  intros Hp. destruct p as [b|]; [|done].
  unfold stored_height. rewrite lookup_insert_ne; [done | congruence].
Qed.

(** * Proof automation *)

(** Distinctness of addresses from a [NoDup] hypothesis: the hypothesis is
    split into its atomic facts, and a disequality is refuted by locating both
    sides in one of them. *)
Ltac nodup_split :=
  cbn [inorder ctx_dom frame_addr frame_sib] in *;
  repeat match goal with
    | H : NoDup (_ ++ _) |- _ => apply NoDup_app in H as (? & ? & ?)
    | H : NoDup (_ :: _) |- _ => apply NoDup_cons in H as (? & ?)
    | H : NoDup [] |- _ => clear H
    end.

Ltac nodup_perm H :=
  cbn [inorder ctx_dom frame_addr frame_sib] in H |- *;
  lazymatch type of H with
  | NoDup ?l =>
    lazymatch goal with
    | |- NoDup ?l' =>
      let Hp := fresh in
      assert (Hp : l' ≡ₚ l) by solve_Permutation;
      rewrite Hp; exact H
    end
  end.

Ltac in_solve :=
  lazymatch goal with
  | |- _ ∈ _ ++ _ => apply elem_of_app; first [left; in_solve | right; in_solve]
  | |- _ ∈ _ :: _ =>
    apply elem_of_cons; first [left; reflexivity | right; in_solve]
  | |- _ ∈ [] => fail
  | |- _ => first [ assumption | eapply shape_top_in; eassumption ]
  end.

Ltac nd_false :=
  match goal with
  | H : ?k ∉ ?l |- False => apply H; in_solve
  | H : ∀ x, x ∈ ?l1 → x ∉ ?l2, Hin : ?k ∈ _ |- False =>
    apply (H k); in_solve
  | H : ∀ x, x ∈ ?l1 → x ∉ ?l2, x : addr |- False =>
    apply (H x); in_solve
  end.

Ltac mdiff :=
  first
    [ assumption
    | congruence
    | let Heq := fresh "Heq" in
      intros Heq; simplify_eq; nd_false
    | eapply shape_ne; [eassumption | intros ?; nd_false]
    | apply not_eq_sym; eapply shape_ne; [eassumption | intros ?; nd_false] ].

(** Symbolic execution: unfold the code, then resolve each heap lookup. *)
Ltac munfold :=
  lazy beta iota zeta delta
    [bind ret load store timeout
     get_parent get_left get_right set_parent set_left set_right set_hgt
     get_root set_root avl_init_node
     st_heap st_root avl_parent avl_left avl_right avl_hgt
     with_parent with_left with_right with_hgt].

Ltac mlookup :=
  first
    [ rewrite lookup_insert_eq
    | match goal with
      | H : ?h !! ?a = Some _ |- context [?h !! ?a] => rewrite H
      end
    | rewrite lookup_insert_ne by mdiff ].

Ltac mrun := munfold; repeat (mlookup; munfold).

Lemma avl_update_height_run s a nd hl hr :
  st_heap s !! a = Some nd →
  (∀ c, avl_left nd = Some c → is_Some (st_heap s !! c)) →
  (∀ c, avl_right nd = Some c → is_Some (st_heap s !! c)) →
  stored_height (st_heap s) (avl_left nd) = hl →
  stored_height (st_heap s) (avl_right nd) = hr →
  avl_update_height (Some a) s =
    Done tt (mk_state (st_root s)
      (<[a := with_hgt (int8 (Z.max hl hr + 1)) nd]> (st_heap s))).
Proof.
  intros Ha Hl Hr <- <-. destruct s as [rt h], nd as [np nl nr nh]; simpl in *.
  destruct nl as [l|], nr as [r|]; simpl;
    try (destruct (Hl l eq_refl) as [lnd Hlnd]);
    try (destruct (Hr r eq_refl) as [rnd Hrnd]);
    unfold avl_update_height, avl_height;
    mrun; try rewrite Hlnd; try rewrite Hrnd; reflexivity.
Qed.

Ltac malloc :=
  cbn [avl_left avl_right st_heap]; intros ? ?; simplify_eq;
  repeat apply is_Some_insert; eauto using shape_alloc.

Ltac mheight :=
  cbn [st_heap avl_left avl_right avl_hgt];
  repeat first
    [ rewrite stored_height_insert_eq
    | rewrite stored_height_insert_ne by mdiff ];
  cbn [avl_hgt]; reflexivity.

Ltac mupd :=
  lazymatch goal with
  | |- context [avl_update_height (Some ?a) ?s] =>
    erewrite (avl_update_height_run s a);
    [ | cbn [st_heap]; repeat mlookup; reflexivity | malloc | malloc
      | mheight | mheight ]
  end; munfold.

(** Lookups outside the nodes an operation wrote are unchanged. *)
Ltac mframe :=
  let a := fresh "a" in
  let Ha := fresh "Ha" in
  intros a Ha; cbn [st_heap];
  repeat lazymatch goal with
    | |- (<[?k := _]> _) !! a = _ =>
      first
        [ rewrite (lookup_insert_ne _ k a) by assumption
        | (assert (k ≠ a) by mdiff);
          rewrite (lookup_insert_ne _ k a) by assumption ]
    end;
  reflexivity.

(** One node of a shape, read from the final heap. *)
Ltac mnode :=
  cbn [shape ctx_shape st_heap st_root];
  split; [reflexivity|];
  eexists; split; [repeat mlookup; reflexivity|];
  cbn [avl_parent avl_left avl_right];
  split; [reflexivity|]; split.

Ltac msub :=
  first
    [ reflexivity
    | eapply shape_ext; [|eassumption]; mframe
    | eapply ctx_shape_ext; [|eassumption]; mframe ].

(** Stored heights of the nodes an operation did not recompute. *)
Ltac mhframe :=
  let a := fresh "a" in
  intros a; intros; unfold stored_height; cbn [st_heap];
  repeat lazymatch goal with
    | |- context [(<[?k := _]> _) !! a] =>
      first
        [ rewrite (lookup_insert_ne _ k a) by congruence
        | destruct (decide (k = a)) as [->|];
          [ rewrite lookup_insert_eq; cbn [avl_hgt];
            match goal with
            | H : ?h !! a = Some _ |- context [?h !! a] => rewrite H
            end; reflexivity
          | rewrite (lookup_insert_ne _ k a) by assumption ] ]
    end;
  reflexivity.

Ltac mhgt :=
  unfold stored_height; cbn [st_heap tree_top]; repeat mlookup; reflexivity.

Ltac mbool :=
  unfold ptr_eqb;
  first [ rewrite bool_decide_eq_true_2 by reflexivity
        | rewrite bool_decide_eq_false_2 by mdiff ].

(** * Rotations *)

(** [avl_rotate_right] at [y], the topmost node of the subtree
    [(A x B) y C] below the context [c]: the call returns, the subtree is
    now [A x (B y C)] below the same context, and only the heights of [y]
    and then [x] are recomputed. *)
Lemma avl_rotate_right_spec s c par A x B y C :
  ctx_shape (st_heap s) c (Some y) par (st_root s) →
  shape (st_heap s) par (Some y) (Node (Node A x B) y C) →
  NoDup (inorder (Node (Node A x B) y C) ++ ctx_dom c) →
  ∃ s', avl_rotate_right (Some y) s = Done tt s' ∧
        ctx_shape (st_heap s') c (Some x) par (st_root s') ∧
        shape (st_heap s') par (Some x) (Node A x (Node B y C)) ∧
        (∀ a, a ≠ x → a ≠ y →
           stored_height (st_heap s') (Some a) = stored_height (st_heap s) (Some a)) ∧
        stored_height (st_heap s') (Some y) =
          int8 (Z.max (stored_height (st_heap s) (tree_top B))
                      (stored_height (st_heap s) (tree_top C)) + 1) ∧
        stored_height (st_heap s') (Some x) =
          int8 (Z.max (stored_height (st_heap s) (tree_top A))
                      (stored_height (st_heap s') (Some y)) + 1).
Proof.
  destruct s as [rt h]. cbn [st_heap st_root].
  intros Hc (_ & [yp yl yr yh] & Hy & Hyp & Hl & HC) Hnd. cbn [avl_parent avl_left avl_right] in *.
  destruct Hl as (-> & [xp xl xr xh] & Hx & Hxp & HA & HB).
  cbn [avl_parent avl_left avl_right] in *. subst.
  destruct B as [|B1 b B2]; cbn [shape] in HB;
    [ subst xr | destruct HB as (-> & [bp bl br bh] & Hb & Hbp & HB1 & HB2);
                 cbn [avl_parent avl_left avl_right] in *; subst ];
    (destruct c as [|[g sib|sib g] c]; cbn [ctx_shape] in Hc;
     [ destruct Hc as [-> ->]
     | destruct Hc as (-> & [gp gl gr gh] & Hg & Hgl & Hsib & Hc);
       cbn [avl_parent avl_left avl_right] in *; subst
     | destruct Hc as (-> & [gp gl gr gh] & Hg & Hgl & Hsib & Hc);
       cbn [avl_parent avl_left avl_right] in *; subst ]);
    nodup_split;
    (eexists; split;
     [ unfold avl_rotate_right; mrun; try (mbool; mrun); mupd; mupd; reflexivity | ]);
    (split; [ first [ done | mnode; msub ] | ]);
    (split; [ mnode; [msub|]; mnode; [ first [ msub | mnode; msub ] | msub ] | ]);
    (split; [ mhframe | ]);
    (pose proof (shape_top _ _ _ _ HC) as HtC;
     pose proof (shape_top _ _ _ _ HA) as HtA;
     rewrite <- ?HtC, <- ?HtA; split; mhgt).
Qed.

(** The mirror image: [avl_rotate_left] at [x] turns [A x (B y C)] into
    [(A x B) y C]. *)
Lemma avl_rotate_left_spec s c par A x B y C :
  ctx_shape (st_heap s) c (Some x) par (st_root s) →
  shape (st_heap s) par (Some x) (Node A x (Node B y C)) →
  NoDup (inorder (Node A x (Node B y C)) ++ ctx_dom c) →
  ∃ s', avl_rotate_left (Some x) s = Done tt s' ∧
        ctx_shape (st_heap s') c (Some y) par (st_root s') ∧
        shape (st_heap s') par (Some y) (Node (Node A x B) y C) ∧
        (∀ a, a ≠ x → a ≠ y →
           stored_height (st_heap s') (Some a) = stored_height (st_heap s) (Some a)) ∧
        stored_height (st_heap s') (Some x) =
          int8 (Z.max (stored_height (st_heap s) (tree_top A))
                      (stored_height (st_heap s) (tree_top B)) + 1) ∧
        stored_height (st_heap s') (Some y) =
          int8 (Z.max (stored_height (st_heap s') (Some x))
                      (stored_height (st_heap s) (tree_top C)) + 1).
Proof.
  destruct s as [rt h]. cbn [st_heap st_root].
  intros Hc (_ & [xp xl xr xh] & Hx & Hxp & HA & Hr) Hnd. cbn [avl_parent avl_left avl_right] in *.
  destruct Hr as (-> & [yp yl yr yh] & Hy & Hyp & HB & HC).
  cbn [avl_parent avl_left avl_right] in *. subst.
  destruct B as [|B1 b B2]; cbn [shape] in HB;
    [ subst yl | destruct HB as (-> & [bp bl br bh] & Hb & Hbp & HB1 & HB2);
                 cbn [avl_parent avl_left avl_right] in *; subst ];
    (destruct c as [|[g sib|sib g] c]; cbn [ctx_shape] in Hc;
     [ destruct Hc as [-> ->]
     | destruct Hc as (-> & [gp gl gr gh] & Hg & Hgl & Hsib & Hc);
       cbn [avl_parent avl_left avl_right] in *; subst
     | destruct Hc as (-> & [gp gl gr gh] & Hg & Hgl & Hsib & Hc);
       cbn [avl_parent avl_left avl_right] in *; subst ]);
    nodup_split;
    (eexists; split;
     [ unfold avl_rotate_left; mrun; try (mbool; mrun); mupd; mupd; reflexivity | ]);
    (split; [ first [ done | mnode; msub ] | ]);
    (split; [ mnode; [|msub]; mnode; [ msub | first [ msub | mnode; msub ] ] | ]);
    (split; [ mhframe | ]);
    (pose proof (shape_top _ _ _ _ HC) as HtC;
     pose proof (shape_top _ _ _ _ HA) as HtA;
     rewrite <- ?HtC, <- ?HtA; split; mhgt).
Qed.

(** * Contexts *)

Lemma plug_app c1 c2 t : plug (c1 ++ c2) t = plug c2 (plug c1 t).
Proof. revert t. induction c1 as [|f c1 IH]; intros t; simpl; [done | apply IH]. Qed.

Lemma inorder_fill_perm f t :
  inorder (fill f t) ≡ₚ inorder t ++ frame_addr f :: inorder (frame_sib f).
Proof.
  destruct f as [g sib|sib g]; simpl; [done|].
  rewrite (Permutation_app_comm (inorder sib)). simpl.
  by rewrite Permutation_middle.
Qed.

Lemma inorder_plug_perm c t : inorder (plug c t) ≡ₚ inorder t ++ ctx_dom c.
Proof.
  revert t. induction c as [|f c IH]; intros t; simpl.
  - by rewrite app_nil_r.
  - rewrite IH, inorder_fill_perm, <- app_assoc. done.
Qed.

Lemma inorder_plug_ext c t t' :
  inorder t' = inorder t → inorder (plug c t') = inorder (plug c t).
Proof.
  revert t t'. induction c as [|f c IH]; intros t t' Heq; simpl; [done|].
  apply IH. destruct f; simpl; by rewrite Heq.
Qed.

Lemma plug_shape h c t p par rt :
  ctx_shape h c p par rt → shape h par p t → shape h None rt (plug c t).
Proof.
  revert t p par. induction c as [|[g sib|sib g] c IH]; intros t p par; simpl.
  - by intros [-> ->].
  - intros (-> & nd & Hg & Hl & Hs & Hc) Ht. eapply IH; [exact Hc|].
    simpl. split; [done|]. exists nd. by rewrite Hl.
  - intros (-> & nd & Hg & Hr & Hs & Hc) Ht. eapply IH; [exact Hc|].
    simpl. split; [done|]. exists nd. by rewrite Hr.
Qed.

Lemma shape_plug_inv h c t rt :
  shape h None rt (plug c t) → ∃ p par, ctx_shape h c p par rt ∧ shape h par p t.
Proof.
  revert t. induction c as [|[g sib|sib g] c IH]; intros t; simpl.
  - intros Ht. by exists rt, None.
  - intros Ht. destruct (IH _ Ht) as (p & par & Hc & -> & nd & Hg & Hp & Hl & Hr).
    exists (avl_left nd), (Some g). split; [|done].
    split; [done|]. exists nd. by subst.
  - intros Ht. destruct (IH _ Ht) as (p & par & Hc & -> & nd & Hg & Hp & Hl & Hr).
    exists (avl_right nd), (Some g). split; [|done].
    split; [done|]. exists nd. by subst.
Qed.

Lemma tree_find T a : a ∈ inorder T → ∃ c l r, T = plug c (Node l a r).
Proof.
  induction T as [|L IHL b R IHR]; simpl; [by intros ?%elem_of_nil|].
  rewrite elem_of_app, elem_of_cons. intros [Ha|[->|Ha]].
  - destruct (IHL Ha) as (c & l & r & ->).
    exists (c ++ [InLeft b R]), l, r. by rewrite plug_app.
  - by exists [], L, R.
  - destruct (IHR Ha) as (c & l & r & ->).
    exists (c ++ [InRight L b]), l, r. by rewrite plug_app.
Qed.

(** Every node of a tree is the topmost node of a subtree in a context. *)
Lemma tree_in_focus s T a :
  tree_in s T → a ∈ inorder T →
  ∃ c l r par, T = plug c (Node l a r) ∧
    ctx_shape (st_heap s) c (Some a) par (st_root s) ∧
    shape (st_heap s) par (Some a) (Node l a r) ∧
    NoDup (inorder (Node l a r) ++ ctx_dom c).
Proof.
  intros [Hs Hnd] Ha. destruct (tree_find T a Ha) as (c & l & r & ->).
  destruct (shape_plug_inv _ _ _ _ Hs) as (p & par & Hc & Ht).
  exists c, l, r, par. split; [done|].
  assert (p = Some a) as -> by (by destruct Ht).
  split_and!; [done | done |].
  by rewrite <- inorder_plug_perm.
Qed.

Lemma tree_in_plug s c t p par :
  ctx_shape (st_heap s) c p par (st_root s) →
  shape (st_heap s) par p t →
  NoDup (inorder t ++ ctx_dom c) →
  tree_in s (plug c t).
Proof.
  intros Hc Ht Hnd. split; [by eapply plug_shape|].
  by rewrite inorder_plug_perm.
Qed.

(** * Rotations in a whole tree *)

Lemma ctx_slot_redirected s s' c par old new :
  ctx_shape (st_heap s) c (Some old) par (st_root s) →
  ctx_shape (st_heap s') c new par (st_root s') →
  slot_redirected s s' par old new.
Proof.
  destruct c as [|[g sib|sib g] c]; simpl.
  - intros [-> Hr] [_ Hr']. by split.
  - intros (-> & nd & Hg & Hl & Hs & _) (_ & nd' & Hg' & Hl' & Hs' & _).
    exists nd, nd'. split_and!; [done..|]. left. split_and!; [done..|].
    by rewrite (shape_top _ _ _ _ Hs), (shape_top _ _ _ _ Hs').
  - intros (-> & nd & Hg & Hl & Hs & _) (_ & nd' & Hg' & Hl' & Hs' & _).
    exists nd, nd'. split_and!; [done..|]. right. split_and!; [done..|].
    by rewrite (shape_top _ _ _ _ Hs), (shape_top _ _ _ _ Hs').
Qed.

(** C4: a rotation keeps the in-order sequence of the whole tree, recomputes
    the height of the demoted node and then of the promoted node and of no
    other node, and redirects the slot that held the demoted node (a child
    field of its parent, or the root cell) to the promoted child.  The first
    part is [avl_rotate_right] at a node [n] with left child [c0], the second
    [avl_rotate_left] at a node with right child [c0]. *)
Theorem rotation_keeps_inorder s T n nd c0 :
  tree_in s T → n ∈ inorder T → st_heap s !! n = Some nd →
  (avl_left nd = Some c0 →
   ∃ s' T' cnd,
     avl_rotate_right (Some n) s = Done tt s' ∧
     tree_in s' T' ∧ inorder T' = inorder T ∧
     st_heap s !! c0 = Some cnd ∧
     heights_kept_except s s' n c0 ∧
     stored_height (st_heap s') (Some n) =
       int8 (Z.max (stored_height (st_heap s) (avl_right cnd))
                   (stored_height (st_heap s) (avl_right nd)) + 1) ∧
     stored_height (st_heap s') (Some c0) =
       int8 (Z.max (stored_height (st_heap s) (avl_left cnd))
                   (stored_height (st_heap s') (Some n)) + 1) ∧
     slot_redirected s s' (avl_parent nd) n (Some c0)) ∧
  (avl_right nd = Some c0 →
   ∃ s' T' cnd,
     avl_rotate_left (Some n) s = Done tt s' ∧
     tree_in s' T' ∧ inorder T' = inorder T ∧
     st_heap s !! c0 = Some cnd ∧
     heights_kept_except s s' n c0 ∧
     stored_height (st_heap s') (Some n) =
       int8 (Z.max (stored_height (st_heap s) (avl_left nd))
                   (stored_height (st_heap s) (avl_left cnd)) + 1) ∧
     stored_height (st_heap s') (Some c0) =
       int8 (Z.max (stored_height (st_heap s') (Some n))
                   (stored_height (st_heap s) (avl_right cnd)) + 1) ∧
     slot_redirected s s' (avl_parent nd) n (Some c0)).
Proof.
  intros HT Hn Hnd.
  destruct (tree_in_focus s T n HT Hn) as (c & l & r & par & -> & Hc & Ht & Hdup).
  pose proof Ht as (_ & nd' & Hnd' & Hpar & Hl & Hr).
  rewrite Hnd in Hnd'. injection Hnd' as <-.
  split; intros Hc0.
  - rewrite Hc0 in Hl. destruct l as [|A x B]; [done|].
    pose proof Hl as ([= <-] & cnd & Hcnd & _ & HA & HB).
    destruct (avl_rotate_right_spec s c par A c0 B n r Hc Ht Hdup)
      as (s' & Hrun & Hc' & Ht' & Hk & Hhn & Hhc).
    exists s', (plug c (Node A c0 (Node B n r))), cnd.
    split_and!; [done | | | done | by intros k ? ?; apply Hk | | |].
    + eapply tree_in_plug; [done..|].
      replace (inorder (Node A c0 (Node B n r)))
        with (inorder (Node (Node A c0 B) n r)); [done|].
      simpl. by rewrite <- app_assoc.
    + apply inorder_plug_ext. simpl. by rewrite <- app_assoc.
    + by rewrite (shape_top _ _ _ _ HB), (shape_top _ _ _ _ Hr).
    + by rewrite (shape_top _ _ _ _ HA).
    + subst par. by eapply ctx_slot_redirected.
  - rewrite Hc0 in Hr. destruct r as [|B y C]; [done|].
    pose proof Hr as ([= <-] & cnd & Hcnd & _ & HB & HC).
    destruct (avl_rotate_left_spec s c par l n B c0 C Hc Ht Hdup)
      as (s' & Hrun & Hc' & Ht' & Hk & Hhn & Hhc).
    exists s', (plug c (Node (Node l n B) c0 C)), cnd.
    split_and!; [done | | | done | done | | |].
    + eapply tree_in_plug; [done..|].
      replace (inorder (Node (Node l n B) c0 C))
        with (inorder (Node l n (Node B c0 C))); [done|].
      simpl. by rewrite <- app_assoc.
    + apply inorder_plug_ext. simpl. by rewrite <- app_assoc.
    + by rewrite (shape_top _ _ _ _ Hl), (shape_top _ _ _ _ HB).
    + by rewrite (shape_top _ _ _ _ HC).
    + subst par. by eapply ctx_slot_redirected.
Qed.

(** * Ordered traversal *)

Lemma avl_subtree_min_read_only fuel n s r s' :
  avl_subtree_min fuel n s = Done r s' → s' = s.
Proof.
  destruct s as [rt h]. revert n.
  induction fuel as [|fuel IH]; intros [a|]; simpl; munfold.
  - destruct (h !! a) as [[np [l|] nr nh]|]; [done | | done]. by intros [= _ <-].
  - by intros [= _ <-].
  - destruct (h !! a) as [[np [l|] nr nh]|]; [apply IH | | done]. by intros [= _ <-].
  - by intros [= _ <-].
Qed.

Lemma avl_next_up_read_only fuel n s r s' :
  avl_next_up fuel n s = Done r s' → s' = s.
Proof.
  destruct s as [rt h]. revert n.
  induction fuel as [|fuel IH]; intros [a|]; simpl; munfold; try done.
  - destruct (h !! a) as [[[p|] nl nr nh]|]; [ | by intros [= _ <-] | done].
    destruct (h !! p) as [[pp pl pr ph]|]; [|done].
    destruct (ptr_eqb (Some a) pr); [done|]. by intros [= _ <-].
  - destruct (h !! a) as [[[p|] nl nr nh]|]; [ | by intros [= _ <-] | done].
    destruct (h !! p) as [[pp pl pr ph]|]; [|done].
    destruct (ptr_eqb (Some a) pr); [apply IH|]. by intros [= _ <-].
Qed.

(** C10: the traversal functions leave the memory as it was: the root cell
    and every field of every node are the same after [avl_first] and after
    [avl_next] as before. *)
Theorem traversal_read_only fuel node s r s' :
  avl_first fuel s = Done r s' ∨ avl_next fuel node s = Done r s' → s' = s.
Proof.
  intros [H|H].
  - unfold avl_first, bind, get_root in H.
    by apply avl_subtree_min_read_only in H.
  - destruct s as [rt h]. unfold avl_next in H. revert H. munfold.
    destruct node as [a|]; [|done].
    destruct (h !! a) as [[np nl [c|] nh]|]; [| | done].
    + apply avl_subtree_min_read_only.
    + apply avl_next_up_read_only.
Qed.

Lemma avl_subtree_min_spec s t : ∀ par p (fuel : nat),
  shape (st_heap s) par p t → (length (inorder t) <= fuel)%nat →
  ∃ r, avl_subtree_min fuel p s = Done r s ∧
       match p with
       | None => r = None
       | Some a => ∃ b, r = Some b ∧ left_walk (st_heap s) a b
       end.
Proof.
  induction t as [|l IHl a r _]; intros par p fuel.
  - simpl. intros -> _. exists None. by destruct fuel.
  - intros (-> & nd & Ha & _ & Hl & _) Hfuel.
    simpl in Hfuel. rewrite length_app in Hfuel. simpl in Hfuel.
    destruct (avl_left nd) as [l0|] eqn:Hleft.
    + destruct fuel as [|fuel]; [lia|].
      destruct (IHl (Some a) (Some l0) fuel Hl ltac:(lia)) as (r0 & Hrun & b & -> & Hw).
      exists (Some b). split.
      * simpl. rewrite (bind_Done _ _ _ _ _ (get_left_run _ _ _ Ha)). by rewrite Hleft.
      * exists b. split; [done|]. by eapply left_walk_step.
    + exists (Some a). split.
      * destruct fuel; simpl; rewrite (bind_Done _ _ _ _ _ (get_left_run _ _ _ Ha));
          by rewrite Hleft.
      * exists a. split; [done|]. by eapply left_walk_stop.
Qed.

Lemma avl_next_up_spec s : ∀ c n nd (fuel : nat),
  st_heap s !! n = Some nd →
  ctx_shape (st_heap s) c (Some n) (avl_parent nd) (st_root s) →
  NoDup (n :: ctx_dom c) → (length c <= fuel)%nat →
  ∃ r, avl_next_up fuel (Some n) s = Done r s ∧ up_walk (st_heap s) n r.
Proof.
  induction c as [|[g sib|sib g] c IH]; intros n nd fuel Hn Hc Hdup Hfuel.
  - destruct Hc as [Hp _]. exists None. split.
    + destruct fuel; simpl; rewrite (bind_Done _ _ _ _ _ (get_parent_run _ _ _ Hn));
        by rewrite Hp.
    + by eapply up_walk_root.
  - destruct Hc as (Hp & gnd & Hg & Hl & Hs & Hc). exists (Some g). split.
    + assert (ptr_eqb (Some n) (avl_right gnd) = false) as Hne.
      { unfold ptr_eqb. apply bool_decide_eq_false_2. nodup_split. mdiff. }
      destruct fuel; simpl; rewrite (bind_Done _ _ _ _ _ (get_parent_run _ _ _ Hn));
        rewrite Hp; rewrite (bind_Done _ _ _ _ _ (get_right_run _ _ _ Hg));
        by rewrite Hne.
    + by eapply up_walk_left.
  - destruct Hc as (Hp & gnd & Hg & Hr & Hs & Hc).
    simpl in Hfuel. destruct fuel as [|fuel]; [lia|].
    destruct (IH g gnd fuel Hg Hc) as (r & Hrun & Hw).
    { nodup_split. apply NoDup_cons. split; [|done].
      intros Hin. nd_false. }
    { lia. }
    exists r. split.
    + simpl. rewrite (bind_Done _ _ _ _ _ (get_parent_run _ _ _ Hn)).
      rewrite Hp. rewrite (bind_Done _ _ _ _ _ (get_right_run _ _ _ Hg)).
      unfold ptr_eqb. rewrite Hr, bool_decide_eq_true_2 by done. exact Hrun.
    + by eapply up_walk_right.
Qed.

Lemma ctx_length_dom c : (length c <= length (ctx_dom c))%nat.
Proof.
  induction c as [|f c IH]; simpl; [lia|]. rewrite length_app. lia.
Qed.

(** C8: on a well-formed tree, [avl_first] returns the node reached by
    walking left links from the root (none for the empty tree), and
    [avl_next] returns the leftmost node of the right subtree when there is
    a right child, and otherwise the first ancestor entered from its left
    child while ascending the parent links, or null when there is none. *)
Theorem traversal_follows_links s T :
  tree_in s T →
  (∀ fuel : nat, (length (inorder T) <= fuel)%nat →
     ∃ r, avl_first fuel s = Done r s ∧
          match st_root s with
          | None => r = None
          | Some a => ∃ b, r = Some b ∧ left_walk (st_heap s) a b
          end) ∧
  (∀ (fuel : nat) n nd, (length (inorder T) <= fuel)%nat →
     n ∈ inorder T → st_heap s !! n = Some nd →
     ∃ r, avl_next fuel (Some n) s = Done r s ∧
          match avl_right nd with
          | Some c => ∃ b, r = Some b ∧ left_walk (st_heap s) c b
          | None => up_walk (st_heap s) n r
          end).
Proof.
  intros HT. split.
  - intros fuel Hfuel. destruct HT as [Hs _].
    destruct (avl_subtree_min_spec s T None (st_root s) fuel Hs Hfuel) as (r & Hrun & Hr).
    exists r. split; [|done]. by unfold avl_first, bind, get_root.
  - intros fuel n nd Hfuel Hn Hnd.
    destruct (tree_in_focus s T n HT Hn) as (c & l & r & par & -> & Hc & Ht & Hdup).
    pose proof Ht as (_ & nd' & Hnd' & Hpar & Hl & Hr).
    rewrite Hnd in Hnd'. injection Hnd' as <-.
    rewrite inorder_plug_perm, length_app in Hfuel. simpl in Hfuel.
    rewrite length_app in Hfuel. simpl in Hfuel.
    destruct (avl_right nd) as [c0|] eqn:Hright.
    + destruct (avl_subtree_min_spec s r (Some n) (Some c0) fuel Hr ltac:(lia))
        as (r0 & Hrun & Hw).
      exists r0. split; [|done].
      unfold avl_next. rewrite (bind_Done _ _ _ _ _ (get_right_run _ _ _ Hnd)).
      by rewrite Hright.
    + subst par.
      destruct (avl_next_up_spec s c n nd fuel Hnd Hc) as (r0 & Hrun & Hw).
      { simpl in Hdup. apply NoDup_app in Hdup as (Ht' & Hd & Hcd).
        apply NoDup_cons. split; [|done]. intros Hin. apply (Hd n); [|done].
        in_solve. }
      { pose proof (ctx_length_dom c). lia. }
      exists r0. split; [|done].
      unfold avl_next. rewrite (bind_Done _ _ _ _ _ (get_right_run _ _ _ Hnd)).
      by rewrite Hright.
Qed.

(** * The rebalancing step on trees *)

Ltac heights_pos :=
  repeat match goal with
    | t : tree |- _ =>
      lazymatch goal with
      | _ : 0 <= height t |- _ => fail
      | _ => pose proof (height_nonneg t)
      end
    end.

Ltac ltb_cases :=
  repeat match goal with
    | |- context [?a <? ?b] => destruct (Z.ltb_spec a b)
    | |- context [?a <=? ?b] => destruct (Z.leb_spec a b)
    | H : context [?a <? ?b] |- _ => destruct (Z.ltb_spec a b)
    | H : context [?a <=? ?b] |- _ => destruct (Z.leb_spec a b)
    end.

Lemma rebalance_node_inorder t : inorder (rebalance_node t) = inorder t.
Proof.
  destruct t as [|l a r]; [done|]. unfold rebalance_node.
  destruct (1 <? height l - height r).
  - destruct l as [|ll x lr]; [done|].
    destruct (height ll <? height lr); [|simpl; repeat (rewrite <- app_assoc; simpl); done].
    destruct lr as [|B1 b B2]; simpl; repeat (rewrite <- app_assoc; simpl); done.
  - destruct (height l - height r <? -1); [|done].
    destruct r as [|rl y rr]; [done|].
    destruct (height rr <? height rl); [|simpl; repeat (rewrite <- app_assoc; simpl); done].
    destruct rl as [|B1 b B2]; simpl; repeat (rewrite <- app_assoc; simpl); done.
Qed.

Lemma rebalance_node_balanced_top t :
  top_balanced t = true → rebalance_node t = t.
Proof.
  destruct t as [|l a r]; [done|]. unfold top_balanced, rebalance_node.
  intros [H1 H2]%andb_true_iff. ltb_cases; try lia; done.
Qed.

Lemma rebalance_node_progress l a r :
  top_balanced (Node l a r) = false →
  let t' := rebalance_node (Node l a r) in
  tree_top t' ≠ None ∧
  (height t' < height (Node l a r) ∨
   (height t' = height (Node l a r) ∧ top_balanced t' = true)).
Proof.
  unfold top_balanced, rebalance_node.
  rewrite andb_false_iff, !Z.leb_gt. intros Hb. heights_pos.
  destruct (Z.ltb_spec 1 (height l - height r)).
  - destruct l as [|ll x lr]; [simpl in *; lia|].
    destruct (Z.ltb_spec (height ll) (height lr)).
    + destruct lr as [|B1 b B2]; heights_pos; [simpl in *; lia|].
      simpl in *. split; [done|]. left. lia.
    + simpl in *. split; [done|].
      rewrite andb_true_iff, !Z.leb_le. lia.
  - destruct (Z.ltb_spec (height l - height r) (-1)); [|exfalso; lia].
    destruct r as [|rl y rr]; [simpl in *; lia|].
    destruct (Z.ltb_spec (height rr) (height rl)).
    + destruct rl as [|B1 b B2]; heights_pos; [simpl in *; lia|].
      simpl in *. split; [done|]. left. lia.
    + simpl in *. split; [done|].
      rewrite andb_true_iff, !Z.leb_le. lia.
Qed.

Lemma rebalance_node_height_le t : height (rebalance_node t) <= height t.
Proof.
  destruct t as [|l a r]; [done|].
  destruct (top_balanced (Node l a r)) eqn:Hb.
  - by rewrite rebalance_node_balanced_top.
  - pose proof (rebalance_node_progress l a r Hb) as (_ & H). cbv zeta in H. lia.
Qed.

Lemma rebalance_node_balanced l a r :
  balanced l → balanced r → -2 <= height l - height r <= 2 →
  balanced (rebalance_node (Node l a r)) ∧
  Z.max (height l) (height r) <= height (rebalance_node (Node l a r))
    <= 1 + Z.max (height l) (height r) ∧
  (-1 <= height l - height r <= 1 →
   height (rebalance_node (Node l a r)) = 1 + Z.max (height l) (height r)).
Proof.
  unfold rebalance_node. intros Hl Hr Hd. heights_pos.
  destruct (Z.ltb_spec 1 (height l - height r)).
  - destruct l as [|ll x lr]; [simpl in *; lia|].
    destruct (Z.ltb_spec (height ll) (height lr)).
    + destruct lr as [|B1 b B2]; heights_pos; [simpl in *; lia|].
      simpl in *. intuition lia.
    + simpl in *. intuition lia.
  - destruct (Z.ltb_spec (height l - height r) (-1)).
    + destruct r as [|rl y rr]; [simpl in *; lia|].
      destruct (Z.ltb_spec (height rr) (height rl)).
      * destruct rl as [|B1 b B2]; heights_pos; [simpl in *; lia|].
        simpl in *. intuition lia.
      * simpl in *. intuition lia.
    + simpl in *. intuition lia.
Qed.

(** * One visit of the rebalance walker *)

Lemma shape_node_inv h par p l n r :
  shape h par p (Node l n r) →
  p = Some n ∧
  ∃ nd, h !! n = Some nd ∧ avl_parent nd = par ∧
        avl_left nd = tree_top l ∧ avl_right nd = tree_top r ∧
        shape h (Some n) (tree_top l) l ∧ shape h (Some n) (tree_top r) r.
Proof.
  intros (-> & nd & Hn & Hp & Hl & Hr). split; [done|]. exists nd.
  pose proof (shape_top _ _ _ _ Hl) as Htl.
  pose proof (shape_top _ _ _ _ Hr) as Htr.
  rewrite Htl in Hl. rewrite Htr in Hr. done.
Qed.

Lemma avl_height_run s par t :
  shape (st_heap s) par (tree_top t) t → heights_ok (st_heap s) t →
  avl_height (tree_top t) s = Done (height t) s.
Proof.
  intros Hs Hh. rewrite <- (heights_ok_top _ _ _ _ Hs Hh).
  destruct t as [|l a r]; [done|].
  destruct Hs as (_ & nd & Ha & _). simpl.
  unfold bind, load, ret, stored_height. by rewrite Ha.
Qed.

Lemma balance_of_run s par l n r :
  shape (st_heap s) par (Some n) (Node l n r) →
  heights_ok (st_heap s) l → heights_ok (st_heap s) r →
  balance_of (Some n) s = Done (height l - height r) s.
Proof.
  intros (_ & nd & Hn & _ & Hl & Hr & Hsl & Hsr)%shape_node_inv Hhl Hhr.
  unfold balance_of.
  rewrite (bind_Done _ _ _ _ _ (get_left_run _ _ _ Hn)), Hl.
  rewrite (bind_Done _ _ _ _ _ (avl_height_run _ _ _ Hsl Hhl)).
  rewrite (bind_Done _ _ _ _ _ (get_right_run _ _ _ Hn)), Hr.
  rewrite (bind_Done _ _ _ _ _ (avl_height_run _ _ _ Hsr Hhr)).
  done.
Qed.

(** With correct heights in [A], [B] and [C], the rotated subtree has
    correct heights throughout. *)
Lemma avl_rotate_right_settled s c par A x B y C :
  ctx_shape (st_heap s) c (Some y) par (st_root s) →
  shape (st_heap s) par (Some y) (Node (Node A x B) y C) →
  NoDup (inorder (Node (Node A x B) y C) ++ ctx_dom c) →
  heights_ok (st_heap s) A → heights_ok (st_heap s) B → heights_ok (st_heap s) C →
  height (Node A x (Node B y C)) <= 127 →
  ∃ s', avl_rotate_right (Some y) s = Done tt s' ∧
        ctx_shape (st_heap s') c (Some x) par (st_root s') ∧
        shape (st_heap s') par (Some x) (Node A x (Node B y C)) ∧
        heights_ok (st_heap s') (Node A x (Node B y C)) ∧
        (∀ a, a ≠ x → a ≠ y →
           stored_height (st_heap s') (Some a) = stored_height (st_heap s) (Some a)).
Proof.
  intros Hc Ht Hnd HA HB HC Hbound.
  destruct (avl_rotate_right_spec s c par A x B y C Hc Ht Hnd)
    as (s' & Hrun & Hc' & Ht' & Hk & Hy & Hx).
  exists s'. split_and!; [done..| |done].
  pose proof Ht as (_ & ynd & _ & _ & _ & _ & Hsl & HsC)%shape_node_inv.
  pose proof Hsl as (_ & xnd & _ & _ & _ & _ & HsA & HsB)%shape_node_inv.
  rewrite (heights_ok_top _ _ _ _ HsB HB), (heights_ok_top _ _ _ _ HsC HC) in Hy.
  pose proof (height_nonneg A). pose proof (height_nonneg B).
  pose proof (height_nonneg C). simpl in Hbound.
  rewrite int8_id in Hy by lia.
  rewrite (heights_ok_top _ _ _ _ HsA HA), Hy in Hx.
  rewrite int8_id in Hx by lia.
  nodup_split.
  cbn [heights_ok height]. split_and!.
  - rewrite Hx. lia.
  - eapply heights_ok_ext; [|exact HA]. intros a Ha. apply Hk; mdiff.
  - rewrite Hy. lia.
  - eapply heights_ok_ext; [|exact HB]. intros a Ha. apply Hk; mdiff.
  - eapply heights_ok_ext; [|exact HC]. intros a Ha. apply Hk; mdiff.
Qed.

Lemma avl_rotate_left_settled s c par A x B y C :
  ctx_shape (st_heap s) c (Some x) par (st_root s) →
  shape (st_heap s) par (Some x) (Node A x (Node B y C)) →
  NoDup (inorder (Node A x (Node B y C)) ++ ctx_dom c) →
  heights_ok (st_heap s) A → heights_ok (st_heap s) B → heights_ok (st_heap s) C →
  height (Node (Node A x B) y C) <= 127 →
  ∃ s', avl_rotate_left (Some x) s = Done tt s' ∧
        ctx_shape (st_heap s') c (Some y) par (st_root s') ∧
        shape (st_heap s') par (Some y) (Node (Node A x B) y C) ∧
        heights_ok (st_heap s') (Node (Node A x B) y C) ∧
        (∀ a, a ≠ x → a ≠ y →
           stored_height (st_heap s') (Some a) = stored_height (st_heap s) (Some a)).
Proof.
  intros Hc Ht Hnd HA HB HC Hbound.
  destruct (avl_rotate_left_spec s c par A x B y C Hc Ht Hnd)
    as (s' & Hrun & Hc' & Ht' & Hk & Hx & Hy).
  exists s'. split_and!; [done..| |done].
  pose proof Ht as (_ & xnd & _ & _ & _ & _ & HsA & Hsr)%shape_node_inv.
  pose proof Hsr as (_ & ynd & _ & _ & _ & _ & HsB & HsC)%shape_node_inv.
  rewrite (heights_ok_top _ _ _ _ HsA HA), (heights_ok_top _ _ _ _ HsB HB) in Hx.
  pose proof (height_nonneg A). pose proof (height_nonneg B).
  pose proof (height_nonneg C). simpl in Hbound.
  rewrite int8_id in Hx by lia.
  rewrite (heights_ok_top _ _ _ _ HsC HC), Hx in Hy.
  rewrite int8_id in Hy by lia.
  nodup_split.
  cbn [heights_ok height]. split_and!.
  - rewrite Hy. lia.
  - rewrite Hx. lia.
  - eapply heights_ok_ext; [|exact HA]. intros a Ha. apply Hk; mdiff.
  - eapply heights_ok_ext; [|exact HB]. intros a Ha. apply Hk; mdiff.
  - eapply heights_ok_ext; [|exact HC]. intros a Ha. apply Hk; mdiff.
Qed.

Lemma ctx_shape_par h c p par rt : ctx_shape h c p par rt → par = ctx_par c.
Proof. destruct c as [|[g sib|sib g] c]; simpl; by intros [-> _]. Qed.

Lemma ctx_shape_left h c n par rt l r x :
  ctx_shape h c (Some n) par rt →
  shape h par (Some n) (Node l n r) → tree_top l = x →
  ctx_shape h (InLeft n r :: c) x (Some n) rt.
Proof.
  intros Hc (_ & nd & Hn & Hp & Hl & Hr) <-. simpl. split; [done|].
  exists nd. rewrite Hp. split_and!; [done | | done | done].
  by apply shape_top in Hl.
Qed.

Lemma ctx_shape_right h c n par rt l r x :
  ctx_shape h c (Some n) par rt →
  shape h par (Some n) (Node l n r) → tree_top r = x →
  ctx_shape h (InRight l n :: c) x (Some n) rt.
Proof.
  intros Hc (_ & nd & Hn & Hp & Hl & Hr) <-. simpl. split; [done|].
  exists nd. rewrite Hp. split_and!; [done | | done | done].
  by apply shape_top in Hr.
Qed.

(** Putting a rotated child back under its parent. *)
Lemma ctx_shape_left_inv h c n par rt r p t :
  ctx_par c = par →
  ctx_shape h (InLeft n r :: c) p (Some n) rt → shape h (Some n) p t →
  ctx_shape h c (Some n) par rt ∧ shape h par (Some n) (Node t n r).
Proof.
  intros Hpar (_ & nd & Hn & Hl & Hr & Hc) Ht.
  rewrite <- Hpar, <- (ctx_shape_par _ _ _ _ _ Hc). split; [done|].
  simpl. split; [done|]. exists nd. by rewrite Hl.
Qed.

Lemma ctx_shape_right_inv h c n par rt l p t :
  ctx_par c = par →
  ctx_shape h (InRight l n :: c) p (Some n) rt → shape h (Some n) p t →
  ctx_shape h c (Some n) par rt ∧ shape h par (Some n) (Node l n t).
Proof.
  intros Hpar (_ & nd & Hn & Hr & Hl & Hc) Ht.
  rewrite <- Hpar, <- (ctx_shape_par _ _ _ _ _ Hc). split; [done|].
  simpl. split; [done|]. exists nd. by rewrite Hr.
Qed.

(** The double rotations: left at the left child, then right at the node,
    and the mirror image. *)
Lemma avl_rotate_left_right_settled s c par A x B1 b B2 n C :
  ctx_shape (st_heap s) c (Some n) par (st_root s) →
  shape (st_heap s) par (Some n) (Node (Node A x (Node B1 b B2)) n C) →
  NoDup (inorder (Node (Node A x (Node B1 b B2)) n C) ++ ctx_dom c) →
  heights_ok (st_heap s) A → heights_ok (st_heap s) B1 →
  heights_ok (st_heap s) B2 → heights_ok (st_heap s) C →
  height (Node (Node A x B1) b B2) <= 127 →
  height (Node (Node A x B1) b (Node B2 n C)) <= 127 →
  ∃ s2 s3,
    avl_rotate_left (Some x) s = Done tt s2 ∧
    avl_rotate_right (Some n) s2 = Done tt s3 ∧
    ctx_shape (st_heap s3) c (Some b) par (st_root s3) ∧
    shape (st_heap s3) par (Some b) (Node (Node A x B1) b (Node B2 n C)) ∧
    heights_ok (st_heap s3) (Node (Node A x B1) b (Node B2 n C)) ∧
    (∀ a, a ≠ x → a ≠ b → a ≠ n →
       stored_height (st_heap s3) (Some a) = stored_height (st_heap s) (Some a)).
Proof.
  intros Hc Ht Hnd HA HB1 HB2 HC Hb1 Hb2.
  pose proof (ctx_shape_par _ _ _ _ _ Hc) as Hpar.
  pose proof Ht as (_ & nd & _ & _ & _ & _ & Hsl & HsC)%shape_node_inv.
  destruct (avl_rotate_left_settled s (InLeft n C :: c) (Some n) A x B1 b B2)
    as (s2 & Hrun2 & Hc2 & Ht2 & Hh2 & Hk2); [| done | | done.. |].
  { by eapply ctx_shape_left. }
  { nodup_perm Hnd. }
  destruct (ctx_shape_left_inv _ _ _ _ _ _ _ _ (eq_sym Hpar) Hc2 Ht2) as [Hc2' Ht2'].
  destruct Hh2 as (_ & Hh2l & Hh2r).
  destruct (avl_rotate_right_settled s2 c par (Node A x B1) b B2 n C)
    as (s3 & Hrun3 & Hc3 & Ht3 & Hh3 & Hk3); [done | done | | done | done | | done |].
  { nodup_perm Hnd. }
  { eapply heights_ok_ext; [|exact HC]. intros a Ha. nodup_split. apply Hk2; mdiff. }
  exists s2, s3. split_and!; [done..|].
  intros a Hax Hab Han. rewrite Hk3, Hk2; done.
Qed.

Lemma avl_rotate_right_left_settled s c par A n B1 b B2 y C :
  ctx_shape (st_heap s) c (Some n) par (st_root s) →
  shape (st_heap s) par (Some n) (Node A n (Node (Node B1 b B2) y C)) →
  NoDup (inorder (Node A n (Node (Node B1 b B2) y C)) ++ ctx_dom c) →
  heights_ok (st_heap s) A → heights_ok (st_heap s) B1 →
  heights_ok (st_heap s) B2 → heights_ok (st_heap s) C →
  height (Node B1 b (Node B2 y C)) <= 127 →
  height (Node (Node A n B1) b (Node B2 y C)) <= 127 →
  ∃ s2 s3,
    avl_rotate_right (Some y) s = Done tt s2 ∧
    avl_rotate_left (Some n) s2 = Done tt s3 ∧
    ctx_shape (st_heap s3) c (Some b) par (st_root s3) ∧
    shape (st_heap s3) par (Some b) (Node (Node A n B1) b (Node B2 y C)) ∧
    heights_ok (st_heap s3) (Node (Node A n B1) b (Node B2 y C)) ∧
    (∀ a, a ≠ y → a ≠ b → a ≠ n →
       stored_height (st_heap s3) (Some a) = stored_height (st_heap s) (Some a)).
Proof.
  intros Hc Ht Hnd HA HB1 HB2 HC Hb1 Hb2.
  pose proof (ctx_shape_par _ _ _ _ _ Hc) as Hpar.
  pose proof Ht as (_ & nd & _ & _ & _ & _ & HsA & Hsr)%shape_node_inv.
  destruct (avl_rotate_right_settled s (InRight A n :: c) (Some n) B1 b B2 y C)
    as (s2 & Hrun2 & Hc2 & Ht2 & Hh2 & Hk2); [| done | | done.. |].
  { by eapply ctx_shape_right. }
  { nodup_perm Hnd. }
  destruct (ctx_shape_right_inv _ _ _ _ _ _ _ _ (eq_sym Hpar) Hc2 Ht2) as [Hc2' Ht2'].
  destruct Hh2 as (_ & Hh2l & Hh2r).
  destruct (avl_rotate_left_settled s2 c par A n B1 b (Node B2 y C))
    as (s3 & Hrun3 & Hc3 & Ht3 & Hh3 & Hk3); [done | done | | | done | done | done |].
  { nodup_perm Hnd. }
  { eapply heights_ok_ext; [|exact HA]. intros a Ha. nodup_split. apply Hk2; mdiff. }
  exists s2, s3. split_and!; [done..|].
  intros a Hax Hab Han. rewrite Hk3, Hk2; done.
Qed.

Lemma avl_update_height_settled s c par l n r :
  ctx_shape (st_heap s) c (Some n) par (st_root s) →
  shape (st_heap s) par (Some n) (Node l n r) →
  NoDup (inorder (Node l n r) ++ ctx_dom c) →
  heights_ok (st_heap s) l → heights_ok (st_heap s) r →
  height (Node l n r) <= 127 →
  ∃ s', avl_update_height (Some n) s = Done tt s' ∧
        ctx_shape (st_heap s') c (Some n) par (st_root s') ∧
        shape (st_heap s') par (Some n) (Node l n r) ∧
        heights_ok (st_heap s') (Node l n r) ∧
        (∀ a, a ≠ n → st_heap s' !! a = st_heap s !! a).
Proof.
  intros Hc Ht Hnd Hl Hr Hb.
  pose proof Ht as (_ & nd & Hn & Hp & Hnl & Hnr & Hsl & Hsr)%shape_node_inv.
  eexists. split.
  { eapply avl_update_height_run; [exact Hn | | | reflexivity | reflexivity].
    - intros c0 Hc0. rewrite Hnl in Hc0. rewrite Hc0 in Hsl.
      by eapply shape_alloc.
    - intros c0 Hc0. rewrite Hnr in Hc0. rewrite Hc0 in Hsr.
      by eapply shape_alloc. }
  rewrite Hnl, Hnr.
  rewrite (heights_ok_top _ _ _ _ Hsl Hl), (heights_ok_top _ _ _ _ Hsr Hr).
  pose proof (height_nonneg l). pose proof (height_nonneg r).
  cbn [height] in Hb. rewrite int8_id by lia.
  cbn [st_heap st_root]. nodup_split.
  assert (∀ a, a ≠ n →
            <[n:=with_hgt (height l `max` height r + 1) nd]> (st_heap s) !! a
            = st_heap s !! a) as Hf.
  { intros a Ha. by rewrite lookup_insert_ne. }
  split_and!.
  - eapply ctx_shape_ext; [|exact Hc]. intros a Ha. apply Hf. mdiff.
  - simpl. split; [done|]. eexists. split; [apply lookup_insert_eq|].
    simpl. rewrite Hnl, Hnr. split_and!; [done | |].
    + eapply shape_ext; [|exact Hsl]. intros a Ha. apply Hf. mdiff.
    + eapply shape_ext; [|exact Hsr]. intros a Ha. apply Hf. mdiff.
  - cbn [heights_ok height]. split_and!.
    + rewrite stored_height_insert_eq. simpl. lia.
    + eapply heights_ok_ext; [|exact Hl]. intros a Ha.
      apply stored_height_insert_ne. mdiff.
    + eapply heights_ok_ext; [|exact Hr]. intros a Ha.
      apply stored_height_insert_ne. mdiff.
  - exact Hf.
Qed.

Lemma get_parent_shape s par p l n r :
  shape (st_heap s) par p (Node l n r) → get_parent (Some n) s = Done par s.
Proof.
  intros (_ & nd & Hn & Hp & _). rewrite <- Hp. by apply get_parent_run.
Qed.

Lemma ltb_true a b : a < b → (a <? b) = true.
Proof. apply Z.ltb_lt. Qed.

Lemma ltb_false a b : b <= a → (a <? b) = false.
Proof. apply Z.ltb_ge. Qed.

(** One iteration of the loop of [avl_rebalance] at [n], the topmost node of
    [l n r] whose children have correct heights: the code and the
    specification's wording of a visit agree; the subtree becomes
    [rebalance_node (l n r)] with correct heights; no node outside it changes
    its height; and [n]'s parent is then the promoted node if a rotation took
    place, its old parent otherwise. *)
Lemma avl_rebalance_body_spec s c par l n r :
  ctx_shape (st_heap s) c (Some n) par (st_root s) →
  shape (st_heap s) par (Some n) (Node l n r) →
  NoDup (inorder (Node l n r) ++ ctx_dom c) →
  heights_ok (st_heap s) l → heights_ok (st_heap s) r →
  height (Node l n r) <= 127 →
  ∃ s', avl_rebalance_body (Some n) s = Done tt s' ∧
        visit_spec (Some n) s = Done tt s' ∧
        ctx_shape (st_heap s') c (tree_top (rebalance_node (Node l n r))) par (st_root s') ∧
        shape (st_heap s') par (tree_top (rebalance_node (Node l n r)))
          (rebalance_node (Node l n r)) ∧
        heights_ok (st_heap s') (rebalance_node (Node l n r)) ∧
        (∀ a, a ∉ inorder (Node l n r) →
           stored_height (st_heap s') (Some a) = stored_height (st_heap s) (Some a)) ∧
        get_parent (Some n) s' =
          Done (if top_balanced (Node l n r) then par
                else tree_top (rebalance_node (Node l n r))) s'.
Proof.
  intros Hc Ht Hnd Hl Hr Hb.
  destruct (avl_update_height_settled s c par l n r)
    as (s1 & Hupd & Hc1 & Ht1 & (Hn1 & Hl1 & Hr1) & Hf1); [done..|].
  assert (Hk1 : ∀ a, a ≠ n →
            stored_height (st_heap s1) (Some a) = stored_height (st_heap s) (Some a)).
  { intros a Ha. unfold stored_height. by rewrite Hf1. }
  pose proof Ht1 as (_ & nd1 & Hnd1 & Hp1 & Hnl1 & Hnr1 & Hsl1 & Hsr1)%shape_node_inv.
  pose proof (balance_of_run s1 par l n r Ht1 Hl1 Hr1) as Hbal.
  assert (Hpre : ∀ k : Z → Z → M unit,
    (avl_update_height (Some n);;
     do l0 <- get_left (Some n); do hl <- avl_height l0;
     do r0 <- get_right (Some n); do hr <- avl_height r0; k hl hr) s
    = k (height l) (height r) s1).
  { intros k. rewrite (bind_Done _ _ _ _ _ Hupd).
    rewrite (bind_Done _ _ _ _ _ (get_left_run _ _ _ Hnd1)), Hnl1.
    rewrite (bind_Done _ _ _ _ _ (avl_height_run _ _ _ Hsl1 Hl1)).
    rewrite (bind_Done _ _ _ _ _ (get_right_run _ _ _ Hnd1)), Hnr1.
    by rewrite (bind_Done _ _ _ _ _ (avl_height_run _ _ _ Hsr1 Hr1)). }
  assert (Hpre' : ∀ k : Z → M unit,
    (avl_update_height (Some n);; do b <- balance_of (Some n); k b) s
    = k (height l - height r) s1).
  { intros k. rewrite (bind_Done _ _ _ _ _ Hupd).
    by rewrite (bind_Done _ _ _ _ _ Hbal). }
  pose proof (height_nonneg l) as Hl0. pose proof (height_nonneg r) as Hr0.
  cbn [height] in Hb.
  assert (Hi8 : int8 (height l - height r) = height l - height r)
    by (apply int8_id; lia).
  unfold avl_rebalance_body, visit_spec, top_balanced, rebalance_node.
  destruct (Z.ltb_spec 1 (height l - height r)) as [Hlt|Hge].
  - (* left-heavy *)
    destruct l as [|A x B]; [simpl in *; lia|].
    rewrite andb_false_intro2 by (apply Z.leb_gt; lia).
    pose proof Hsl1 as (_ & xnd & Hxnd & _ & HxA & HxB & HsA & HsB)%shape_node_inv.
    destruct Hl1 as (_ & HA1 & HB1).
    assert (Hgrand : ∀ k : ptr → Z → Z → M unit,
      (do l0 <- get_left (Some n); do ll <- get_left l0; do hll <- avl_height ll;
       do lr <- get_right l0; do hlr <- avl_height lr; k l0 hll hlr) s1
      = k (Some x) (height A) (height B) s1).
    { intros k.
      rewrite (bind_Done _ _ _ _ _ (get_left_run _ _ _ Hnd1)), Hnl1. cbn [tree_top].
      rewrite (bind_Done _ _ _ _ _ (get_left_run _ _ _ Hxnd)), HxA.
      rewrite (bind_Done _ _ _ _ _ (avl_height_run _ _ _ HsA HA1)).
      rewrite (bind_Done _ _ _ _ _ (get_right_run _ _ _ Hxnd)), HxB.
      by rewrite (bind_Done _ _ _ _ _ (avl_height_run _ _ _ HsB HB1)). }
    assert (Hgrand' : ∀ k : ptr → Z → M unit,
      (do l0 <- get_left (Some n); do bl <- balance_of l0; k l0 bl) s1
      = k (Some x) (height A - height B) s1).
    { intros k.
      rewrite (bind_Done _ _ _ _ _ (get_left_run _ _ _ Hnd1)), Hnl1. cbn [tree_top].
      by rewrite (bind_Done _ _ _ _ _ (balance_of_run _ _ _ _ _ Hsl1 HA1 HB1)). }
    pose proof (height_nonneg A). pose proof (height_nonneg B).
    cbn [height] in *.
    destruct (Z.ltb_spec (height A) (height B)) as [Hlt2|Hge2].
    + (* left-right *)
      destruct B as [|B1 b B2]; [simpl in *; lia|].
      destruct HB1 as (_ & HB11 & HB21).
      pose proof (height_nonneg B1). pose proof (height_nonneg B2).
      cbn [height] in *.
      destruct (avl_rotate_left_right_settled s1 c par A x B1 b B2 n r)
        as (s2 & s3 & Hrun2 & Hrun3 & Hc3 & Ht3 & Hh3 & Hk3);
        [done.. | cbn [height]; lia | cbn [height]; lia |].
      exists s3. cbn [rot_left rot_right tree_top]. split_and!.
      * rewrite Hpre. cbv zeta. rewrite Hi8, (ltb_true _ _ Hlt).
        rewrite Hgrand, (ltb_true _ _ Hlt2).
        by rewrite (bind_Done _ _ _ _ _ Hrun2).
      * rewrite Hpre', (ltb_true _ _ Hlt).
        rewrite Hgrand', (ltb_true (height A - _) 0) by lia.
        by rewrite (bind_Done _ _ _ _ _ Hrun2).
      * done.
      * done.
      * done.
      * intros a Ha. rewrite Hk3, Hk1; [done|..];
          intros ->; apply Ha; cbn [inorder]; in_solve.
      * pose proof Ht3 as (_ & bnd & _ & _ & _ & _ & _ & Hsn)%shape_node_inv.
        by eapply get_parent_shape.
    + (* left-left *)
      destruct (avl_rotate_right_settled s1 c par A x B n r)
        as (s2 & Hrun2 & Hc2 & Ht2 & Hh2 & Hk2);
        [done.. | cbn [height]; lia |].
      exists s2. cbn [rot_left rot_right tree_top]. split_and!.
      * rewrite Hpre. cbv zeta. rewrite Hi8, (ltb_true _ _ Hlt).
        rewrite Hgrand, (ltb_false _ _ Hge2).
        by rewrite (bind_Done _ _ _ _ _ (eq_refl : ret tt s1 = Done tt s1)).
      * rewrite Hpre', (ltb_true _ _ Hlt).
        rewrite Hgrand', (ltb_false (height A - _) 0) by lia.
        by rewrite (bind_Done _ _ _ _ _ (eq_refl : ret tt s1 = Done tt s1)).
      * done.
      * done.
      * done.
      * intros a Ha. rewrite Hk2, Hk1; [done|..];
          intros ->; apply Ha; cbn [inorder]; in_solve.
      * pose proof Ht2 as (_ & bnd & _ & _ & _ & _ & _ & Hsn)%shape_node_inv.
        by eapply get_parent_shape.
  - destruct (Z.ltb_spec (height l - height r) (-1)) as [Hlt|Hge'].
    + (* right-heavy *)
      destruct r as [|B y C]; [simpl in *; lia|].
      rewrite andb_false_intro1 by (apply Z.leb_gt; lia).
      pose proof Hsr1 as (_ & ynd & Hynd & _ & HyB & HyC & HsB & HsC)%shape_node_inv.
      destruct Hr1 as (_ & HB1 & HC1).
      assert (Hgrand : ∀ k : ptr → Z → Z → M unit,
        (do r0 <- get_right (Some n); do rr <- get_right r0; do hrr <- avl_height rr;
         do rl <- get_left r0; do hrl <- avl_height rl; k r0 hrr hrl) s1
        = k (Some y) (height C) (height B) s1).
      { intros k.
        rewrite (bind_Done _ _ _ _ _ (get_right_run _ _ _ Hnd1)), Hnr1. cbn [tree_top].
        rewrite (bind_Done _ _ _ _ _ (get_right_run _ _ _ Hynd)), HyC.
        rewrite (bind_Done _ _ _ _ _ (avl_height_run _ _ _ HsC HC1)).
        rewrite (bind_Done _ _ _ _ _ (get_left_run _ _ _ Hynd)), HyB.
        by rewrite (bind_Done _ _ _ _ _ (avl_height_run _ _ _ HsB HB1)). }
      assert (Hgrand' : ∀ k : ptr → Z → M unit,
        (do r0 <- get_right (Some n); do br <- balance_of r0; k r0 br) s1
        = k (Some y) (height B - height C) s1).
      { intros k.
        rewrite (bind_Done _ _ _ _ _ (get_right_run _ _ _ Hnd1)), Hnr1. cbn [tree_top].
        by rewrite (bind_Done _ _ _ _ _ (balance_of_run _ _ _ _ _ Hsr1 HB1 HC1)). }
      pose proof (height_nonneg B). pose proof (height_nonneg C).
      cbn [height] in *.
      destruct (Z.ltb_spec (height C) (height B)) as [Hlt2|Hge2].
      * (* right-left *)
        destruct B as [|B1 b B2]; [simpl in *; lia|].
        destruct HB1 as (_ & HB11 & HB21).
        pose proof (height_nonneg B1). pose proof (height_nonneg B2).
        cbn [height] in *.
        destruct (avl_rotate_right_left_settled s1 c par l n B1 b B2 y C)
          as (s2 & s3 & Hrun2 & Hrun3 & Hc3 & Ht3 & Hh3 & Hk3);
          [done.. | cbn [height]; lia | cbn [height]; lia |].
        exists s3. cbn [rot_left rot_right tree_top]. split_and!.
        -- rewrite Hpre. cbv zeta. rewrite Hi8, (ltb_false 1 _) by lia.
           rewrite (ltb_true _ _ Hlt).
           rewrite Hgrand, (ltb_true _ _ Hlt2).
           by rewrite (bind_Done _ _ _ _ _ Hrun2).
        -- rewrite Hpre', (ltb_false 1 _) by lia. rewrite (ltb_true _ _ Hlt).
           rewrite Hgrand', (ltb_true 0 _) by lia.
           by rewrite (bind_Done _ _ _ _ _ Hrun2).
        -- done.
        -- done.
        -- done.
        -- intros a Ha. rewrite Hk3, Hk1; [done|..];
             intros ->; apply Ha; cbn [inorder]; in_solve.
        -- pose proof Ht3 as (_ & bnd & _ & _ & _ & _ & Hsn & _)%shape_node_inv.
           by eapply get_parent_shape.
      * (* right-right *)
        destruct (avl_rotate_left_settled s1 c par l n B y C)
          as (s2 & Hrun2 & Hc2 & Ht2 & Hh2 & Hk2);
          [done.. | cbn [height]; lia |].
        exists s2. cbn [rot_left rot_right tree_top]. split_and!.
        -- rewrite Hpre. cbv zeta. rewrite Hi8, (ltb_false 1 _) by lia.
           rewrite (ltb_true _ _ Hlt).
           rewrite Hgrand, (ltb_false _ _ Hge2).
           by rewrite (bind_Done _ _ _ _ _ (eq_refl : ret tt s1 = Done tt s1)).
        -- rewrite Hpre', (ltb_false 1 _) by lia. rewrite (ltb_true _ _ Hlt).
           rewrite Hgrand', (ltb_false 0 _) by lia.
           by rewrite (bind_Done _ _ _ _ _ (eq_refl : ret tt s1 = Done tt s1)).
        -- done.
        -- done.
        -- done.
        -- intros a Ha. rewrite Hk2, Hk1; [done|..];
             intros ->; apply Ha; cbn [inorder]; in_solve.
        -- pose proof Ht2 as (_ & bnd & _ & _ & _ & _ & Hsn & _)%shape_node_inv.
           by eapply get_parent_shape.
    + (* balanced at the top *)
      rewrite andb_true_intro by (split; apply Z.leb_le; lia).
      exists s1. cbn [tree_top]. split_and!.
      * rewrite Hpre. cbv zeta. rewrite Hi8, (ltb_false 1 _) by lia.
        by rewrite (ltb_false _ (-1)) by lia.
      * rewrite Hpre', (ltb_false 1 _) by lia.
        by rewrite (ltb_false _ (-1)) by lia.
      * done.
      * done.
      * cbn [heights_ok height]. done.
      * intros a Ha. apply Hk1. intros ->. apply Ha. cbn [inorder]. in_solve.
      * by eapply get_parent_shape.
Qed.

(** * The rebalance walk *)

Lemma height_le_plug c t : height t <= height (plug c t).
Proof.
  revert t. induction c as [|[g sib|sib g] c IH]; intros t; simpl; [lia| |].
  - etrans; [|apply IH]. simpl. lia.
  - etrans; [|apply IH]. simpl. lia.
Qed.

Lemma height_plug_mono c t t' :
  height t' <= height t → height (plug c t') <= height (plug c t).
Proof.
  revert t t'. induction c as [|[g sib|sib g] c IH]; intros t t' Hle; simpl; [done| |].
  - apply IH. simpl. lia.
  - apply IH. simpl. lia.
Qed.

Lemma rebalance_node_top l a r : tree_top (rebalance_node (Node l a r)) ≠ None.
Proof.
  destruct (top_balanced (Node l a r)) eqn:Hb.
  - by rewrite rebalance_node_balanced_top.
  - by destruct (rebalance_node_progress l a r Hb).
Qed.

(** Each rotation lowers the subtree or leaves its top balanced, and each
    step to the parent shortens the context: [walk_fuel] decreases. *)
Lemma walk_fuel_rotate c l a r :
  top_balanced (Node l a r) = false →
  (walk_fuel c (rebalance_node (Node l a r)) < walk_fuel c (Node l a r))%nat.
Proof.
  intros Hb. destruct (rebalance_node_progress l a r Hb) as (_ & Hp).
  cbv zeta in Hp. unfold walk_fuel. rewrite Hb.
  pose proof (height_nonneg (rebalance_node (Node l a r))).
  pose proof (height_nonneg (Node l a r)).
  destruct Hp as [Hp|[Hp ->]]; [|lia].
  destruct (top_balanced (rebalance_node (Node l a r))); lia.
Qed.

Lemma walk_fuel_up f c t :
  top_balanced t = true → height (plug (f :: c) t) <= 127 →
  (walk_fuel c (fill f t) < walk_fuel (f :: c) t)%nat.
Proof.
  intros Hb Hh. unfold walk_fuel. rewrite Hb. simpl in Hh.
  pose proof (height_le_plug c (fill f t)).
  pose proof (height_nonneg (fill f t)). pose proof (height_nonneg t).
  cbn [length]. destruct (top_balanced (fill f t)); lia.
Qed.

(** More fuel does not change a run that ended. *)
Lemma avl_rebalance_fuel_mono fuel : ∀ fuel' n s,
  (fuel <= fuel')%nat →
  avl_rebalance fuel n s ≠ OutOfFuel →
  avl_rebalance fuel' n s = avl_rebalance fuel n s.
Proof.
  induction fuel as [|fuel IH]; intros fuel' [a|] s Hle; try (by destruct fuel').
  destruct fuel' as [|fuel']; [lia|]. simpl. unfold bind.
  destruct (avl_rebalance_body (Some a) s) as [[] s1| |]; [|done..].
  destruct (get_parent (Some a) s1) as [p s2| |]; [|done..].
  apply IH. lia.
Qed.

Lemma walk_inv_node s c l n r :
  walk_inv s c (Node l n r) →
  ctx_shape (st_heap s) c (Some n) (ctx_par c) (st_root s) ∧
  shape (st_heap s) (ctx_par c) (Some n) (Node l n r) ∧
  NoDup (inorder (Node l n r) ++ ctx_dom c) ∧
  heights_ok (st_heap s) l ∧ heights_ok (st_heap s) r ∧
  height (Node l n r) <= 127.
Proof.
  intros (Hc & Ht & Hnd & (Hl & Hr) & Hsib & Hb). split_and!; try done.
  etrans; [apply height_le_plug|exact Hb].
Qed.

Lemma shape_node h par a nd l r :
  h !! a = Some nd → avl_parent nd = par →
  shape h (Some a) (avl_left nd) l → shape h (Some a) (avl_right nd) r →
  shape h par (Some a) (Node l a r).
Proof. intros. simpl. split; [done|]. by exists nd. Qed.

Lemma siblings_ok_frame h h' t c :
  NoDup (inorder t ++ ctx_dom c) →
  (∀ a, a ∉ inorder t →
     stored_height h' (Some a) = stored_height h (Some a)) →
  Forall (λ f, heights_ok h (frame_sib f)) c →
  Forall (λ f, heights_ok h' (frame_sib f)) c.
Proof.
  intros Hnd Hk. induction c as [|f c IHc]; intros Hsib; [constructor|].
  apply Forall_cons in Hsib as [Hf Hsib]. cbn [ctx_dom] in Hnd.
  apply NoDup_app in Hnd as (H1 & Hd & H2). constructor.
  - eapply heights_ok_ext; [|exact Hf]. intros a Ha. apply Hk.
    intros Hin. apply (Hd a Hin). in_solve.
  - apply IHc; [|done]. apply NoDup_app. split_and!.
    + done.
    + intros a Ha Hin. apply (Hd a Ha). in_solve.
    + apply NoDup_cons in H2 as (_ & H2). by apply NoDup_app in H2 as (_ & _ & H2).
Qed.

Section walk.
(** A property of the walker's position that every visit and every step to
    the parent preserve; it rides along the walk. *)
Variable P : ctx → tree → Prop.
Hypothesis P_rotate : ∀ c t, P c t → P c (rebalance_node t).
Hypothesis P_up : ∀ f c t, P (f :: c) t → top_balanced t = true → P c (fill f t).

(** The whole loop, by induction on the fuel: it returns, its run is a
    [rebalance_walk] through all ancestors, and the memory then holds a tree
    with correct heights and the same in-order sequence. *)
Lemma avl_rebalance_walk : ∀ (fuel : nat) c l n r s,
  (walk_fuel c (Node l n r) < fuel)%nat →
  walk_inv s c (Node l n r) → P c (Node l n r) →
  ∃ s' T' vs,
    avl_rebalance fuel (Some n) s = Done tt s' ∧
    rebalance_walk s (Some n) vs s' ∧
    sublist (n :: map frame_addr c) vs ∧
    tree_in s' T' ∧ heights_ok (st_heap s') T' ∧
    inorder T' = inorder (plug c (Node l n r)) ∧
    P [] T' ∧ top_balanced T' = true.
Proof.
  induction fuel as [|fuel IH]; intros c l n r s Hfuel Hinv HP; [lia|].
  pose proof (walk_inv_node _ _ _ _ _ Hinv) as (Hc & Ht & Hnd & Hl & Hr & Hb).
  destruct Hinv as (_ & _ & _ & _ & Hsib & Hbound).
  destruct (avl_rebalance_body_spec s c (ctx_par c) l n r Hc Ht Hnd Hl Hr Hb)
    as (s1 & Hfix & Hvisit & Hc1 & Ht1 & Hh1 & Hk1 & Hpar1).
  assert (Hsib1 : Forall (λ f, heights_ok (st_heap s1) (frame_sib f)) c).
  { by eapply siblings_ok_frame. }
  simpl. rewrite (bind_Done _ _ _ _ _ Hfix), (bind_Done _ _ _ _ _ Hpar1).
  destruct (top_balanced (Node l n r)) eqn:Hbal.
  - (* no rotation: move to the parent *)
    rewrite (rebalance_node_balanced_top _ Hbal) in *. cbn [tree_top] in *.
    destruct c as [|f c].
    + (* the root: the walk ends *)
      exists s1, (Node l n r), [n]. split_and!.
      * by destruct fuel.
      * eapply rebalance_walk_visit; [done..|]. constructor.
      * done.
      * split; [|by rewrite app_nil_r in Hnd].
        destruct Hc1 as (_ & ->). done.
      * done.
      * done.
      * done.
      * done.
    + (* an ancestor *)
      assert (Hinv' : walk_inv s1 c (fill f (Node l n r))).
      { apply Forall_cons in Hsib1 as [Hf1 Hsib1].
        destruct f as [g' sib'|sib' g']; cbn [frame_addr frame_sib fill] in *; subst;
          destruct Hc1 as (_ & gnd & Hgnd & Hgl & Hgs & Hcc);
          pose proof (ctx_shape_par _ _ _ _ _ Hcc) as Hgp.
        - split_and!; [by rewrite <- Hgp | | nodup_perm Hnd | done..].
          cbn [tree_top]. eapply shape_node; [done.. | by rewrite Hgl | done].
        - split_and!; [by rewrite <- Hgp | | nodup_perm Hnd | done..].
          cbn [tree_top]. eapply shape_node; [done.. | by rewrite Hgl]. }
      pose proof (walk_fuel_up f c (Node l n r) Hbal Hbound) as Hfu.
      pose proof (P_up _ _ _ HP Hbal) as HP'.
      assert (∃ s' T' vs,
        avl_rebalance fuel (Some (frame_addr f)) s1 = Done tt s' ∧
        rebalance_walk s1 (Some (frame_addr f)) vs s' ∧
        sublist (frame_addr f :: map frame_addr c) vs ∧
        tree_in s' T' ∧ heights_ok (st_heap s') T' ∧
        inorder T' = inorder (plug c (fill f (Node l n r))) ∧
        P [] T' ∧ top_balanced T' = true)
        as (s' & T' & vs & Hrun & Hwalk & Hsub & HT' & HhT' & Hin & HPT & HbT).
      { destruct f as [g sib|sib g]; cbn [fill frame_addr] in *;
          (apply IH; [lia | done | done]). }
      exists s', T', (n :: vs). split_and!; try done.
      * eapply rebalance_walk_visit; [done..|]. done.
      * by apply sublist_skip.
  - (* a rotation: the promoted node is visited next *)
    pose proof (rebalance_node_top l n r) as Htop.
    pose proof (rebalance_node_inorder (Node l n r)) as Hino.
    pose proof (walk_fuel_rotate c l n r Hbal) as Hfu.
    pose proof (rebalance_node_height_le (Node l n r)) as Hle.
    pose proof (P_rotate _ _ HP) as HP'.
    destruct (rebalance_node (Node l n r)) as [|l' m r'] eqn:Hreb; [done|].
    cbn [tree_top] in *.
    destruct (IH c l' m r' s1) as (s' & T' & vs & Hrun & Hwalk & Hsub & HT' & HhT' & Hin & HPT & HbT).
    { lia. }
    { split_and!; [done | done | by rewrite Hino | by destruct Hh1 as (_ & ? & ?) | done |].
      etrans; [|exact Hbound]. by apply height_plug_mono. }
    { done. }
    exists s', T', (n :: vs). split_and!; try done.
    * eapply rebalance_walk_visit; [done..|]. done.
    * apply sublist_skip. etrans; [|exact Hsub]. by apply sublist_cons.
    * rewrite Hin. by apply inorder_plug_ext.
Qed.
End walk.

(** * The walk restores the AVL balance *)

Lemma top_balanced_spec l a r :
  top_balanced (Node l a r) = true ↔ -1 <= height l - height r <= 1.
Proof.
  unfold top_balanced. rewrite andb_true_iff, !Z.leb_le. done.
Qed.

Lemma avl_walk_inv_rotate c t : avl_walk_inv c t → avl_walk_inv c (rebalance_node t).
Proof.
  destruct t as [|l n r]; [done|].
  intros (Hl & Hr & Hd & H & Hc & HH).
  destruct (rebalance_node_balanced l n r Hl Hr Hd) as (Hbal & Hbd & _).
  pose proof (rebalance_node_top l n r) as Htop.
  destruct (rebalance_node (Node l n r)) as [|l' m r'] eqn:Hreb; [done|].
  destruct Hbal as (Hd' & Hl' & Hr').
  split; [done|]. split; [done|]. split; [lia|].
  exists H. split; [done|].
  rewrite rebalance_node_balanced_top; [done|]. by apply top_balanced_spec.
Qed.

Lemma avl_walk_inv_up f c t :
  avl_walk_inv (f :: c) t → top_balanced t = true → avl_walk_inv c (fill f t).
Proof.
  destruct t as [|l n r]; [done|].
  intros (Hl & Hr & Hd & H & (Hs & Hds & Hc) & HH) Hb.
  rewrite (rebalance_node_balanced_top _ Hb) in HH.
  assert (balanced (Node l n r)) as Ht.
  { simpl. split; [|done]. by apply top_balanced_spec in Hb. }
  set (t := Node l n r) in *.
  destruct f as [g sib|sib g]; cbn [fill frame_sib] in *.
  - destruct (rebalance_node_balanced t g sib Ht Hs ltac:(lia)) as (_ & Hbd & Heq).
    split; [done|]. split; [done|]. split; [lia|].
    exists (1 + Z.max H (height sib)). split; [done|].
    destruct (decide (-1 <= height t - height sib <= 1)) as [Hin|Hout].
    + rewrite (Heq Hin). lia.
    + lia.
  - destruct (rebalance_node_balanced sib g t Hs Ht ltac:(lia)) as (_ & Hbd & Heq).
    split; [done|]. split; [done|]. split; [lia|].
    exists (1 + Z.max H (height sib)). split; [done|].
    destruct (decide (-1 <= height sib - height t <= 1)) as [Hin|Hout].
    + rewrite (Heq Hin). lia.
    + lia.
Qed.

Lemma avl_walk_inv_done T :
  avl_walk_inv [] T → top_balanced T = true → balanced T.
Proof.
  destruct T as [|l n r]; [done|].
  intros (Hl & Hr & _) Hb. simpl. split; [|done]. by apply top_balanced_spec in Hb.
Qed.

(** The walker returns from any position that satisfies [walk_inv]. *)
Lemma avl_rebalance_total s c l n r :
  walk_inv s c (Node l n r) →
  ∃ s' T' vs,
    (∀ fuel : nat, (walk_fuel c (Node l n r) < fuel)%nat →
       avl_rebalance fuel (Some n) s = Done tt s') ∧
    rebalance_walk s (Some n) vs s' ∧
    sublist (n :: map frame_addr c) vs ∧
    tree_in s' T' ∧ heights_ok (st_heap s') T' ∧
    inorder T' = inorder (plug c (Node l n r)).
Proof.
  intros Hinv.
  destruct (avl_rebalance_walk (λ _ _, True) ltac:(done) ltac:(done)
              (S (walk_fuel c (Node l n r))) c l n r s ltac:(lia) Hinv I)
    as (s' & T' & vs & Hrun & Hwalk & Hsub & HT & Hh & Hin & _).
  exists s', T', vs. split_and!; try done.
  intros fuel Hfuel. rewrite <- Hrun.
  apply avl_rebalance_fuel_mono; [lia|]. by rewrite Hrun.
Qed.

(** If moreover the position is the one left by an insertion or a removal
    in an AVL-balanced tree (under the condition [Q]), the result is
    AVL-balanced (under [Q]). *)
Lemma avl_rebalance_restores (Q : Prop) s c l n r :
  walk_inv s c (Node l n r) → (Q → avl_walk_inv c (Node l n r)) →
  ∃ s' T',
    (∀ fuel : nat, (walk_fuel c (Node l n r) < fuel)%nat →
       avl_rebalance fuel (Some n) s = Done tt s') ∧
    tree_in s' T' ∧ heights_ok (st_heap s') T' ∧ (Q → balanced T') ∧
    inorder T' = inorder (plug c (Node l n r)).
Proof.
  intros Hinv Havl.
  destruct (avl_rebalance_walk (λ c t, Q → avl_walk_inv c t)
              (λ c t H q, avl_walk_inv_rotate c t (H q))
              (λ f c t H Hb q, avl_walk_inv_up f c t (H q) Hb)
              (S (walk_fuel c (Node l n r))) c l n r s ltac:(lia) Hinv Havl)
    as (s' & T' & vs & Hrun & Hwalk & Hsub & HT & Hh & Hin & HP & Hb).
  exists s', T'. split_and!; [|done|done| |done].
  - intros fuel Hfuel. rewrite <- Hrun.
    apply avl_rebalance_fuel_mono; [lia|]. by rewrite Hrun.
  - intros q. by apply avl_walk_inv_done; [apply HP|].
Qed.

Lemma ancestors_null fuel h : ancestors fuel h None = [].
Proof. by destruct fuel. Qed.

(** The chain of parent links of the topmost node of the hole is the list
    of the context's nodes and ends at the root. *)
Lemma ancestors_ctx h rt : ∀ c n nd,
  h !! n = Some nd → ctx_shape h c (Some n) (avl_parent nd) rt →
  ancestors (S (length c)) h (Some n) = n :: map frame_addr c ∧
  last (n :: map frame_addr c) = rt ∧
  ∀ k, sublist (ancestors k h (Some n)) (n :: map frame_addr c).
Proof.
  induction c as [|f c IH]; intros n nd Hn Hc.
  - destruct Hc as [Hp ->]. simpl. rewrite Hn. split_and!; [done..|].
    intros [|k]; simpl; [apply sublist_nil_l|].
    rewrite Hn, Hp, ancestors_null. done.
  - assert (∃ gnd, avl_parent nd = Some (frame_addr f) ∧
                   h !! frame_addr f = Some gnd ∧
                   ctx_shape h c (Some (frame_addr f)) (avl_parent gnd) rt)
      as (gnd & Hp & Hg & Hcc).
    { destruct f as [g sib|sib g]; destruct Hc as (Hp & gnd & Hg & _ & _ & Hcc);
        by exists gnd. }
    destruct (IH _ _ Hg Hcc) as (Heq & Hlast & Hsub).
    split_and!.
    + cbn [length map]. change (ancestors (S (S (length c))) h (Some n))
        with (n :: match h !! n with
                   | Some nd => ancestors (S (length c)) h (avl_parent nd)
                   | None => []
                   end).
      by rewrite Hn, Hp, Heq.
    + cbn [map]. rewrite <- Hlast. done.
    + intros [|k]; [apply sublist_nil_l|].
      change (ancestors (S k) h (Some n))
        with (n :: match h !! n with
                   | Some nd => ancestors k h (avl_parent nd)
                   | None => []
                   end).
      rewrite Hn, Hp. cbn [map]. apply sublist_skip, Hsub.
Qed.

(** C3: called at a node [n] of a well-formed tree whose subtrees off the
    path to the root carry correct heights, the walker returns; its run is a
    sequence of visits, each one doing what the specification says of a
    visit (recompute the height, take the balance, rotate left at the left
    child exactly when that child's balance is negative and then right at
    the node, or the mirror image) and then moving to the parent the node has
    after the visit; it stops only at a null parent; and the visited nodes
    [vs] contain, in order, every node of the chain of parent links that led
    from [n] to the root when the walker was called. *)
Theorem rebalance_visits_all_ancestors s c l n r :
  walk_inv s c (Node l n r) →
  ∃ s' vs,
    (∀ fuel : nat, (walk_fuel c (Node l n r) < fuel)%nat →
       avl_rebalance fuel (Some n) s = Done tt s') ∧
    rebalance_walk s (Some n) vs s' ∧
    (∀ k, sublist (ancestors k (st_heap s) (Some n)) vs) ∧
    last (ancestors (S (length c)) (st_heap s) (Some n)) = st_root s.
Proof.
  intros Hinv.
  destruct (avl_rebalance_total s c l n r Hinv) as (s' & T' & vs & H1 & H2 & H3 & _).
  pose proof (walk_inv_node _ _ _ _ _ Hinv) as (Hc & Ht & _).
  destruct Ht as (_ & nd & Hn & Hp & _). rewrite <- Hp in Hc.
  destruct (ancestors_ctx _ _ _ _ _ Hn Hc) as (Heq & Hlast & Hsub).
  exists s', vs. split_and!; [done | done | |].
  - intros k. etrans; [apply Hsub | exact H3].
  - by rewrite Heq.
Qed.

(** C9: under the height-correctness invariant the walker never dereferences
    a null or unallocated pointer, whatever the fuel; and at the visited node
    a balance above 1 means the left child is there with height at least 2,
    with a right child of its own whenever the left rotation at it is
    chosen; symmetrically for a balance below -1. *)
Theorem rebalance_never_faults s c l n r nd :
  walk_inv s c (Node l n r) → st_heap s !! n = Some nd →
  let h := st_heap s in
  let balance := int8 (stored_height h (avl_left nd) - stored_height h (avl_right nd)) in
  (∀ (fuel : nat) f, avl_rebalance fuel (Some n) s ≠ Fault f) ∧
  (1 < balance →
   ∃ x xnd, avl_left nd = Some x ∧ h !! x = Some xnd ∧ 2 <= avl_hgt xnd ∧
     (stored_height h (avl_left xnd) < stored_height h (avl_right xnd) →
      is_Some (avl_right xnd))) ∧
  (balance < -1 →
   ∃ y ynd, avl_right nd = Some y ∧ h !! y = Some ynd ∧ 2 <= avl_hgt ynd ∧
     (stored_height h (avl_right ynd) < stored_height h (avl_left ynd) →
      is_Some (avl_left ynd))).
Proof.
  intros Hinv Hnd h balance.
  pose proof (walk_inv_node _ _ _ _ _ Hinv) as (Hc & Ht & Hdup & Hl & Hr & Hb).
  pose proof Ht as (_ & nd' & Hnd' & Hp & Hnl & Hnr & Hsl & Hsr)%shape_node_inv.
  rewrite Hnd in Hnd'. injection Hnd' as <-.
  assert (balance = height l - height r) as Hbal.
  { unfold balance, h. rewrite Hnl, Hnr.
    rewrite (heights_ok_top _ _ _ _ Hsl Hl), (heights_ok_top _ _ _ _ Hsr Hr).
    pose proof (height_nonneg l). pose proof (height_nonneg r).
    cbn [height] in Hb. apply int8_id. lia. }
  rewrite Hbal. clear Hbal balance.
  pose proof (height_nonneg l). pose proof (height_nonneg r).
  split_and!.
  - intros fuel f Hf.
    destruct (avl_rebalance_total s c l n r Hinv) as (s' & T' & vs & Hrun & _).
    set (big := (fuel + S (walk_fuel c (Node l n r)))%nat).
    assert (avl_rebalance big (Some n) s = avl_rebalance fuel (Some n) s) as Heq.
    { apply avl_rebalance_fuel_mono; [lia|]. by rewrite Hf. }
    rewrite Hrun, Hf in Heq; [done|lia].
  - intros Hlt. destruct l as [|A x B]; [simpl in *; lia|].
    pose proof Hsl as (_ & xnd & Hx & _ & HxA & HxB & HsA & HsB)%shape_node_inv.
    destruct Hl as (Hhx & HA & HB).
    exists x, xnd. split_and!; [done | done | |].
    + unfold stored_height in Hhx. unfold h in *. rewrite Hx in Hhx. lia.
    + unfold h. rewrite HxA, HxB.
      rewrite (heights_ok_top _ _ _ _ HsA HA), (heights_ok_top _ _ _ _ HsB HB).
      intros Hlt2. destruct B; [|by eexists].
      pose proof (height_nonneg A). simpl in *. lia.
  - intros Hlt. destruct r as [|B y C]; [simpl in *; lia|].
    pose proof Hsr as (_ & ynd & Hy & _ & HyB & HyC & HsB & HsC)%shape_node_inv.
    destruct Hr as (Hhy & HB & HC).
    exists y, ynd. split_and!; [done | done | |].
    + unfold stored_height in Hhy. unfold h in *. rewrite Hy in Hhy. lia.
    + unfold h. rewrite HyB, HyC.
      rewrite (heights_ok_top _ _ _ _ HsB HB), (heights_ok_top _ _ _ _ HsC HC).
      intros Hlt2. destruct B; [|by eexists].
      pose proof (height_nonneg C). simpl in *. lia.
Qed.

(** * Erasing a node with at most one child *)

Lemma heights_ok_plug_inv h c t :
  heights_ok h (plug c t) →
  heights_ok h t ∧ Forall (λ f, heights_ok h (frame_sib f)) c.
Proof.
  revert t. induction c as [|[g sib|sib g] c IH]; intros t; simpl.
  - by split.
  - intros (( _ & Ht & Hs) & Hc)%IH. split; [done|]. by constructor.
  - intros (( _ & Hs & Ht) & Hc)%IH. split; [done|]. by constructor.
Qed.

Lemma balanced_plug_inv c t :
  balanced (plug c t) → balanced t ∧ ctx_balanced c (height t).
Proof.
  revert t. induction c as [|[g sib|sib g] c IH]; intros t; simpl.
  - by split.
  - intros ((Hd & Ht & Hs) & Hc)%IH. simpl in Hc. done.
  - intros ((Hd & Hs & Ht) & Hc)%IH. simpl in Hc.
    rewrite Z.max_comm in Hc. split; [done|]. split_and!; [done|lia|lia|done].
Qed.

Lemma inorder_plug_split c :
  ∃ l1 l2, ∀ t, inorder (plug c t) = l1 ++ inorder t ++ l2.
Proof.
  induction c as [|[g sib|sib g] c (l1 & l2 & IH)].
  - exists [], []. intros t. simpl. by rewrite app_nil_r.
  - exists l1, (g :: inorder sib ++ l2). intros t. simpl. rewrite IH. simpl.
    by rewrite <- !app_assoc.
  - exists (l1 ++ inorder sib ++ [g]), l2. intros t. simpl. rewrite IH. simpl.
    rewrite <- !app_assoc. simpl. done.
Qed.

Lemma walk_inv_up s f c t :
  ctx_shape (st_heap s) (f :: c) (tree_top t) (Some (frame_addr f)) (st_root s) →
  shape (st_heap s) (Some (frame_addr f)) (tree_top t) t →
  NoDup (inorder t ++ ctx_dom (f :: c)) →
  heights_ok (st_heap s) t →
  Forall (λ f, heights_ok (st_heap s) (frame_sib f)) (f :: c) →
  height (plug (f :: c) t) <= 127 →
  walk_inv s c (fill f t).
Proof.
  intros Hc Ht Hnd Hh [Hf Hsib]%Forall_cons Hb.
  destruct f as [g sib|sib g]; cbn [frame_addr frame_sib fill] in *;
    destruct Hc as (_ & gnd & Hgnd & Hgl & Hgs & Hcc);
    pose proof (ctx_shape_par _ _ _ _ _ Hcc) as Hgp.
  - split_and!; [by rewrite <- Hgp | | nodup_perm Hnd | done..].
    cbn [tree_top]. eapply shape_node; [done.. | by rewrite Hgl | done].
  - split_and!; [by rewrite <- Hgp | | nodup_perm Hnd | done..].
    cbn [tree_top]. eapply shape_node; [done.. | by rewrite Hgl].
Qed.

(** The splice of [avl_erase] for a node with at most one child, up to the
    call of [avl_rebalance]. *)
Lemma avl_erase_splice s c par l n r :
  ctx_shape (st_heap s) c (Some n) par (st_root s) →
  shape (st_heap s) par (Some n) (Node l n r) →
  NoDup (inorder (Node l n r) ++ ctx_dom c) →
  l = Leaf ∨ r = Leaf →
  let tc := match l with Leaf => r | _ => l end in
  ∃ s1, (∀ fuel, avl_erase fuel (Some n) s = avl_rebalance fuel par s1) ∧
        ctx_shape (st_heap s1) c (tree_top tc) par (st_root s1) ∧
        shape (st_heap s1) par (tree_top tc) tc ∧
        (∀ a, stored_height (st_heap s1) (Some a) = stored_height (st_heap s) (Some a)).
Proof.
  destruct s as [rt h]. cbn [st_heap st_root].
  intros Hc (_ & [np nl nr nh] & Hn & Hnp & Hl & Hr) Hnd Hleaf.
  cbn [avl_parent avl_left avl_right] in *. subst np.
  assert ((l = Leaf ∧ r = Leaf) ∨ (∃ cl ch cr, l = Node cl ch cr ∧ r = Leaf)
          ∨ (∃ cl ch cr, l = Leaf ∧ r = Node cl ch cr)) as Hcases.
  { destruct l, r; destruct Hleaf; try done; naive_solver. }
  destruct Hcases as [[-> ->]|[(cl & ch & cr & -> & ->)|(cl & ch & cr & -> & ->)]];
    cbn [shape] in Hl, Hr;
    [ subst nl nr
    | subst nr; destruct Hl as (-> & [chp chl chr chh] & Hch & Hchp & Hcl & Hcr);
      cbn [avl_parent avl_left avl_right] in *; subst
    | subst nl; destruct Hr as (-> & [chp chl chr chh] & Hch & Hchp & Hcl & Hcr);
      cbn [avl_parent avl_left avl_right] in *; subst ];
    (destruct c as [|[g sib|sib g] c]; cbn [ctx_shape] in Hc;
     [ destruct Hc as [-> ->]
     | destruct Hc as (-> & [gp gl gr gh] & Hg & Hgl & Hsib & Hc);
       cbn [avl_parent avl_left avl_right] in *; subst
     | destruct Hc as (-> & [gp gl gr gh] & Hg & Hgl & Hsib & Hc);
       cbn [avl_parent avl_left avl_right] in *; subst ]);
    nodup_split;
    (eexists; split;
     [ intros fuel; unfold avl_erase; mrun; try (mbool; mrun); reflexivity | ]);
    cbn [tree_top];
    (split; [ first [ done | mnode; msub ] | ]);
    (split; [ first [ done | mnode; msub ] | ]);
    mhframe.
Qed.

Lemma avl_walk_inv_after_erase f c l n r :
  l = Leaf ∨ r = Leaf →
  balanced (plug (f :: c) (Node l n r)) →
  avl_walk_inv c (fill f (match l with Leaf => r | _ => l end)).
Proof.
  intros Hleaf (Ht & Hs & Hd & Hc)%balanced_plug_inv.
  set (tc := match l with Leaf => r | _ => l end).
  assert (balanced tc ∧ height (Node l n r) = 1 + height tc) as [Htc Hh].
  { destruct Ht as (Hd' & Hl & Hr). pose proof (height_nonneg l).
    pose proof (height_nonneg r).
    destruct Hleaf as [->| ->]; subst tc; [simpl in *; split; [done|lia]|].
    destruct l; simpl in *; split; (done || lia). }
  clearbody tc. rewrite Hh in *. clear Hh Ht Hleaf.
  destruct f as [g sib|sib g]; cbn [fill frame_sib] in *.
  - destruct (rebalance_node_balanced tc g sib Htc Hs ltac:(lia)) as (_ & Hbd & Heq).
    split; [done|]. split; [done|]. split; [lia|].
    exists (1 + Z.max (1 + height tc) (height sib)). split; [done|].
    destruct (decide (-1 <= height tc - height sib <= 1)) as [Hin|Hout].
    + rewrite (Heq Hin). lia.
    + lia.
  - destruct (rebalance_node_balanced sib g tc Hs Htc ltac:(lia)) as (_ & Hbd & Heq).
    split; [done|]. split; [done|]. split; [lia|].
    exists (1 + Z.max (1 + height tc) (height sib)). split; [done|].
    destruct (decide (-1 <= height sib - height tc <= 1)) as [Hin|Hout].
    + rewrite (Heq Hin). lia.
    + lia.
Qed.

Lemma avl_rebalance_null fuel s : avl_rebalance fuel None s = Done tt s.
Proof. by destruct fuel. Qed.

(** C5: erasing a node [n] that has at most one child, in a well-formed tree
    whose stored heights are correct and fit the height field: the slot that
    held [n] (a child field of its parent, or the root cell) is set to the
    sole child of [n], or to null; that child's parent field is set to the
    former parent of [n]; the rebalance walk then runs from the former
    parent; the call returns, and the memory then holds a well-formed tree
    with correct heights (AVL-balanced if the tree was) whose in-order
    sequence is the old one without [n], so that [n] is no longer reachable
    from the root. *)
Theorem erase_splices_node s T n nd :
  tree_in s T → heights_ok (st_heap s) T → height T <= 127 →
  n ∈ inorder T → st_heap s !! n = Some nd →
  avl_left nd = None ∨ avl_right nd = None →
  let child := match avl_left nd with
               | Some _ => avl_left nd
               | None => avl_right nd
               end in
  ∃ s1 s' T' l1 l2,
    slot_redirected s s1 (avl_parent nd) n child ∧
    (∀ ch, child = Some ch →
       ∃ chnd, st_heap s1 !! ch = Some chnd ∧ avl_parent chnd = avl_parent nd) ∧
    (∀ fuel, avl_erase fuel (Some n) s = avl_rebalance fuel (avl_parent nd) s1) ∧
    (∀ fuel : nat, (256 * length (inorder T) <= fuel)%nat →
       avl_erase fuel (Some n) s = Done tt s') ∧
    tree_in s' T' ∧ heights_ok (st_heap s') T' ∧ (balanced T → balanced T') ∧
    inorder T = l1 ++ n :: l2 ∧ inorder T' = l1 ++ l2 ∧ n ∉ inorder T'.
Proof.
  intros HT Hh Hbound Hn Hnd Hone child.
  destruct (tree_in_focus s T n HT Hn) as (c & l & r & par & -> & Hc & Ht & Hdup).
  pose proof Ht as (_ & nd' & Hnd' & Hpar & Hnl & Hnr & Hsl & Hsr)%shape_node_inv.
  rewrite Hnd in Hnd'. injection Hnd' as <-.
  assert (l = Leaf ∨ r = Leaf) as Hleaf.
  { rewrite Hnl, Hnr in Hone. destruct Hone as [H|H]; [left|right];
      by destruct l, r. }
  set (tc := match l with Leaf => r | _ => l end).
  assert (child = tree_top tc) as Hchild.
  { unfold child, tc. rewrite Hnl, Hnr. by destruct l. }
  destruct (avl_erase_splice s c par l n r Hc Ht Hdup Hleaf)
    as (s1 & Hsplice & Hc1 & Ht1 & Hk1). fold tc in Hc1, Ht1.
  destruct (heights_ok_plug_inv _ _ _ Hh) as ((_ & Hhl & Hhr) & Hsib).
  assert (heights_ok (st_heap s1) tc) as Hh1.
  { eapply heights_ok_ext; [intros a _; apply Hk1|]. unfold tc. by destruct l. }
  assert (Forall (λ f, heights_ok (st_heap s1) (frame_sib f)) c) as Hsib1.
  { eapply Forall_impl; [exact Hsib|]. intros f Hf.
    eapply heights_ok_ext; [intros a _; apply Hk1|done]. }
  assert (height tc <= height (Node l n r)) as Hle.
  { pose proof (height_nonneg l). pose proof (height_nonneg r).
    unfold tc. destruct l; simpl; lia. }
  assert (NoDup (inorder tc ++ ctx_dom c)) as Hdup1.
  { unfold tc. destruct Hleaf as [->| ->].
    - simpl in Hdup. by apply NoDup_cons in Hdup as [_ ?].
    - destruct l as [|ll x lr]; [simpl in *; by apply NoDup_cons in Hdup as [_ ?]|].
      cbn [inorder] in Hdup. rewrite <- app_assoc in Hdup.
      apply NoDup_app in Hdup as (H1 & Hd & H2).
      simpl in H2. apply NoDup_cons in H2 as [_ H2].
      apply NoDup_app. split_and!; [done| |done].
      intros a Ha Hin. apply (Hd a Ha). in_solve. }
  destruct (inorder_plug_split c) as (k1 & k2 & Hsplit).
  assert (inorder (Node l n r) = inorder l ++ n :: inorder r ∧
          inorder tc = inorder l ++ inorder r) as [Hio Hio'].
  { split; [done|]. unfold tc. destruct Hleaf as [->| ->]; [done|].
    destruct l; simpl; by rewrite ?app_nil_r. }
  assert (∀ T', inorder T' = inorder (plug c tc) →
            inorder (plug c (Node l n r)) = (k1 ++ inorder l) ++ n :: (inorder r ++ k2) ∧
            inorder T' = (k1 ++ inorder l) ++ (inorder r ++ k2) ∧ n ∉ inorder T') as Hlists.
  { intros T' HT'. rewrite HT', !Hsplit, Hio, Hio'.
    split; [by rewrite <- !app_assoc|]. split; [by rewrite <- !app_assoc|].
    intros Hin. destruct HT as [_ Hnodup].
    rewrite Hsplit, Hio in Hnodup.
    assert (k1 ++ (inorder l ++ n :: inorder r) ++ k2
            ≡ₚ n :: k1 ++ (inorder l ++ inorder r) ++ k2) as Hp by solve_Permutation.
    rewrite Hp in Hnodup. by apply NoDup_cons in Hnodup as [? _]. }
  assert (slot_redirected s s1 (avl_parent nd) n child) as Hslot.
  { rewrite Hchild, Hpar. by eapply ctx_slot_redirected. }
  assert (∀ ch, child = Some ch →
            ∃ chnd, st_heap s1 !! ch = Some chnd ∧ avl_parent chnd = avl_parent nd) as Hback.
  { intros ch Hch. rewrite Hchild in Hch. rewrite Hpar.
    destruct tc as [|cl ch' cr]; [done|]. injection Hch as ->.
    destruct Ht1 as (_ & chnd & ? & ? & _). by exists chnd. }
  destruct c as [|f c].
  - (* [n] was the root *)
    destruct Hc1 as (Hp1 & Hrt1).
    exists s1, s1, tc, (k1 ++ inorder l), (inorder r ++ k2).
    destruct (Hlists tc eq_refl) as (? & ? & ?).
    split_and!; [done | done | by rewrite Hpar | | | done | | done..].
    + intros fuel _. rewrite Hsplice, Hp1. apply avl_rebalance_null.
    + split; [by rewrite Hrt1, <- Hp1 | by rewrite app_nil_r in Hdup1].
    + intros Hbal. simpl in Hbal. destruct Hbal as (_ & ? & ?). unfold tc.
      by destruct l.
  - (* the walk starts at the parent *)
    pose proof (ctx_shape_par _ _ _ _ _ Hc1) as Hpar1. cbn [ctx_par] in Hpar1.
    rewrite Hpar1 in Hc1, Ht1.
    assert (walk_inv s1 c (fill f tc)) as Hinv.
    { apply walk_inv_up; [done..|].
      etrans; [|exact Hbound]. by apply height_plug_mono. }
    pose proof (avl_walk_inv_after_erase f c l n r Hleaf) as Havl. fold tc in Havl.
    assert (∃ s' T',
      (∀ fuel : nat, (walk_fuel c (fill f tc) < fuel)%nat →
         avl_rebalance fuel (Some (frame_addr f)) s1 = Done tt s') ∧
      tree_in s' T' ∧ heights_ok (st_heap s') T' ∧
      (balanced (plug (f :: c) (Node l n r)) → balanced T') ∧
      inorder T' = inorder (plug c (fill f tc)))
      as (s' & T' & Hrun & HT' & HhT' & HbT' & Hin').
    { destruct f as [g sib|sib g]; cbn [fill frame_addr] in *;
        by apply avl_rebalance_restores. }
    exists s1, s', T', (k1 ++ inorder l), (inorder r ++ k2).
    destruct (Hlists T' Hin') as (? & ? & ?).
    split_and!; [done | done | by rewrite Hpar | | done..].
    intros fuel Hfuel. rewrite Hsplice, Hpar1. apply Hrun.
    unfold walk_fuel.
    assert (height (fill f tc) <= 127) as Hf127.
    { destruct Hinv as (_ & _ & _ & _ & _ & Hb'). etrans; [apply height_le_plug|exact Hb']. }
    pose proof (height_nonneg (fill f tc)).
    assert (length (f :: c) <= length (inorder (plug (f :: c) (Node l n r))))%nat as Hlen.
    { rewrite inorder_plug_perm, length_app. pose proof (ctx_length_dom (f :: c)). lia. }
    cbn [length] in Hlen.
    destruct (top_balanced (fill f tc)); lia.
Qed.

(** * Linking a new node *)

Lemma height_plug_succ c t t' :
  height t' <= height t + 1 → height (plug c t') <= height (plug c t) + 1.
Proof.
  revert t t'. induction c as [|[g sib|sib g] c IH]; intros t t' Hle; simpl; [done| |].
  - apply IH. simpl. lia.
  - apply IH. simpl. lia.
Qed.

(** [avl_link_node] at the empty slot of the context [c]. *)
Lemma avl_link_node_spec s c a nd0 (left : bool) :
  ctx_shape (st_heap s) c None (ctx_par c) (st_root s) →
  NoDup (a :: ctx_dom c) →
  st_heap s !! a = Some nd0 →
  (c ≠ [] → left = ctx_side c) →
  ∃ s1, avl_link_node (Some a) (ctx_par c) left s = Done tt s1 ∧
        ctx_shape (st_heap s1) c (Some a) (ctx_par c) (st_root s1) ∧
        shape (st_heap s1) (ctx_par c) (Some a) (Node Leaf a Leaf) ∧
        stored_height (st_heap s1) (Some a) = 1 ∧
        (∀ k, k ≠ a →
           stored_height (st_heap s1) (Some k) = stored_height (st_heap s) (Some k)) ∧
        get_parent (Some a) s1 = Done (ctx_par c) s1.
Proof.
  destruct s as [rt h]. cbn [st_heap st_root].
  intros Hc Hnd Ha Hleft.
  destruct nd0 as [p0 l0 r0 h0].
  destruct c as [|[g sib|sib g] c]; cbn [ctx_shape ctx_par frame_addr] in *;
    [ destruct Hc as [_ ->]
    | destruct Hc as (_ & [gp gl gr gh] & Hg & Hgl & Hsib & Hc);
      cbn [avl_parent avl_left avl_right] in *; subst;
      rewrite (Hleft ltac:(done)); cbn [ctx_side]
    | destruct Hc as (_ & [gp gl gr gh] & Hg & Hgl & Hsib & Hc);
      cbn [avl_parent avl_left avl_right] in *; subst;
      rewrite (Hleft ltac:(done)); cbn [ctx_side] ];
    nodup_split;
    (eexists; split; [ unfold avl_link_node; mrun; reflexivity | ]);
    (split; [ first [ done | mnode; msub ] | ]);
    (split; [ mnode; reflexivity | ]);
    (split; [ mhgt | ]);
    (split; [ mhframe | ]);
    mrun; reflexivity.
Qed.

Lemma avl_walk_inv_after_insert f c a :
  balanced (plug (f :: c) Leaf) →
  avl_walk_inv c (fill f (Node Leaf a Leaf)).
Proof.
  intros (_ & Hs & Hd & Hc)%balanced_plug_inv. cbn [height] in *.
  assert (balanced (Node Leaf a Leaf)) as Ht by (simpl; lia).
  pose proof (height_nonneg (frame_sib f)).
  destruct f as [g sib|sib g]; cbn [fill frame_sib] in *.
  - destruct (rebalance_node_balanced (Node Leaf a Leaf) g sib Ht Hs ltac:(simpl; lia))
      as (_ & Hbd & Heq).
    split; [done|]. split; [done|]. split; [simpl; lia|].
    exists (1 + Z.max 0 (height sib)). split; [done|].
    rewrite Heq by (simpl; lia). simpl. lia.
  - destruct (rebalance_node_balanced sib g (Node Leaf a Leaf) Hs Ht ltac:(simpl; lia))
      as (_ & Hbd & Heq).
    split; [done|]. split; [done|]. split; [simpl; lia|].
    exists (1 + Z.max 0 (height sib)). split; [done|].
    rewrite Heq by (simpl; lia). simpl. lia.
Qed.

(** Linking a fresh node [a] into the empty slot that the context [c] leads
    to, and rebalancing (one visit per level above the slot is enough
    fuel). *)
Lemma avl_link_insert_spec s c a nd0 (left : bool) :
  tree_in s (plug c Leaf) → heights_ok (st_heap s) (plug c Leaf) →
  height (plug c Leaf) <= 126 →
  st_heap s !! a = Some nd0 → a ∉ inorder (plug c Leaf) →
  (c ≠ [] → left = ctx_side c) →
  ∃ s' T',
    (∀ fuel : nat, (256 * length c <= fuel)%nat →
       (avl_link_node (Some a) (ctx_par c) left;;
        avl_insert_color fuel (Some a)) s = Done tt s') ∧
    tree_in s' T' ∧ heights_ok (st_heap s') T' ∧
    (balanced (plug c Leaf) → balanced T') ∧
    inorder T' = inorder (plug c (Node Leaf a Leaf)).
Proof.
  intros [HT Hnodup] Hh Hbound Ha Hfresh Hleft.
  destruct (shape_plug_inv _ _ _ _ HT) as (p & par & Hc & Hp). simpl in Hp. subst p.
  pose proof (ctx_shape_par _ _ _ _ _ Hc) as ->.
  assert (NoDup (a :: ctx_dom c)) as Hdup.
  { rewrite inorder_plug_perm in Hnodup, Hfresh. simpl in *.
    by apply NoDup_cons. }
  destruct (avl_link_node_spec s c a nd0 left Hc Hdup Ha Hleft)
    as (s1 & Hlink & Hc1 & Ht1 & Hha & Hk1 & Hpar1).
  destruct (heights_ok_plug_inv _ _ _ Hh) as (_ & Hsib).
  assert (Forall (λ f, heights_ok (st_heap s1) (frame_sib f)) c) as Hsib1.
  { eapply (siblings_ok_frame _ _ (Node Leaf a Leaf)); [done| |done].
    intros k Hk. apply Hk1. intros ->. apply Hk. simpl. by left. }
  assert (heights_ok (st_heap s1) (Node Leaf a Leaf)) as Hh1 by (by simpl).
  assert (∀ fuel k,
    (avl_link_node (Some a) (ctx_par c) left;; avl_insert_color fuel (Some a)) s
    = Done tt k ↔ avl_rebalance fuel (ctx_par c) s1 = Done tt k) as Hrunk.
  { intros fuel k. rewrite (bind_Done _ _ _ _ _ Hlink). unfold avl_insert_color.
    by rewrite (bind_Done _ _ _ _ _ Hpar1). }
  destruct c as [|f c].
  - exists s1, (Node Leaf a Leaf).
    split_and!; [ | | done | | done].
    + intros fuel _. apply Hrunk. apply avl_rebalance_null.
    + destruct Hc1 as [_ Hrt]. split; [by rewrite Hrt | simpl; compute_done || (repeat constructor; by intros ?%elem_of_nil)].
    + intros _. simpl. lia.
  - cbn [ctx_par] in *.
    assert (walk_inv s1 c (fill f (Node Leaf a Leaf))) as Hinv.
    { apply walk_inv_up; [done..|].
      etrans; [apply (height_plug_succ _ Leaf); simpl; lia|]. lia. }
    assert (∃ s' T',
      (∀ fuel : nat, (walk_fuel c (fill f (Node Leaf a Leaf)) < fuel)%nat →
         avl_rebalance fuel (Some (frame_addr f)) s1 = Done tt s') ∧
      tree_in s' T' ∧ heights_ok (st_heap s') T' ∧
      (balanced (plug (f :: c) Leaf) → balanced T') ∧
      inorder T' = inorder (plug c (fill f (Node Leaf a Leaf))))
      as (s' & T' & Hrun & HT' & HhT' & HbT' & Hin').
    { pose proof (avl_walk_inv_after_insert f c a) as Havl.
      destruct f as [g sib|sib g]; cbn [fill frame_addr] in *;
        by apply avl_rebalance_restores. }
    exists s', T'.
    split_and!; [|done..].
    intros fuel Hfuel. apply Hrunk, Hrun.
    unfold walk_fuel.
    assert (height (fill f (Node Leaf a Leaf)) <= 127) as Hf127.
    { destruct Hinv as (_ & _ & _ & _ & _ & Hb'). etrans; [apply height_le_plug|exact Hb']. }
    pose proof (height_nonneg (fill f (Node Leaf a Leaf))).
    cbn [length] in Hfuel.
    destruct (top_balanced (fill f (Node Leaf a Leaf))); lia.
Qed.

(** * Scenarios *)

(** C6: inserting 50, 20, 70, 10, 30, 60, 80, 25, 35 into the empty tree and
    traversing with [avl_first] and [avl_next] yields the keys in increasing
    order. *)
Theorem scenario_A_inorder :
  inorder_after_inserts 64 [50; 20; 70; 10; 30; 60; 80; 25; 35]
  = Some [10; 20; 25; 30; 35; 50; 60; 70; 80].
Proof. vm_compute. reflexivity. Qed.

(** C7: inserting 1, 2, 3, 4, 5 in increasing order gives a tree of height
    3, both as stored at the root and as recomputed from the shape; the root
    is the node of key 2, so the walker did rotate. *)
Theorem scenario_C_height :
  match insert_keys 64 [1; 2; 3; 4; 5] 1%positive ∅ empty_tree with
  | Done keys s =>
    stored_height (st_heap s) (st_root s) <= 3 ∧
    (∃ t, reify 8 (st_heap s) (st_root s) = Some t ∧ height t <= 3) ∧
    key_of keys (st_root s) s = Done 2 s
  | _ => False
  end.
Proof.
  vm_compute. split; [discriminate|]. split; [|reflexivity].
  eexists. split; [reflexivity|]. vm_compute. discriminate.
Qed.

(** A shape in the heap is the tree that [reify] reads off. *)
Lemma reify_shape_unique fuel h : ∀ p par t0 T,
  reify fuel h p = Some t0 → shape h par p T → T = t0.
Proof.
  induction fuel as [|fuel IH]; intros p par t0 T Hre Hs.
  - destruct p as [a|]; [done|]. injection Hre as <-.
    destruct T; [done|]. by destruct Hs.
  - destruct p as [a|].
    + simpl in Hre. destruct (h !! a) as [nd|] eqn:Ha; [|done].
      destruct (reify fuel h (avl_left nd)) as [l|] eqn:Hl; [|done].
      destruct (reify fuel h (avl_right nd)) as [r|] eqn:Hr; [|done].
      injection Hre as <-.
      destruct T as [|l' a' r']; [done|].
      destruct Hs as ([= <-] & nd' & Ha' & _ & Hsl & Hsr).
      rewrite Ha in Ha'. injection Ha' as <-.
      by rewrite (IH _ _ _ _ Hl Hsl), (IH _ _ _ _ Hr Hsr).
    + injection Hre as <-. destruct T; [done|]. by destruct Hs.
Qed.

(** C1 fails on the code: after eight insertions the invariant holds; then
    erasing key 30, a node with two children, leaves the node of key 50
    (address 1) in the tree with a left subtree of height 2 and no right
    child, and the node of key 30 still in place: the memory holds no AVL
    tree any more. *)
Theorem erase_two_children_breaks_balance :
  match insert_keys 64 [50; 30; 70; 20; 40; 60; 10; 35] 1%positive ∅ empty_tree with
  | Done keys s =>
    avl_invariant_b 16 s = true ∧
    match erase_key 64 keys 30 s with
    | Done _ s' =>
      avl_invariant_b 16 s' = false ∧
      reify 16 (st_heap s') (st_root s') =
        Some (Node (Node (Node Leaf 7 Leaf) 4 Leaf) 2
                (Node (Node (Node Leaf 8 Leaf) 5 Leaf) 1 Leaf))%positive ∧
      print_inorder 64 keys s' = Done [10; 20; 30; 35; 40; 50] s' ∧
      ¬ ∃ T, avl_tree_in s' T
    | _ => False
    end
  | _ => False
  end.
Proof.
  destruct (insert_keys _ _ _ _ _) as [keys s| |] eqn:E1;
    vm_compute in E1; [|discriminate..].
  injection E1 as <- <-. split; [vm_compute; reflexivity|].
  destruct (erase_key _ _ _ _) as [[] s'| |] eqn:E2;
    vm_compute in E2; [|discriminate..].
  injection E2 as <-.
  match goal with
  | |- _ ∧ reify 16 ?h ?r = Some ?t ∧ _ =>
    assert (reify 16 h r = Some t) as Hre by (vm_compute; reflexivity)
  end.
  split; [vm_compute; reflexivity|]. split; [exact Hre|].
  split; [vm_compute; reflexivity|].
  intros (T & (Hs & _) & _ & Hb).
  rewrite (reify_shape_unique _ _ _ _ _ _ Hre Hs) in Hb.
  simpl in Hb. lia.
Qed.

(** The deletions of [main], on the tree of scenario A: the round for key
    20, a node with two children, leaves that node linked, as the left child
    of the new root, and then frees it; the loop goes on to read the freed
    node.  The specification expects the loop to end with the keys 10, 30,
    35, 50, 60, 80 in the tree. *)
Theorem scenario_B_use_after_free :
  match insert_keys 64 [50; 20; 70; 10; 30; 60; 80; 25; 35] 1%positive ∅ empty_tree with
  | Done keys s =>
    match delete_key 64 keys 20 s with
    | Done _ s' =>
      st_root s' = Some 5%positive ∧
      avl_left <$> st_heap s' !! 5%positive = Some (Some 2%positive) ∧
      st_heap s' !! 2%positive = None
    | _ => False
    end ∧
    delete_keys 64 keys [20; 70; 25] s = Fault BadAddr
  | _ => False
  end.
Proof. vm_compute. repeat split. Qed.

(** C2 fails on the code: erasing the root of the three-node tree (keys 2,
    1, 3), which has two children, sets the root cell to null and writes
    nothing else: the successor is still the right child of the erased node,
    and the tree is now empty. *)
Theorem erase_root_two_children_empties_tree :
  match insert_keys 64 [2; 1; 3] 1%positive ∅ empty_tree with
  | Done keys s =>
    reify 4 (st_heap s) (st_root s) = Some example_tree ∧
    match avl_erase 64 (Some 1%positive) s with
    | Done _ s' => st_root s' = None ∧ st_heap s' = st_heap s
    | _ => False
    end
  | _ => False
  end.
Proof. vm_compute. repeat split. Qed.

(** * The three-node example *)

Lemma example_tree_in : tree_in example_state example_tree.
Proof.
  split.
  - repeat (first [ reflexivity | split | eexists ]).
  - simpl. compute_done.
Qed.

Lemma example_avl_tree_in : avl_tree_in example_state example_tree.
Proof.
  split; [apply example_tree_in|]. split.
  - vm_compute. repeat split.
  - vm_compute. repeat split; discriminate.
Qed.

(** * Instances on the three-node example *)

Lemma traversal_read_only_witness :
  avl_first 4 example_state = Done (Some 2%positive) example_state ∧
  example_state = example_state.
Proof.
  split; [vm_compute; reflexivity|].
  apply (traversal_read_only 4 None example_state (Some 2%positive) example_state).
  left. vm_compute. reflexivity.
Defined.

Lemma traversal_follows_links_witness :
  tree_in example_state example_tree ∧
  ∃ r, avl_next 3 (Some 2%positive) example_state = Done r example_state ∧
       up_walk (st_heap example_state) 2%positive r.
Proof.
  split; [apply example_tree_in|].
  destruct (traversal_follows_links example_state example_tree example_tree_in)
    as [_ Hnext].
  destruct (Hnext 3%nat 2%positive (mk_node (Some 1%positive) None None 1))
    as (r & Hrun & Hw); [simpl; lia | simpl; compute_done | reflexivity |].
  exists r. split; [exact Hrun | exact Hw].
Defined.

Lemma rotation_keeps_inorder_witness :
  tree_in example_state example_tree ∧
  ∃ s' T', avl_rotate_right (Some 1%positive) example_state = Done tt s' ∧
           tree_in s' T' ∧ inorder T' = inorder example_tree.
Proof.
  split; [apply example_tree_in|].
  destruct (rotation_keeps_inorder example_state example_tree 1%positive
              (mk_node None (Some 2%positive) (Some 3%positive) 2) 2%positive
              example_tree_in) as [Hr _];
    [simpl; compute_done | reflexivity |].
  destruct (Hr eq_refl) as (s' & T' & cnd & H1 & H2 & H3 & _).
  exists s', T'. split; [exact H1|]. split; [exact H2 | exact H3].
Defined.

Lemma erase_splices_node_witness :
  avl_tree_in example_state example_tree ∧
  ∃ s' T', avl_erase 768 (Some 2%positive) example_state = Done tt s' ∧
           avl_tree_in s' T' ∧ 2%positive ∉ inorder T'.
Proof.
  split; [apply example_avl_tree_in|].
  destruct example_avl_tree_in as (Hin & Hh & Hbal).
  destruct (erase_splices_node example_state example_tree 2%positive
              (mk_node (Some 1%positive) None None 1) Hin Hh)
    as (s1 & s' & T' & l1 & l2 & _ & _ & _ & Hrun & HT' & HhT' & HbT' & _ & _ & Hn);
    [vm_compute; discriminate | simpl; compute_done | reflexivity | by left |].
  exists s', T'. split; [|split; [|exact Hn]].
  - apply Hrun. vm_compute. lia.
  - split; [exact HT'|]. split; [exact HhT' | exact (HbT' Hbal)].
Defined.

(** * The traversal and the in-order sequence *)

Lemma inorder_plug c t :
  inorder (plug c t) = ctx_before c ++ inorder t ++ ctx_after c.
Proof.
  revert t. induction c as [|[g sib|sib g] c IH]; intros t; simpl.
  - by rewrite app_nil_r.
  - rewrite IH. simpl. by rewrite <- !app_assoc.
  - rewrite IH. simpl. by rewrite <- !app_assoc.
Qed.

Lemma nodup_split_unique {A} (x : A) l1 l2 k1 k2 :
  NoDup (l1 ++ x :: l2) → l1 ++ x :: l2 = k1 ++ x :: k2 → l1 = k1 ∧ l2 = k2.
Proof.
  revert k1. induction l1 as [|y l1 IH]; intros [|z k1] Hnd Heq; simpl in *.
  - by injection Heq as ->.
  - injection Heq as <- ->. apply NoDup_cons in Hnd as [Hx _].
    exfalso. apply Hx. apply elem_of_app. right. by left.
  - injection Heq as -> <-. apply NoDup_cons in Hnd as [Hx _].
    exfalso. apply Hx. apply elem_of_app. right. by left.
  - injection Heq as -> Heq. apply NoDup_cons in Hnd as [_ Hnd].
    destruct (IH k1 Hnd Heq) as [-> ->]. done.
Qed.

Lemma head_inorder_node l a r :
  head (inorder (Node l a r))
  = match l with Leaf => Some a | _ => head (inorder l) end.
Proof.
  destruct l as [|ll b lr]; [done|]. simpl.
  destruct (inorder ll); done.
Qed.

(** [avl_subtree_min] returns the first node of the in-order sequence of the
    subtree it is called on. *)
Lemma avl_subtree_min_head s t : ∀ par p (fuel : nat),
  shape (st_heap s) par p t → (length (inorder t) <= fuel)%nat →
  avl_subtree_min fuel p s = Done (head (inorder t)) s.
Proof.
  induction t as [|l IHl a r _]; intros par p fuel.
  - simpl. intros -> _. by destruct fuel.
  - intros (-> & nd & Ha & _ & Hl & _) Hfuel.
    rewrite head_inorder_node.
    simpl in Hfuel. rewrite length_app in Hfuel. simpl in Hfuel.
    destruct l as [|ll b lr].
    + simpl in Hl.
      destruct fuel; simpl; rewrite (bind_Done _ _ _ _ _ (get_left_run _ _ _ Ha));
        by rewrite Hl.
    + pose proof Hl as [Hlb _].
      destruct fuel as [|fuel]; [lia|].
      simpl avl_subtree_min.
      rewrite (bind_Done _ _ _ _ _ (get_left_run _ _ _ Ha)). rewrite Hlb.
      rewrite <- Hlb. apply (IHl (Some a)); [done|lia].
Qed.

(** The ascent of [avl_next] returns the first node after the hole of the
    context it climbs. *)
Lemma avl_next_up_head s : ∀ c n nd (fuel : nat),
  st_heap s !! n = Some nd →
  ctx_shape (st_heap s) c (Some n) (avl_parent nd) (st_root s) →
  NoDup (n :: ctx_dom c) → (length c <= fuel)%nat →
  avl_next_up fuel (Some n) s = Done (head (ctx_after c)) s.
Proof.
  induction c as [|[g sib|sib g] c IH]; intros n nd fuel Hn Hc Hdup Hfuel.
  - destruct Hc as [Hp _].
    destruct fuel; simpl; rewrite (bind_Done _ _ _ _ _ (get_parent_run _ _ _ Hn));
      by rewrite Hp.
  - destruct Hc as (Hp & gnd & Hg & Hl & Hs & Hc).
    assert (ptr_eqb (Some n) (avl_right gnd) = false) as Hne.
    { unfold ptr_eqb. apply bool_decide_eq_false_2. nodup_split. mdiff. }
    destruct fuel; simpl; rewrite (bind_Done _ _ _ _ _ (get_parent_run _ _ _ Hn));
      rewrite Hp; rewrite (bind_Done _ _ _ _ _ (get_right_run _ _ _ Hg));
      by rewrite Hne.
  - destruct Hc as (Hp & gnd & Hg & Hr & Hs & Hc).
    simpl in Hfuel. destruct fuel as [|fuel]; [lia|].
    simpl. rewrite (bind_Done _ _ _ _ _ (get_parent_run _ _ _ Hn)).
    rewrite Hp. rewrite (bind_Done _ _ _ _ _ (get_right_run _ _ _ Hg)).
    unfold ptr_eqb. rewrite Hr, bool_decide_eq_true_2 by done.
    apply (IH g gnd fuel Hg Hc); [|lia].
    nodup_split. apply NoDup_cons. split; [|done].
    intros Hin. nd_false.
Qed.

Lemma avl_next_focus s c l n r par (fuel : nat) :
  ctx_shape (st_heap s) c (Some n) par (st_root s) →
  shape (st_heap s) par (Some n) (Node l n r) →
  NoDup (inorder (Node l n r) ++ ctx_dom c) →
  (length (inorder (plug c (Node l n r))) <= fuel)%nat →
  avl_next fuel (Some n) s = Done (head (inorder r ++ ctx_after c)) s.
Proof.
  intros Hc Ht Hdup Hfuel.
  pose proof Ht as (_ & nd & Hnd & Hpar & Hl & Hr).
  rewrite inorder_plug_perm, length_app in Hfuel. simpl in Hfuel.
  rewrite length_app in Hfuel. simpl in Hfuel.
  unfold avl_next. rewrite (bind_Done _ _ _ _ _ (get_right_run _ _ _ Hnd)).
  destruct r as [|rl b rr].
  - simpl in Hr. rewrite Hr. simpl. subst par.
    apply (avl_next_up_head s c n nd fuel Hnd Hc).
    + simpl in Hdup. apply NoDup_app in Hdup as (Ht' & Hd & Hcd).
      apply NoDup_cons. split; [|done]. intros Hin. apply (Hd n); [|done].
      in_solve.
    + pose proof (ctx_length_dom c). lia.
  - pose proof Hr as [Hrb _]. rewrite Hrb.
    rewrite <- Hrb.
    rewrite (avl_subtree_min_head s _ _ _ fuel Hr) by lia.
    f_equal. simpl. by destruct (inorder rl).
Qed.

Lemma avl_first_head s T (fuel : nat) :
  tree_in s T → (length (inorder T) <= fuel)%nat →
  avl_first fuel s = Done (head (inorder T)) s.
Proof.
  intros [Hs _] Hfuel. unfold avl_first, bind, get_root.
  by eapply avl_subtree_min_head.
Qed.

(** X1: [avl_first] returns the first node of the in-order sequence of the tree,
    and null when the tree is empty. *)
Theorem avl_first_is_inorder_head s T (fuel : nat) :
  tree_in s T → (length (inorder T) <= fuel)%nat →
  avl_first fuel s = Done (head (inorder T)) s.
Proof.
  intros [Hs _] Hfuel. unfold avl_first, bind, get_root.
  by eapply avl_subtree_min_head.
Qed.

Lemma avl_next_successor s T l1 n l2 (fuel : nat) :
  tree_in s T → inorder T = l1 ++ n :: l2 →
  (length (inorder T) <= fuel)%nat →
  avl_next fuel (Some n) s = Done (head l2) s.
Proof.
  intros HT Hin Hfuel.
  assert (n ∈ inorder T) as Hn.
  { rewrite Hin. apply elem_of_app. right. by left. }
  destruct (tree_in_focus s T n HT Hn) as (c & l & r & par & -> & Hc & Ht & Hdup).
  rewrite (avl_next_focus s c l n r par fuel Hc Ht Hdup Hfuel).
  destruct HT as [_ Hnd]. rewrite Hin in Hnd.
  rewrite inorder_plug in Hin. simpl in Hin.
  rewrite <- app_assoc in Hin. simpl in Hin. rewrite app_assoc in Hin.
  symmetry in Hin.
  destruct (nodup_split_unique n l1 l2 _ _ Hnd Hin) as [_ ->]. done.
Qed.

(** X2: in a well-formed tree whose in-order sequence is [l1 ++ n :: l2],
    [avl_next] at [n] returns the first node of [l2], the in-order
    successor of [n], and null when [n] is the last node. *)
Theorem avl_next_is_inorder_successor s T l1 n l2 (fuel : nat) :
  tree_in s T → inorder T = l1 ++ n :: l2 →
  (length (inorder T) <= fuel)%nat →
  avl_next fuel (Some n) s = Done (head l2) s.
Proof.
  intros HT Hin Hfuel.
  assert (n ∈ inorder T) as Hn.
  { rewrite Hin. apply elem_of_app. right. by left. }
  destruct (tree_in_focus s T n HT Hn) as (c & l & r & par & -> & Hc & Ht & Hdup).
  rewrite (avl_next_focus s c l n r par fuel Hc Ht Hdup Hfuel).
  destruct HT as [_ Hnd]. rewrite Hin in Hnd.
  rewrite inorder_plug in Hin. simpl in Hin.
  rewrite <- app_assoc in Hin. simpl in Hin. rewrite app_assoc in Hin.
  symmetry in Hin.
  destruct (nodup_split_unique n l1 l2 _ _ Hnd Hin) as [_ ->]. done.
Qed.

Lemma key_of_run keys a s :
  is_Some (keys !! a) → key_of keys (Some a) s = Done (key_at keys a) s.
Proof. intros [k Hk]. unfold key_of, key_at. by rewrite Hk. Qed.

Lemma inorder_from_suffix s T keys (inner : nat) :
  tree_in s T → Forall (λ a, is_Some (keys !! a)) (inorder T) →
  (length (inorder T) <= inner)%nat →
  ∀ l2 l1 (fuel : nat), inorder T = l1 ++ l2 → (length l2 <= fuel)%nat →
    inorder_from fuel inner keys (head l2) s = Done ((key_at keys <$> l2)) s.
Proof.
  intros HT Hkeys Hinner.
  induction l2 as [|n l2 IH]; intros l1 fuel Hin Hfuel.
  - by destruct fuel.
  - simpl in Hfuel. destruct fuel as [|fuel]; [lia|].
    cbn [head inorder_from].
    assert (is_Some (keys !! n)) as Hk.
    { rewrite Forall_forall in Hkeys. apply Hkeys. rewrite Hin.
      apply elem_of_app. right. by left. }
    rewrite (bind_Done _ _ _ _ _ (key_of_run keys n s Hk)).
    rewrite (bind_Done _ _ _ _ _ (avl_next_successor s T l1 n l2 inner HT Hin Hinner)).
    rewrite (bind_Done _ _ _ _ _ (IH (l1 ++ [n]) fuel ltac:(by rewrite <- app_assoc) ltac:(lia))).
    done.
Qed.

Lemma print_inorder_keys s T keys (fuel : nat) :
  tree_in s T → Forall (λ a, is_Some (keys !! a)) (inorder T) →
  (length (inorder T) <= fuel)%nat →
  print_inorder fuel keys s = Done ((key_at keys <$> inorder T)) s.
Proof.
  intros HT Hkeys Hfuel. unfold print_inorder.
  rewrite (bind_Done _ _ _ _ _ (avl_first_head s T fuel HT Hfuel)).
  by apply (inorder_from_suffix s T keys fuel HT Hkeys Hfuel _ []).
Qed.

(** * Insertion *)

(** X4: linking a fresh node [a] into the empty slot that the context [c] leads
    to, and rebalancing: the call returns, the memory holds a well-formed
    tree with correct heights whose in-order sequence is the old one with [a]
    at the place of the slot, and the tree is AVL-balanced if it was. *)
Theorem insert_rebalances s c a nd0 (left : bool) :
  tree_in s (plug c Leaf) → heights_ok (st_heap s) (plug c Leaf) →
  height (plug c Leaf) <= 126 →
  st_heap s !! a = Some nd0 → a ∉ inorder (plug c Leaf) →
  (c ≠ [] → left = ctx_side c) →
  ∃ s' T',
    (∀ fuel : nat, (256 * length c <= fuel)%nat →
       (avl_link_node (Some a) (ctx_par c) left;;
        avl_insert_color fuel (Some a)) s = Done tt s') ∧
    tree_in s' T' ∧ heights_ok (st_heap s') T' ∧
    (balanced (plug c Leaf) → balanced T') ∧
    inorder (plug c Leaf) = ctx_before c ++ ctx_after c ∧
    inorder T' = ctx_before c ++ a :: ctx_after c.
Proof.
  intros HT Hh Hbound Ha Hfresh Hleft.
  destruct (avl_link_insert_spec s c a nd0 left HT Hh Hbound Ha Hfresh Hleft)
    as (s' & T' & Hrun & HT' & Hh' & Hb' & Hin).
  exists s', T'. split_and!; [done..| |].
  - by rewrite inorder_plug.
  - by rewrite Hin, inorder_plug.
Qed.

Lemma length_ctx_height c t : Z.of_nat (length c) + height t <= height (plug c t).
Proof.
  revert t. induction c as [|[g sib|sib g] c IH]; intros t; simpl; [lia| |].
  - specialize (IH (Node t g sib)). simpl in IH. lia.
  - specialize (IH (Node sib g t)). simpl in IH. lia.
Qed.

Lemma read_slot_ctx s c p par :
  ctx_shape (st_heap s) c p par (st_root s) →
  read_slot (ctx_slot c) s = Done p s.
Proof.
  destruct c as [|[g sib|sib g] c]; simpl.
  - by intros [_ <-].
  - intros (_ & nd & Hg & Hl & _). rewrite <- Hl. by apply get_left_run.
  - intros (_ & nd & Hg & Hr & _). rewrite <- Hr. by apply get_right_run.
Qed.

Lemma keys_sorted_app keys l1 l2 :
  keys_sorted keys (l1 ++ l2) ↔
  keys_sorted keys l1 ∧ keys_sorted keys l2 ∧
  ∀ a b, a ∈ l1 → b ∈ l2 → key_at keys a <= key_at keys b.
Proof.
  unfold keys_sorted. rewrite Forall_app, fmap_app, StronglySorted_app.
  split.
  - intros ((? & ?) & Hle & ? & ?). split_and!; try done.
    intros a b Ha Hb. apply Hle; by apply list_elem_of_fmap_2.
  - intros ((? & ?) & (? & ?) & Hle). split_and!; try done.
    intros x1 x2 (a & -> & Ha)%list_elem_of_fmap (b & -> & Hb)%list_elem_of_fmap.
    by apply Hle.
Qed.

Lemma keys_sorted_cons keys a l :
  keys_sorted keys (a :: l) ↔
  is_Some (keys !! a) ∧ keys_sorted keys l ∧
  ∀ b, b ∈ l → key_at keys a <= key_at keys b.
Proof.
  unfold keys_sorted. rewrite Forall_cons, fmap_cons, StronglySorted_cons.
  split.
  - intros ((? & ?) & Hle & ?). split_and!; try done.
    intros b Hb. rewrite Forall_forall in Hle. apply Hle.
    by apply list_elem_of_fmap_2.
  - intros (? & (? & ?) & Hle). split_and!; try done.
    apply Forall_forall. intros x (b & -> & Hb)%list_elem_of_fmap. by apply Hle.
Qed.

(** The descent of [avl_insert_key] in a subtree with sorted keys ends at the
    empty slot that follows every node with a key up to the new one and
    precedes every node with a greater key. *)
Lemma avl_insert_walk_spec s keys tn k : keys !! tn = Some k → ∀ t c,
  ctx_shape (st_heap s) c (tree_top t) (ctx_par c) (st_root s) →
  shape (st_heap s) (ctx_par c) (tree_top t) t →
  keys_sorted keys (inorder t) →
  ∃ c' l1 l2,
    (∀ fuel : nat, (Z.to_nat (height t) <= fuel)%nat →
       avl_insert_walk fuel keys (Some tn) (ctx_par c) (ctx_slot c) s
       = Done (ctx_par c', ctx_slot c') s) ∧
    plug c' Leaf = plug c t ∧
    inorder t = l1 ++ l2 ∧
    ctx_before c' = ctx_before c ++ l1 ∧ ctx_after c' = l2 ++ ctx_after c ∧
    (∀ a, a ∈ l1 → key_at keys a <= k) ∧ (∀ a, a ∈ l2 → k < key_at keys a).
Proof.
  intros Htn. induction t as [|l IHl a r IHr]; intros c Hc Ht Hsort.
  - exists c, [], []. split_and!; try done.
    + simpl in Hc. intros fuel _. destruct fuel; simpl;
        by rewrite (bind_Done _ _ _ _ _ (read_slot_ctx _ _ _ _ Hc)).
    + by rewrite app_nil_r.
    + by intros a ?%elem_of_nil.
    + by intros a ?%elem_of_nil.
  - pose proof (height_nonneg l). pose proof (height_nonneg r).
    pose proof Ht as (_ & nd & Ha & Hpar & Hl & Hr).
    cbn [inorder] in Hsort.
    apply keys_sorted_app in Hsort as (Hsl & Hsar & Hlr).
    apply keys_sorted_cons in Hsar as (Hka & Hsr & Har).
    assert (∀ fuel k0,
      avl_insert_walk (S fuel) keys (Some tn) (ctx_par c) (ctx_slot c) s = k0 ↔
      (if k <? key_at keys a
       then avl_insert_walk fuel keys (Some tn) (Some a) (LeftSlot (Some a)) s
       else avl_insert_walk fuel keys (Some tn) (Some a) (RightSlot (Some a)) s) = k0)
      as Hstep.
    { intros fuel k0. simpl in Hc. cbn [avl_insert_walk].
      rewrite (bind_Done _ _ _ _ _ (read_slot_ctx _ _ _ _ Hc)).
      assert (key_of keys (Some tn) s = Done k s) as Hk1.
      { unfold key_of. by rewrite Htn. }
      rewrite (bind_Done _ _ _ _ _ Hk1).
      rewrite (bind_Done _ _ _ _ _ (key_of_run keys a s Hka)).
      by destruct (k <? key_at keys a). }
    destruct (k <? key_at keys a) eqn:Hcmp.
    + apply Z.ltb_lt in Hcmp.
      destruct (IHl (InLeft a r :: c))
        as (c' & l1 & l2 & Hrun & Hplug & Hin & Hb & Haf & H1 & H2).
      { cbn [ctx_shape ctx_par frame_addr]. split; [done|]. exists nd.
        split_and!; [done | by rewrite (shape_top _ _ _ _ Hl) | done |].
        rewrite Hpar. exact Hc. }
      { cbn [ctx_par frame_addr]. rewrite <- (shape_top _ _ _ _ Hl). exact Hl. }
      { done. }
      exists c', l1, (l2 ++ a :: inorder r). split_and!.
      * intros fuel Hfuel. simpl in Hfuel. destruct fuel as [|fuel]; [lia|].
        apply Hstep. apply Hrun. lia.
      * done.
      * simpl. rewrite Hin. by rewrite <- app_assoc.
      * done.
      * rewrite Haf. simpl. by rewrite <- app_assoc.
      * done.
      * intros b [Hb2|[->|Hbr]%elem_of_cons]%elem_of_app; [by apply H2|done|].
        specialize (Har b Hbr). lia.
    + apply Z.ltb_ge in Hcmp.
      destruct (IHr (InRight l a :: c))
        as (c' & l1 & l2 & Hrun & Hplug & Hin & Hb & Haf & H1 & H2).
      { cbn [ctx_shape ctx_par frame_addr]. split; [done|]. exists nd.
        split_and!; [done | by rewrite (shape_top _ _ _ _ Hr) | done |].
        rewrite Hpar. exact Hc. }
      { cbn [ctx_par frame_addr]. rewrite <- (shape_top _ _ _ _ Hr). exact Hr. }
      { done. }
      exists c', (inorder l ++ a :: l1), l2. split_and!.
      * intros fuel Hfuel. simpl in Hfuel. destruct fuel as [|fuel]; [lia|].
        apply Hstep. apply Hrun. lia.
      * done.
      * simpl. rewrite Hin. by rewrite <- app_assoc.
      * rewrite Hb. simpl. rewrite <- !app_assoc. done.
      * done.
      * intros b [Hbl|[->|Hb1]%elem_of_cons]%elem_of_app; [|done|by apply H1].
        assert (key_at keys b <= key_at keys a); [|lia].
        apply Hlr; [done|]. by left.
      * done.
Qed.

(** [avl_insert_key] in a well-formed tree with correct heights and sorted
    keys. *)
Lemma avl_insert_key_spec s T keys tn k nd0 :
  tree_in s T → heights_ok (st_heap s) T → height T <= 126 →
  keys_sorted keys (inorder T) →
  st_heap s !! tn = Some nd0 → tn ∉ inorder T → keys !! tn = Some k →
  ∃ s' T' l1 l2,
    (∀ fuel : nat, (256 * Z.to_nat (height T) <= fuel)%nat →
       avl_insert_key fuel keys (Some tn) s = Done tt s') ∧
    tree_in s' T' ∧ heights_ok (st_heap s') T' ∧ (balanced T → balanced T') ∧
    inorder T = l1 ++ l2 ∧ inorder T' = l1 ++ tn :: l2 ∧
    (∀ a, a ∈ l1 → key_at keys a <= k) ∧ (∀ a, a ∈ l2 → k < key_at keys a).
Proof.
  intros HT Hh Hbound Hsort Hnd0 Hfresh Hk.
  destruct (avl_insert_walk_spec s keys tn k Hk T []) as
    (c & l1 & l2 & Hwalk & Hplug & Hin & Hb & Haf & H1 & H2).
  { simpl. split; [done|]. destruct HT as [Hs _]. by apply shape_top in Hs. }
  { simpl. destruct HT as [Hs _]. by rewrite <- (shape_top _ _ _ _ Hs). }
  { done. }
  simpl in Hplug, Hb, Haf. rewrite app_nil_r in Haf. subst T.
  destruct (avl_link_insert_spec s c tn nd0 (bool_decide (ctx_slot c = LeftSlot (ctx_par c)))
              HT Hh Hbound Hnd0 Hfresh)
    as (s' & T' & Hrun & HT' & Hh' & Hb' & Hin').
  { intros Hne. destruct c as [|[g sib|sib g] c]; [done| |]; simpl;
      first [done | by apply bool_decide_eq_true_2 | by apply bool_decide_eq_false_2]. }
  exists s', T', l1, l2. split_and!; try done.
  - intros fuel Hfuel. unfold avl_insert_key.
    rewrite (bind_Done _ _ _ _ _ (Hwalk fuel ltac:(lia))). cbn [fst snd].
    apply Hrun. pose proof (length_ctx_height c Leaf). simpl in *. lia.
  - rewrite Hin', inorder_plug. simpl. by rewrite Hb, Haf.
Qed.

Lemma keys_sorted_insert keys l1 a l2 k :
  keys !! a = Some k →
  keys_sorted keys (l1 ++ l2) →
  (∀ b, b ∈ l1 → key_at keys b <= k) → (∀ b, b ∈ l2 → k < key_at keys b) →
  keys_sorted keys (l1 ++ a :: l2).
Proof.
  intros Hk (Hs1 & Hs2 & H12)%keys_sorted_app H1 H2.
  assert (key_at keys a = k) as Hka by (unfold key_at; by rewrite Hk).
  apply keys_sorted_app. split_and!; [done| |].
  - apply keys_sorted_cons. split_and!; [by rewrite Hk | done |].
    intros b Hb. rewrite Hka. specialize (H2 b Hb). lia.
  - intros x y Hx [->|Hy]%elem_of_cons; [rewrite Hka; by apply H1|by apply H12].
Qed.

(** X5: [avl_insert_key] of a fresh node into an AVL tree whose keys are in
    non-decreasing in-order sequence: the call returns and the memory holds
    an AVL tree with sorted keys, in which the new node follows every node
    with a key up to its own and precedes every node with a greater key. *)
Theorem avl_insert_key_keeps_sorted_avl s T keys tn k nd0 :
  avl_tree_in s T → height T <= 126 →
  keys_sorted keys (inorder T) →
  st_heap s !! tn = Some nd0 → tn ∉ inorder T → keys !! tn = Some k →
  ∃ s' T' l1 l2,
    (∀ fuel : nat, (256 * Z.to_nat (height T) <= fuel)%nat →
       avl_insert_key fuel keys (Some tn) s = Done tt s') ∧
    avl_tree_in s' T' ∧ keys_sorted keys (inorder T') ∧
    inorder T = l1 ++ l2 ∧ inorder T' = l1 ++ tn :: l2 ∧
    (∀ a, a ∈ l1 → key_at keys a <= k) ∧ (∀ a, a ∈ l2 → k < key_at keys a).
Proof.
  intros (HT & Hh & Hbal) Hbound Hsort Hnd0 Hfresh Hk.
  destruct (avl_insert_key_spec s T keys tn k nd0 HT Hh Hbound Hsort Hnd0 Hfresh Hk)
    as (s' & T' & l1 & l2 & Hrun & HT' & Hh' & Hb' & Hin & Hin' & H1 & H2).
  exists s', T', l1, l2. split_and!; try done.
  - split_and!; [done..|by apply Hb'].
  - rewrite Hin'. apply (keys_sorted_insert _ _ _ _ k); [done| |done..].
    by rewrite <- Hin.
Qed.

(** X3: [print_inorder] on a well-formed tree, every node of which has a key,
    prints the keys of the nodes in in-order sequence and leaves the memory
    as it was. *)
Theorem print_inorder_lists_keys s T keys (fuel : nat) :
  tree_in s T → Forall (λ a, is_Some (keys !! a)) (inorder T) →
  (length (inorder T) <= fuel)%nat →
  print_inorder fuel keys s = Done (key_at keys <$> inorder T) s.
Proof.
  intros HT Hkeys Hfuel. unfold print_inorder.
  rewrite (bind_Done _ _ _ _ _ (avl_first_head s T fuel HT Hfuel)).
  by apply (inorder_from_suffix s T keys fuel HT Hkeys Hfuel _ []).
Qed.

(** * The insertion loop *)

Lemma pow2_half_step big small nb ns :
  0 <= big → 0 <= small → big - 1 <= small <= big →
  2 ^ (big / 2) <= nb → 2 ^ (small / 2) <= ns →
  2 ^ ((1 + big) / 2) <= nb + ns.
Proof.
  intros Hb0 Hs0 Hbs Hb Hs.
  assert (0 < 2 ^ (small / 2)).
  { apply Z.pow_pos_nonneg; [lia|]. Z.div_mod_to_equations. lia. }
  destruct (Z.eq_dec (big mod 2) 0) as [He|Ho].
  - replace ((1 + big) / 2) with (big / 2) by (Z.div_mod_to_equations; lia). lia.
  - replace ((1 + big) / 2) with (Z.succ (big / 2)) by (Z.div_mod_to_equations; lia).
    rewrite Z.pow_succ_r by (Z.div_mod_to_equations; lia).
    assert (2 ^ (big / 2) <= 2 ^ (small / 2)).
    { apply Z.pow_le_mono_r; [lia|]. Z.div_mod_to_equations. lia. }
    lia.
Qed.

(** An AVL-balanced tree of height [h] has at least [2 ^ (h / 2) - 1]
    nodes. *)
Lemma avl_height_log t :
  balanced t → 2 ^ (height t / 2) <= Z.of_nat (length (inorder t)) + 1.
Proof.
  induction t as [|l IHl a r IHr]; cbn [balanced height inorder].
  - intros _. by vm_compute.
  - intros (Hd & Hl & Hr). specialize (IHl Hl). specialize (IHr Hr).
    rewrite length_app. cbn [length].
    pose proof (height_nonneg l). pose proof (height_nonneg r).
    replace (Z.of_nat (length (inorder l) + S (length (inorder r))) + 1)
      with ((Z.of_nat (length (inorder l)) + 1) + (Z.of_nat (length (inorder r)) + 1))
      by lia.
    destruct (Z.max_spec (height l) (height r)) as [[Hlt ->]|[Hge ->]].
    + rewrite Z.add_comm with (n := Z.of_nat (length (inorder l)) + 1).
      apply (pow2_half_step (height r) (height l)); (done || lia).
    + apply (pow2_half_step (height l) (height r)); (done || lia).
Qed.

Lemma avl_height_bound t :
  balanced t → Z.of_nat (length (inorder t)) + 1 <= 2 ^ 62 → height t <= 125.
Proof.
  intros Hb Hn. pose proof (avl_height_log t Hb) as Hlog.
  pose proof (height_nonneg t).
  destruct (Z.le_gt_cases (height t) 125) as [|Hgt]; [done|].
  assert (2 ^ 63 <= 2 ^ (height t / 2)).
  { apply Z.pow_le_mono_r; [lia|]. Z.div_mod_to_equations. lia. }
  assert (2 ^ 62 < 2 ^ 63) by (apply Z.pow_lt_mono_r; lia).
  lia.
Qed.

Lemma keys_sorted_ext keys keys' l :
  (∀ a, a ∈ l → keys' !! a = keys !! a) →
  keys_sorted keys l → keys_sorted keys' l.
Proof.
  intros Hext [Hk Hs]. split.
  - rewrite Forall_forall in *. intros a Ha. rewrite Hext by done. by apply Hk.
  - erewrite list_fmap_ext; [exact Hs|].
    intros i a Ha. unfold key_at. rewrite Hext; [done|].
    by eapply list_elem_of_lookup_2.
Qed.

Lemma key_at_fmap_ext (keys keys' : gmap addr Z) (l : list addr) :
  (∀ a, a ∈ l → keys' !! a = keys !! a) →
  key_at keys' <$> l = key_at keys <$> l.
Proof.
  intros Hext. apply list_fmap_ext. intros i a Ha. unfold key_at.
  rewrite Hext; [done|]. by eapply list_elem_of_lookup_2.
Qed.

Lemma StronglySorted_impl_elem {A} (R R' : relation A) l :
  (∀ a b, a ∈ l → b ∈ l → R a b → R' a b) →
  StronglySorted R l → StronglySorted R' l.
Proof.
  induction l as [|x l IH]; intros Himpl Hs; [constructor|].
  apply StronglySorted_cons in Hs as [Hx Hs]. constructor.
  - apply IH; [|done]. intros a b Ha Hb. apply Himpl; by right.
  - rewrite Forall_forall in *. intros y Hy.
    apply Himpl; [by left|by right|by apply Hx].
Qed.

(** The insertion loop of [main], from any AVL tree with sorted keys whose
    nodes lie below the next free address. *)
Lemma insert_keys_spec (fuel : nat) : 32000 <= Z.of_nat fuel → ∀ ks next keys s T,
  avl_tree_in s T → keys_sorted keys (inorder T) →
  StronglySorted (key_then_addr keys) (inorder T) →
  (∀ a, a ∈ inorder T → (a < next)%positive) →
  Z.of_nat (length (inorder T) + length ks) < 2 ^ 62 →
  ∃ keys' s' T',
    insert_keys fuel ks next keys s = Done keys' s' ∧
    avl_tree_in s' T' ∧ keys_sorted keys' (inorder T') ∧
    key_at keys' <$> inorder T' ≡ₚ (key_at keys <$> inorder T) ++ ks ∧
    StronglySorted (key_then_addr keys') (inorder T') ∧
    (∀ a, (a < next)%positive → keys' !! a = keys !! a) ∧
    (∀ (i : nat) k a, ks !! i = Some k → Z.pos a = Z.pos next + Z.of_nat i →
       keys' !! a = Some k) ∧
    (∀ a, a ∈ inorder T' ↔
          a ∈ inorder T ∨
          Z.pos next <= Z.pos a < Z.pos next + Z.of_nat (length ks)).
Proof.
  intros Hfuel.
  induction ks as [|k ks IH]; intros next keys s T HT Hsort Hstable Hlt Hlen.
  - exists keys, s, T. split_and!; try done; [by rewrite app_nil_r|].
    intros a. simpl. split; [by left|]. intros [?|?]; [done|lia].
  - set (keys1 := <[next := k]> keys).
    set (s1 := mk_state (st_root s) (<[next := fresh_node]> (st_heap s))).
    change (insert_keys fuel (k :: ks) next keys s)
      with (match avl_insert_key fuel keys1 (@Some addr next) s1 with
            | Done _ s2 => insert_keys fuel ks (Pos.succ next) keys1 s2
            | Fault f => Fault f
            | OutOfFuel => OutOfFuel
            end).
    assert (next ∉ inorder T) as Hfresh.
    { intros Hin. specialize (Hlt _ Hin). lia. }
    assert (∀ a, a ∈ inorder T → a ≠ next) as Hne by (intros a Ha ->; done).
    destruct HT as ((Hs & Hnd) & Hh & Hbal).
    assert (tree_in s1 T) as HT1.
    { split; [|done]. eapply shape_ext; [|exact Hs].
      intros a Ha. simpl. apply lookup_insert_ne. intros E; by apply (Hne a Ha). }
    assert (heights_ok (st_heap s1) T) as Hh1.
    { eapply heights_ok_ext; [|exact Hh].
      intros a Ha. simpl. rewrite lookup_insert_ne; [done|]. intros E; by apply (Hne a Ha). }
    assert (keys_sorted keys1 (inorder T)) as Hsort1.
    { eapply keys_sorted_ext; [|exact Hsort].
      intros a Ha. apply lookup_insert_ne. intros E; by apply (Hne a Ha). }
    assert (height T <= 125) as Hbound.
    { apply avl_height_bound; [done|]. cbn [length] in Hlen. lia. }
    destruct (avl_insert_key_spec s1 T keys1 next k fresh_node HT1 Hh1 ltac:(lia) Hsort1)
      as (s2 & T2 & l1 & l2 & Hrun & HT2 & Hh2 & Hb2 & Hin & Hin2 & H1 & H2).
    { simpl. apply lookup_insert_eq. }
    { done. }
    { apply lookup_insert_eq. }
    pose proof (height_nonneg T).
    assert (key_at keys1 next = k) as Hknext
      by (unfold key_at, keys1; by rewrite lookup_insert_eq).
    assert (∀ a, a ∈ inorder T → key_at keys1 a = key_at keys a) as Hkold.
    { intros a Ha. unfold key_at, keys1. rewrite lookup_insert_ne; [done|].
      intros E; by apply (Hne a Ha). }
    destruct (IH (Pos.succ next) keys1 s2 T2)
      as (keys' & s' & T' & Hrun' & HT' & Hsort' & Hperm & Hstable' & Hold' & Hnew'
          & Hmem').
    { split_and!; [done..|by apply Hb2]. }
    { rewrite Hin2. apply (keys_sorted_insert _ _ _ _ k); [apply lookup_insert_eq| |done..].
      by rewrite <- Hin. }
    { rewrite Hin2. rewrite Hin in Hstable, Hkold, Hlt.
      apply StronglySorted_app in Hstable as (H12 & Hs1 & Hs2).
      apply StronglySorted_app. split_and!.
      - intros x1 x2 Hx1 [->|Hx2]%elem_of_cons.
        + specialize (H1 x1 Hx1). unfold key_then_addr. rewrite Hknext.
          specialize (Hlt x1 ltac:(apply elem_of_app; by left)).
          destruct (decide (key_at keys1 x1 = k)); [right|left]; lia.
        + specialize (H12 x1 x2 Hx1 Hx2). unfold key_then_addr in *.
          rewrite !Hkold by (apply elem_of_app; auto). done.
      - eapply StronglySorted_impl_elem; [|exact Hs1].
        intros a b Ha Hb. unfold key_then_addr.
        rewrite !Hkold by (apply elem_of_app; auto). done.
      - constructor.
        + eapply StronglySorted_impl_elem; [|exact Hs2].
          intros a b Ha Hb. unfold key_then_addr.
          rewrite !Hkold by (apply elem_of_app; auto). done.
        + apply Forall_forall. intros b Hb. left. rewrite Hknext. by apply H2. }
    { intros a. rewrite Hin2. intros Ha.
      assert (a = next ∨ a ∈ inorder T) as [->|Ha'].
      { rewrite Hin. rewrite elem_of_app, elem_of_cons in Ha.
        rewrite elem_of_app. tauto. }
      - lia.
      - specialize (Hlt _ Ha'). lia. }
    { rewrite Hin2. rewrite Hin in Hlen. rewrite length_app in *. cbn [length] in *. lia. }
    exists keys', s', T'. split_and!; try done.
    + by rewrite (Hrun fuel) by lia.
    + rewrite Hperm, Hin2. rewrite fmap_app, fmap_cons, Hknext.
      rewrite <- (key_at_fmap_ext keys keys1 (inorder T)).
      2:{ intros a Ha. apply lookup_insert_ne. intros E; by apply (Hne a Ha). }
      rewrite Hin, fmap_app. solve_Permutation.
    + intros a Ha. rewrite Hold' by lia. apply lookup_insert_ne. lia.
    + intros [|i] k' a Hi Ha.
      * injection Hi as <-. assert (a = next) as -> by lia.
        rewrite Hold' by lia. apply lookup_insert_eq.
      * apply (Hnew' i k' a Hi). lia.
    + intros a. rewrite Hmem', Hin2, Hin. cbn [length].
      rewrite !elem_of_app, elem_of_cons.
      assert (a = next ↔ Z.pos a = Z.pos next) as -> by (split; [by intros ->|lia]).
      split.
      * intros [[?|[?|?]]|?]; [by left; left|right; lia|by left; right|right; lia].
      * intros [[?|?]|?]; [by left; left|by left; right; right|].
        destruct (decide (Z.pos a = Z.pos next)); [by left; right; left|right; lia].
Qed.

(** X6: the insertion loop of [main], for any list of fewer than [2 ^ 62] keys:
    every insertion returns, and the memory ends up holding an AVL tree, with
    correct stored heights, whose keys in in-order sequence are the inserted
    keys sorted; the height stored at the root is logarithmic in the number
    of keys. *)
Theorem insert_keys_builds_sorted_avl (fuel : nat) ks :
  32000 <= Z.of_nat fuel → Z.of_nat (length ks) < 2 ^ 62 →
  ∃ keys s T,
    insert_keys fuel ks 1%positive ∅ empty_tree = Done keys s ∧
    avl_tree_in s T ∧
    key_at keys <$> inorder T = merge_sort Z.le ks ∧
    length (inorder T) = length ks ∧
    2 ^ (stored_height (st_heap s) (st_root s) / 2) <= Z.of_nat (length ks) + 1.
Proof.
  intros Hfuel Hlen.
  destruct (insert_keys_spec fuel Hfuel ks 1%positive ∅ empty_tree Leaf)
    as (keys & s & T & Hrun & HT & Hsort & Hperm & _).
  { split_and!; try done. split; [done|]. simpl. constructor. }
  { split; simpl; constructor. }
  { simpl. constructor. }
  { by intros a ?%elem_of_nil. }
  { simpl. lia. }
  simpl in Hperm.
  assert (length (inorder T) = length ks) as Hl.
  { rewrite <- Hperm. by rewrite length_fmap. }
  exists keys, s, T. split_and!; try done.
  - apply (StronglySorted_unique Z.le).
    + apply Hsort.
    + apply StronglySorted_merge_sort; apply _.
    + by rewrite merge_sort_Permutation.
  - destruct HT as ((Hs & _) & Hh & Hb).
    rewrite (heights_ok_top _ _ _ _ Hs Hh), <- Hl. by apply avl_height_log.
Qed.

(** X7: the first half of [main], for any list of keys: what [print_inorder]
    prints after the insertions is the list of keys sorted. *)
Theorem main_prints_sorted_keys (fuel : nat) ks :
  32000 <= Z.of_nat fuel → (length ks <= fuel)%nat → Z.of_nat (length ks) < 2 ^ 62 →
  inorder_after_inserts fuel ks = Some (merge_sort Z.le ks).
Proof.
  intros Hfuel Hn Hlen.
  destruct (insert_keys_spec fuel Hfuel ks 1%positive ∅ empty_tree Leaf)
    as (keys & s & T & Hrun & HT & Hsort & Hperm & _).
  { split_and!; try done. split; [done|]. simpl. constructor. }
  { split; simpl; constructor. }
  { simpl. constructor. }
  { by intros a ?%elem_of_nil. }
  { simpl. lia. }
  simpl in Hperm.
  assert (length (inorder T) = length ks) as Hl.
  { rewrite <- Hperm. by rewrite length_fmap. }
  unfold inorder_after_inserts. rewrite Hrun.
  rewrite (print_inorder_keys s T keys fuel); [|apply HT|apply Hsort|lia].
  f_equal. apply (StronglySorted_unique Z.le).
  - apply Hsort.
  - apply StronglySorted_merge_sort; apply _.
  - by rewrite merge_sort_Permutation.
Qed.

(** X19: the insertion loop of [main] keeps equal keys in insertion order:
    the resulting tree is an AVL tree whose nodes are exactly the nodes
    allocated, those at the addresses 1 to [length ks]; the node of the
    [i]-th key is the one at address [i + 1]; and the in-order sequence of
    the tree is sorted by key and, among nodes with equal keys, by address,
    that is, by time of insertion. *)
Theorem insert_keys_is_stable (fuel : nat) ks :
  32000 <= Z.of_nat fuel → Z.of_nat (length ks) < 2 ^ 62 →
  ∃ keys s T,
    insert_keys fuel ks 1%positive ∅ empty_tree = Done keys s ∧
    avl_tree_in s T ∧
    (∀ a, a ∈ inorder T ↔ Z.pos a <= Z.of_nat (length ks)) ∧
    (∀ (i : nat) k a, ks !! i = Some k → Z.pos a = 1 + Z.of_nat i →
       keys !! a = Some k) ∧
    StronglySorted (key_then_addr keys) (inorder T).
Proof.
  intros Hfuel Hlen.
  destruct (insert_keys_spec fuel Hfuel ks 1%positive ∅ empty_tree Leaf)
    as (keys & s & T & Hrun & HT & _ & _ & Hstable & _ & Hnew & Hmem).
  { split_and!; try done. split; [done|]. simpl. constructor. }
  { split; simpl; constructor. }
  { simpl. constructor. }
  { by intros a ?%elem_of_nil. }
  { simpl. lia. }
  exists keys, s, T. split_and!; [done|done| | |done].
  - intros a. rewrite Hmem. simpl. split.
    + intros [?%elem_of_nil|?]; [done|lia].
    + intros ?. right. lia.
  - intros i k a Hi Ha. by apply (Hnew i k a).
Qed.


(** * Searching *)

(** The search loop of [main] in a subtree with sorted keys. *)
Lemma find_key_spec s keys k : ∀ t par p (fuel : nat),
  shape (st_heap s) par p t → keys_sorted keys (inorder t) →
  (Z.to_nat (height t) <= fuel)%nat →
  ∃ r, find_key fuel keys k p s = Done r s ∧
       match r with
       | Some a => a ∈ inorder t ∧ keys !! a = Some k
       | None => ∀ a, a ∈ inorder t → keys !! a ≠ Some k
       end.
Proof.
  induction t as [|l IHl a r IHr]; intros par p fuel Ht Hsort Hfuel.
  - simpl in Ht. subst p. exists None. split; [by destruct fuel|].
    by intros a ?%elem_of_nil.
  - pose proof (height_nonneg l). pose proof (height_nonneg r).
    simpl in Hfuel. destruct fuel as [|fuel]; [lia|].
    destruct Ht as (-> & nd & Ha & Hpar & Hl & Hr).
    cbn [inorder] in Hsort.
    apply keys_sorted_app in Hsort as (Hsl & Hsar & Hlr).
    apply keys_sorted_cons in Hsar as (Hka & Hsr & Har).
    assert (∀ b, keys !! b = Some k → key_at keys b = k) as Hkey.
    { intros b Hb. unfold key_at. by rewrite Hb. }
    cbn [find_key].
    rewrite (bind_Done _ _ _ _ _ (key_of_run keys a s Hka)).
    destruct (decide (k = key_at keys a)) as [Heq|Hneq].
    + rewrite bool_decide_eq_true_2 by done. exists (Some a). split; [done|].
      split; [set_solver|]. destruct Hka as [ka Hka]. unfold key_at in Heq.
      rewrite Hka in Heq. simpl in Heq. by subst.
    + rewrite bool_decide_eq_false_2 by done.
      assert (keys !! a ≠ Some k) as Hak.
      { intros Hb. apply Hneq. by rewrite (Hkey a Hb). }
      destruct (k <? key_at keys a) eqn:Hcmp.
      * apply Z.ltb_lt in Hcmp.
        rewrite (bind_Done _ _ _ _ _ (get_left_run _ _ _ Ha)).
        destruct (IHl (Some a) (avl_left nd) fuel Hl Hsl ltac:(lia)) as (r0 & Hrun & Hr0).
        exists r0. split; [done|]. destruct r0 as [b|].
        -- split; [set_solver|apply Hr0].
        -- intros b [Hb|[->|Hb]%elem_of_cons]%elem_of_app; [by apply Hr0|done|].
           intros Hbk. specialize (Har b Hb). rewrite (Hkey b Hbk) in Har. lia.
      * apply Z.ltb_ge in Hcmp.
        rewrite (bind_Done _ _ _ _ _ (get_right_run _ _ _ Ha)).
        destruct (IHr (Some a) (avl_right nd) fuel Hr Hsr ltac:(lia)) as (r0 & Hrun & Hr0).
        exists r0. split; [done|]. destruct r0 as [b|].
        -- split; [set_solver|apply Hr0].
        -- intros b [Hb|[->|Hb]%elem_of_cons]%elem_of_app; [|done|by apply Hr0].
           intros Hbk. specialize (Hlr b a Hb ltac:(by left)).
           rewrite (Hkey b Hbk) in Hlr. lia.
Qed.

Lemma height_le_length t : height t <= Z.of_nat (length (inorder t)).
Proof.
  induction t as [|l IHl a r IHr]; simpl; [lia|].
  rewrite length_app. simpl. lia.
Qed.

(** X8: the search loop of [main], started at the root of a well-formed tree
    whose keys are sorted in in-order sequence: it returns a node of the
    tree that holds the key when there is one, and null when no node of the
    tree holds the key; the memory is as before. *)
Theorem find_key_finds s T keys k (fuel : nat) :
  tree_in s T → keys_sorted keys (inorder T) →
  (Z.to_nat (height T) <= fuel)%nat →
  ∃ r, find_key fuel keys k (st_root s) s = Done r s ∧
       match r with
       | Some a => a ∈ inorder T ∧ keys !! a = Some k
       | None => ∀ a, a ∈ inorder T → keys !! a ≠ Some k
       end.
Proof. intros [Hs _]. by apply (find_key_spec s keys k T None). Qed.

(** X9: one round of the deletion loop of [main] for a key that no node of the
    tree holds: nothing is erased and the memory is as before. *)
Theorem erase_key_missing_is_noop s T keys k (fuel : nat) :
  tree_in s T → keys_sorted keys (inorder T) →
  (Z.to_nat (height T) <= fuel)%nat →
  (∀ a, a ∈ inorder T → keys !! a ≠ Some k) →
  erase_key fuel keys k s = Done tt s.
Proof.
  intros [Hs _] Hsort Hfuel Hmiss.
  destruct (find_key_spec s keys k T None (st_root s) fuel Hs Hsort Hfuel)
    as (r & Hrun & Hr).
  unfold erase_key, bind at 1, get_root.
  rewrite (bind_Done _ _ _ _ _ Hrun).
  destruct r as [a|]; [|done].
  destruct Hr as [Ha Hk]. by destruct (Hmiss a Ha).
Qed.

(** X10: insertion followed by search: after [avl_insert_key] has linked a node
    with key [k], the search loop of [main] finds a node with key [k]. *)
Theorem insert_then_find s T keys tn k nd0 (fuel : nat) :
  avl_tree_in s T → height T <= 126 →
  keys_sorted keys (inorder T) →
  st_heap s !! tn = Some nd0 → tn ∉ inorder T → keys !! tn = Some k →
  (256 * Z.to_nat (height T) <= fuel)%nat → (length (inorder T) < fuel)%nat →
  ∃ s' a,
    (avl_insert_key fuel keys (Some tn);;
     do r <- get_root; find_key fuel keys k r) s
    = Done (Some a) s' ∧
    keys !! a = Some k.
Proof.
  intros (HT & Hh & Hbal) Hbound Hsort Hnd0 Hfresh Hk Hfuel Hlen.
  destruct (avl_insert_key_spec s T keys tn k nd0 HT Hh Hbound Hsort Hnd0 Hfresh Hk)
    as (s' & T' & l1 & l2 & Hrun & HT' & Hh' & Hb' & Hin & Hin' & H1 & H2).
  assert (keys_sorted keys (inorder T')) as Hsort'.
  { rewrite Hin'. apply (keys_sorted_insert _ _ _ _ k); [done| |done..].
    by rewrite <- Hin. }
  destruct (find_key_spec s' keys k T' None (st_root s') fuel) as (r & Hfind & Hr).
  { apply HT'. }
  { done. }
  { pose proof (height_le_length T'). pose proof (height_nonneg T').
    rewrite Hin', length_app in H. cbn [length] in H.
    rewrite Hin, length_app in Hlen. lia. }
  destruct r as [a|].
  - exists s', a. split; [|apply Hr].
    rewrite (bind_Done _ _ _ _ _ (Hrun fuel Hfuel)).
    unfold bind at 1, get_root. exact Hfind.
  - exfalso. apply (Hr tn); [|done]. rewrite Hin'. set_solver.
Qed.


(** * The rebalance walker on a tree that needs no repair *)

(** A visit of a node whose stored height is correct and whose balance is
    within bounds writes back the height it reads and rotates nothing. *)
Lemma avl_rebalance_body_id s par l n r :
  shape (st_heap s) par (Some n) (Node l n r) →
  heights_ok (st_heap s) (Node l n r) →
  -1 <= height l - height r <= 1 →
  height (Node l n r) <= 127 →
  avl_rebalance_body (Some n) s = Done tt s.
Proof.
  intros Ht (Hhn & Hhl & Hhr) Hbal Hbound.
  pose proof Ht as (_ & nd & Hn & Hpar & Hl & Hr & Hsl & Hsr)%shape_node_inv.
  pose proof (height_nonneg l). pose proof (height_nonneg r).
  cbn [height] in Hbound.
  assert (avl_update_height (Some n) s = Done tt s) as Hupd.
  { rewrite (avl_update_height_run s n nd (height l) (height r) Hn).
    - rewrite int8_id by lia.
      assert (avl_hgt nd = Z.max (height l) (height r) + 1) as Hh.
      { unfold stored_height in Hhn. rewrite Hn in Hhn. cbn [height] in Hhn. lia. }
      rewrite <- Hh. destruct s as [rt h], nd as [np nl nr nh]. simpl in *.
      f_equal. f_equal. by apply insert_id.
    - intros c Hc. rewrite Hl in Hc. eapply shape_alloc. rewrite <- Hc. exact Hsl.
    - intros c Hc. rewrite Hr in Hc. eapply shape_alloc. rewrite <- Hc. exact Hsr.
    - rewrite Hl. by eapply heights_ok_top.
    - rewrite Hr. by eapply heights_ok_top. }
  unfold avl_rebalance_body.
  rewrite (bind_Done _ _ _ _ _ Hupd).
  rewrite (bind_Done _ _ _ _ _ (get_left_run _ _ _ Hn)), Hl.
  rewrite (bind_Done _ _ _ _ _ (avl_height_run _ _ _ Hsl Hhl)).
  rewrite (bind_Done _ _ _ _ _ (get_right_run _ _ _ Hn)), Hr.
  rewrite (bind_Done _ _ _ _ _ (avl_height_run _ _ _ Hsr Hhr)).
  rewrite int8_id by lia.
  rewrite (ltb_false 1 (height l - height r)) by lia.
  assert ((height l - height r <? -1) = false) as -> by (apply Z.ltb_ge; lia).
  done.
Qed.

Lemma avl_rebalance_id s : ∀ c l n r par (fuel : nat),
  ctx_shape (st_heap s) c (Some n) par (st_root s) →
  shape (st_heap s) par (Some n) (Node l n r) →
  heights_ok (st_heap s) (plug c (Node l n r)) →
  balanced (plug c (Node l n r)) →
  height (plug c (Node l n r)) <= 127 →
  (length c < fuel)%nat →
  avl_rebalance fuel (Some n) s = Done tt s.
Proof.
  induction c as [|f c IH]; intros l n r par fuel Hc Ht Hh Hb Hbound Hfuel;
    (destruct fuel as [|fuel]; [simpl in Hfuel; lia|]);
    pose proof (heights_ok_plug_inv _ _ _ Hh) as [Hht _];
    pose proof (balanced_plug_inv _ _ Hb) as [(Hd & _) _];
    (assert (height (Node l n r) <= 127) as Hle
       by (etrans; [apply height_le_plug|exact Hbound]));
    cbn [avl_rebalance].
  all: rewrite (bind_Done _ _ _ _ _
         (avl_rebalance_body_id s par l n r Ht Hht Hd Hle));
    rewrite (bind_Done _ _ _ _ _ (get_parent_shape _ _ _ _ _ _ Ht)).
  - destruct Hc as [-> _]. apply avl_rebalance_null.
  - simpl in Hfuel.
    destruct f as [g sib|sib g]; cbn [ctx_shape] in Hc;
      destruct Hc as (-> & gnd & Hg & Hgc & Hsib & Hc).
    + apply (IH (Node l n r) g sib (avl_parent gnd) fuel); [done| |done..|lia].
      eapply shape_node; [done..|by rewrite Hgc|done].
    + apply (IH sib g (Node l n r) (avl_parent gnd) fuel); [done| |done..|lia].
      eapply shape_node; [done..|by rewrite Hgc].
Qed.

(** X13: on an AVL tree with correct stored heights of at most 127,
    [avl_rebalance] from any node of the tree returns and leaves the memory
    exactly as it was: no rotation, and every height written back is the one
    that was stored. *)
Theorem rebalance_is_identity_on_avl s T n (fuel : nat) :
  avl_tree_in s T → height T <= 127 → n ∈ inorder T →
  (length (inorder T) <= fuel)%nat →
  avl_rebalance fuel (Some n) s = Done tt s.
Proof.
  intros (HT & Hh & Hb) Hbound Hn Hfuel.
  destruct (tree_in_focus s T n HT Hn) as (c & l & r & par & -> & Hc & Ht & Hdup).
  apply (avl_rebalance_id s c l n r par fuel); try done.
  rewrite inorder_plug_perm, length_app in Hfuel. simpl in Hfuel.
  rewrite length_app in Hfuel. simpl in Hfuel.
  pose proof (ctx_length_dom c). lia.
Qed.


(** * What the rebalance walker achieves *)

(** The walk from a position that satisfies [walk_inv], with the height of
    the whole tree as a further ghost bound. *)
Lemma avl_rebalance_full (Q : Prop) s c l n r :
  walk_inv s c (Node l n r) → (Q → avl_walk_inv c (Node l n r)) →
  ∃ s' T',
    (∀ fuel : nat, (walk_fuel c (Node l n r) < fuel)%nat →
       avl_rebalance fuel (Some n) s = Done tt s') ∧
    tree_in s' T' ∧ heights_ok (st_heap s') T' ∧ (Q → balanced T') ∧
    inorder T' = inorder (plug c (Node l n r)) ∧
    height T' <= height (plug c (Node l n r)).
Proof.
  intros Hinv Havl.
  set (H0 := height (plug c (Node l n r))).
  destruct (avl_rebalance_walk
              (λ c t, (Q → avl_walk_inv c t) ∧ height (plug c t) <= H0))
    with (fuel := S (walk_fuel c (Node l n r))) (c := c) (l := l) (n := n) (r := r) (s := s)
    as (s' & T' & vs & Hrun & Hwalk & Hsub & HT & Hh & Hin & [HP Hle] & Hb).
  - intros c' t [H1 H2]. split.
    + intros q. by apply avl_walk_inv_rotate, H1.
    + etrans; [|exact H2]. apply height_plug_mono, rebalance_node_height_le.
  - intros f c' t [H1 H2] Hb. split; [|done].
    intros q. by apply avl_walk_inv_up; [apply H1|].
  - lia.
  - done.
  - split; [done|]. unfold H0. lia.
  - exists s', T'. split_and!; try done.
    + intros fuel Hfuel. rewrite <- Hrun.
      apply avl_rebalance_fuel_mono; [lia|]. by rewrite Hrun.
    + intros q. by apply avl_walk_inv_done; [apply HP|].
Qed.

(** X14: from any position that satisfies [walk_inv], that is, in a well-formed
    tree in which only the nodes on the path from the start node to the root
    may have stale heights, [avl_rebalance] returns, and the memory then
    holds a well-formed tree with every stored height correct, the same
    in-order sequence, and a height no greater than before; when the
    position is the one an insertion or a removal in an AVL-balanced tree
    leaves ([avl_walk_inv]), the tree is AVL-balanced again. *)
Theorem rebalance_repairs_heights_and_balance s c l n r :
  walk_inv s c (Node l n r) →
  ∃ s' T',
    (∀ fuel : nat, (walk_fuel c (Node l n r) < fuel)%nat →
       avl_rebalance fuel (Some n) s = Done tt s') ∧
    tree_in s' T' ∧ heights_ok (st_heap s') T' ∧
    inorder T' = inorder (plug c (Node l n r)) ∧
    height T' <= height (plug c (Node l n r)) ∧
    (avl_walk_inv c (Node l n r) → avl_tree_in s' T').
Proof.
  intros Hinv.
  destruct (avl_rebalance_full (avl_walk_inv c (Node l n r)) s c l n r Hinv)
    as (s' & T' & Hrun & HT & Hh & Hb & Hin & Hle); [done|].
  exists s', T'. split_and!; try done.
  intros Hq. split_and!; [done..|by apply Hb].
Qed.

(** * Erasing a node with at most one child, in a context *)

Lemma avl_erase_spec s c l n r par :
  ctx_shape (st_heap s) c (Some n) par (st_root s) →
  shape (st_heap s) par (Some n) (Node l n r) →
  NoDup (inorder (Node l n r) ++ ctx_dom c) →
  heights_ok (st_heap s) (plug c (Node l n r)) →
  height (plug c (Node l n r)) <= 127 →
  l = Leaf ∨ r = Leaf →
  ∃ s' T',
    (∀ fuel : nat, (256 * length c <= fuel)%nat →
       avl_erase fuel (Some n) s = Done tt s') ∧
    tree_in s' T' ∧ heights_ok (st_heap s') T' ∧
    (balanced (plug c (Node l n r)) → balanced T') ∧
    inorder T' = ctx_before c ++ inorder l ++ inorder r ++ ctx_after c ∧
    height T' <= height (plug c (Node l n r)).
Proof.
  intros Hc Ht Hdup Hh Hbound Hleaf.
  set (tc := match l with Leaf => r | _ => l end).
  destruct (avl_erase_splice s c par l n r Hc Ht Hdup Hleaf)
    as (s1 & Hsplice & Hc1 & Ht1 & Hk1). fold tc in Hc1, Ht1.
  destruct (heights_ok_plug_inv _ _ _ Hh) as ((_ & Hhl & Hhr) & Hsib).
  assert (heights_ok (st_heap s1) tc) as Hh1.
  { eapply heights_ok_ext; [intros a _; apply Hk1|]. unfold tc. by destruct l. }
  assert (Forall (λ f, heights_ok (st_heap s1) (frame_sib f)) c) as Hsib1.
  { eapply Forall_impl; [exact Hsib|]. intros f Hf.
    eapply heights_ok_ext; [intros a _; apply Hk1|done]. }
  assert (height tc <= height (Node l n r)) as Hle.
  { pose proof (height_nonneg l). pose proof (height_nonneg r).
    unfold tc. destruct l; simpl; lia. }
  assert (NoDup (inorder tc ++ ctx_dom c)) as Hdup1.
  { unfold tc. destruct Hleaf as [->| ->].
    - simpl in Hdup. by apply NoDup_cons in Hdup as [_ ?].
    - destruct l as [|ll x lr]; [simpl in *; by apply NoDup_cons in Hdup as [_ ?]|].
      cbn [inorder] in Hdup. rewrite <- app_assoc in Hdup.
      apply NoDup_app in Hdup as (H1 & Hd & H2).
      simpl in H2. apply NoDup_cons in H2 as [_ H2].
      apply NoDup_app. split_and!; [done| |done].
      intros a Ha Hin. apply (Hd a Ha). in_solve. }
  assert (inorder tc = inorder l ++ inorder r) as Hio.
  { unfold tc. destruct Hleaf as [->| ->]; [done|].
    destruct l; simpl; by rewrite ?app_nil_r. }
  destruct c as [|f c].
  - (* [n] was the root *)
    destruct Hc1 as (Hp1 & Hrt1).
    exists s1, tc. split_and!.
    + intros fuel _. rewrite Hsplice, Hp1. apply avl_rebalance_null.
    + split; [by rewrite Hrt1, <- Hp1 | by rewrite app_nil_r in Hdup1].
    + done.
    + intros Hbal. simpl in Hbal. destruct Hbal as (_ & ? & ?). unfold tc.
      by destruct l.
    + simpl. by rewrite Hio, app_nil_r.
    + done.
  - (* the walk starts at the parent *)
    pose proof (ctx_shape_par _ _ _ _ _ Hc1) as Hpar1. cbn [ctx_par] in Hpar1.
    rewrite Hpar1 in Hc1, Ht1.
    assert (walk_inv s1 c (fill f tc)) as Hinv.
    { apply walk_inv_up; [done..|].
      etrans; [|exact Hbound]. by apply height_plug_mono. }
    pose proof (avl_walk_inv_after_erase f c l n r Hleaf) as Havl. fold tc in Havl.
    assert (∃ s' T',
      (∀ fuel : nat, (walk_fuel c (fill f tc) < fuel)%nat →
         avl_rebalance fuel (Some (frame_addr f)) s1 = Done tt s') ∧
      tree_in s' T' ∧ heights_ok (st_heap s') T' ∧
      (balanced (plug (f :: c) (Node l n r)) → balanced T') ∧
      inorder T' = inorder (plug c (fill f tc)) ∧
      height T' <= height (plug c (fill f tc)))
      as (s' & T' & Hrun & HT' & HhT' & HbT' & Hin' & Hhe).
    { destruct f as [g sib|sib g]; cbn [fill frame_addr] in *;
        by apply avl_rebalance_full. }
    exists s', T'. split_and!; try done.
    + intros fuel Hfuel. rewrite Hsplice, Hpar1. apply Hrun.
      unfold walk_fuel.
      assert (height (fill f tc) <= 127) as Hf127.
      { destruct Hinv as (_ & _ & _ & _ & _ & Hb'). etrans; [apply height_le_plug|exact Hb']. }
      pose proof (height_nonneg (fill f tc)).
      cbn [length] in Hfuel.
      destruct (top_balanced (fill f tc)); lia.
    + rewrite Hin'. change (plug c (fill f tc)) with (plug (f :: c) tc).
      by rewrite inorder_plug, Hio, <- app_assoc.
    + etrans; [exact Hhe|]. change (plug c (fill f tc)) with (plug (f :: c) tc).
      by apply height_plug_mono.
Qed.


(** * No function of the tree allocates or frees *)

Lemma keeps_alloc_ret {A} (a : A) : keeps_alloc (ret a).
Proof. intros s a' s' [= _ <-]. done. Qed.

Lemma keeps_alloc_timeout {A} : keeps_alloc (@timeout A).
Proof. by intros s a s'. Qed.

Lemma keeps_alloc_bind {A B} (c : M A) (k : A → M B) :
  keeps_alloc c → (∀ a, keeps_alloc (k a)) → keeps_alloc (bind c k).
Proof.
  intros Hc Hk s b s'. unfold bind.
  destruct (c s) as [a s1| |] eqn:Hcs; [|done..].
  intros Hks. rewrite (Hk a s1 b s' Hks). by eapply Hc.
Qed.

Lemma keeps_alloc_load p : keeps_alloc (load p).
Proof.
  intros s a s'. unfold load. destruct p as [x|]; [|done].
  destruct (st_heap s !! x); [|done]. by intros [= _ <-].
Qed.

Lemma keeps_alloc_store p f : keeps_alloc (store p f).
Proof.
  intros s a s'. unfold store. destruct p as [x|]; [|done].
  destruct (st_heap s !! x) as [nd|] eqn:Hx; [|done]. intros [= _ <-]. simpl.
  rewrite dom_insert_L. apply elem_of_dom_2 in Hx. set_solver.
Qed.

Lemma keeps_alloc_get_root : keeps_alloc get_root.
Proof. by intros s a s' [= _ <-]. Qed.

Lemma keeps_alloc_set_root v : keeps_alloc (set_root v).
Proof. by intros s a s' [= _ <-]. Qed.

Ltac alloc_step :=
  lazymatch goal with
  | |- keeps_alloc (ret _) => apply keeps_alloc_ret
  | |- keeps_alloc timeout => apply keeps_alloc_timeout
  | |- keeps_alloc (load _) => apply keeps_alloc_load
  | |- keeps_alloc (store _ _) => apply keeps_alloc_store
  | |- keeps_alloc get_root => apply keeps_alloc_get_root
  | |- keeps_alloc (set_root _) => apply keeps_alloc_set_root
  | |- keeps_alloc (bind _ _) => apply keeps_alloc_bind; [|intros ?]
  | |- keeps_alloc (if ?b then _ else _) => destruct b
  | |- keeps_alloc (match ?x with _ => _ end) => destruct x
  | H : ∀ n, keeps_alloc (?f n) |- keeps_alloc (?f _) => apply H
  end.

Ltac alloc_solve := repeat alloc_step.

Lemma keeps_alloc_get_parent p : keeps_alloc (get_parent p).
Proof. unfold get_parent. alloc_solve. Qed.
Lemma keeps_alloc_get_left p : keeps_alloc (get_left p).
Proof. unfold get_left. alloc_solve. Qed.
Lemma keeps_alloc_get_right p : keeps_alloc (get_right p).
Proof. unfold get_right. alloc_solve. Qed.

Lemma keeps_alloc_avl_height p : keeps_alloc (avl_height p).
Proof. unfold avl_height. alloc_solve. Qed.

Lemma keeps_alloc_avl_update_height p : keeps_alloc (avl_update_height p).
Proof.
  unfold avl_update_height, set_hgt.
  pose proof keeps_alloc_get_left. pose proof keeps_alloc_get_right.
  pose proof keeps_alloc_avl_height. alloc_solve.
Qed.

Ltac alloc_auto :=
  repeat lazymatch goal with
    | |- keeps_alloc (get_parent _) => apply keeps_alloc_get_parent
    | |- keeps_alloc (get_left _) => apply keeps_alloc_get_left
    | |- keeps_alloc (get_right _) => apply keeps_alloc_get_right
    | |- keeps_alloc (avl_height _) => apply keeps_alloc_avl_height
    | |- keeps_alloc (avl_update_height _) => apply keeps_alloc_avl_update_height
    | |- _ => alloc_step
    end.

Lemma keeps_alloc_avl_rotate_right y : keeps_alloc (avl_rotate_right y).
Proof. unfold avl_rotate_right, set_left, set_right, set_parent. alloc_auto. Qed.

Lemma keeps_alloc_avl_rotate_left x : keeps_alloc (avl_rotate_left x).
Proof. unfold avl_rotate_left, set_left, set_right, set_parent. alloc_auto. Qed.

Lemma keeps_alloc_avl_rebalance_body n : keeps_alloc (avl_rebalance_body n).
Proof.
  unfold avl_rebalance_body.
  pose proof keeps_alloc_avl_rotate_right. pose proof keeps_alloc_avl_rotate_left.
  alloc_auto.
Qed.

Lemma keeps_alloc_avl_rebalance fuel : ∀ n, keeps_alloc (avl_rebalance fuel n).
Proof.
  pose proof keeps_alloc_avl_rebalance_body.
  induction fuel as [|fuel IH]; intros [a|]; simpl; alloc_auto.
Qed.

Lemma keeps_alloc_avl_subtree_min fuel : ∀ n, keeps_alloc (avl_subtree_min fuel n).
Proof.
  induction fuel as [|fuel IH]; intros [a|]; simpl; alloc_auto.
Qed.

Lemma keeps_alloc_avl_erase fuel node : keeps_alloc (avl_erase fuel node).
Proof.
  unfold avl_erase, set_left, set_right, set_parent.
  pose proof (keeps_alloc_avl_subtree_min fuel).
  pose proof (keeps_alloc_avl_rebalance fuel).
  alloc_auto.
Qed.

(** * The cleanup loop *)

Lemma inorder_nil t : inorder t = [] → t = Leaf.
Proof.
  destruct t as [|l a r]; [done|]. simpl. intros H.
  by apply app_eq_nil in H as [_ ?].
Qed.

Lemma free_run s a :
  is_Some (st_heap s !! a) →
  free (Some a) s = Done tt (mk_state (st_root s) (delete a (st_heap s))).
Proof. intros [nd Hnd]. unfold free. by rewrite Hnd. Qed.

Lemma cleanup_from_spec (inner : nat) : ∀ l s T (fuel : nat),
  tree_in s T → heights_ok (st_heap s) T → height T <= 127 →
  inorder T = l → (length l <= fuel)%nat → (256 * length l <= inner)%nat →
  ∃ s', cleanup_from fuel inner (head l) s = Done tt s' ∧ st_root s' = None ∧
        dom (st_heap s') = dom (st_heap s) ∖ list_to_set l.
Proof.
  induction l as [|n l2 IH]; intros s T fuel HT Hh Hbound Hin Hfuel Hinner.
  - exists s. apply inorder_nil in Hin. subst T. destruct HT as [Hs _].
    simpl in Hs. split_and!; [by destruct fuel | done | set_solver].
  - cbn [length] in Hfuel, Hinner. destruct fuel as [|fuel]; [lia|].
    cbn [head cleanup_from].
    assert (length (inorder T) = S (length l2)) as Hlen by (by rewrite Hin).
    rewrite (bind_Done _ _ _ _ _
               (avl_next_successor s T [] n l2 inner HT Hin ltac:(lia))).
    assert (n ∈ inorder T) as Hn by (rewrite Hin; by left).
    pose proof HT as [_ Hnodup].
    destruct (tree_in_focus s T n HT Hn) as (c & lt & r & par & -> & Hc & Ht & Hdup).
    rewrite inorder_plug in Hin, Hnodup. cbn [inorder] in Hin, Hnodup.
    rewrite <- app_assoc in Hin, Hnodup. cbn [app] in Hin, Hnodup.
    rewrite app_assoc in Hin, Hnodup.
    pose proof Hnodup as Hnd'.
    destruct (nodup_split_unique n _ _ [] l2 Hnd' Hin) as [Hpre Hl2].
    apply app_eq_nil in Hpre as [Hcb Hlt]. apply inorder_nil in Hlt. subst lt.
    destruct (avl_erase_spec s c Leaf n r par Hc Ht Hdup Hh Hbound ltac:(by left))
      as (s1 & T1 & Hrun & HT1 & Hh1 & _ & Hin1 & Hle1).
    assert (length c < length (inorder (plug c (Node Leaf n r))))%nat as Hc_len.
    { rewrite inorder_plug_perm, length_app. pose proof (ctx_length_dom c).
      simpl. lia. }
    specialize (Hrun inner ltac:(lia)).
    rewrite (bind_Done _ _ _ _ _ Hrun).
    pose proof (keeps_alloc_avl_erase inner (Some n) s tt s1 Hrun) as Hdom.
    assert (is_Some (st_heap s !! n)) as Halloc by (by eapply shape_alloc).
    assert (is_Some (st_heap s1 !! n)) as Halloc1.
    { apply elem_of_dom. rewrite Hdom. by apply elem_of_dom. }
    rewrite (bind_Done _ _ _ _ _ (free_run s1 n Halloc1)).
    set (s2 := mk_state (st_root s1) (delete n (st_heap s1))).
    rewrite Hcb in Hin1. cbn [inorder app] in Hin1. rewrite Hl2 in Hin1.
    assert (n ∉ l2) as Hnl2.
    { rewrite Hin in Hnd'. by apply NoDup_cons in Hnd' as [? _]. }
    destruct (IH s2 T1 fuel) as (s' & Hrun' & Hroot & Hdom'); try done; try lia.
    + destruct HT1 as [Hs1 Hnd1]. split; [|done].
      eapply shape_ext; [|exact Hs1]. intros a Ha. simpl.
      apply lookup_delete_ne. intros ->. by rewrite Hin1 in Ha.
    + eapply heights_ok_ext; [|exact Hh1]. intros a Ha. unfold stored_height. simpl.
      rewrite lookup_delete_ne; [done|]. intros ->. by rewrite Hin1 in Ha.
    + exists s'. split_and!; [done..|].
      rewrite Hdom'. simpl. rewrite dom_delete_L, Hdom. set_solver.
Qed.

(** X12: the cleanup loop of [main] on a well-formed tree with correct heights of
    at most 127: every iteration erases the first node in in-order sequence,
    which has no left child; the loop returns without a fault (no node is
    used after it is freed), the tree is then empty, and exactly the nodes of
    the tree have been freed. *)
Theorem cleanup_empties_tree s T (fuel : nat) :
  tree_in s T → heights_ok (st_heap s) T → height T <= 127 →
  (256 * length (inorder T) <= fuel)%nat →
  ∃ s', cleanup fuel s = Done tt s' ∧ st_root s' = None ∧
        dom (st_heap s') = dom (st_heap s) ∖ list_to_set (inorder T).
Proof.
  intros HT Hh Hbound Hfuel. unfold cleanup.
  rewrite (bind_Done _ _ _ _ _ (avl_first_head s T fuel HT ltac:(lia))).
  apply (cleanup_from_spec fuel (inorder T) s T fuel); (done || lia).
Qed.


(** * Erasing by key *)

Lemma keys_sorted_remove keys l1 a l2 :
  keys_sorted keys (l1 ++ a :: l2) → keys_sorted keys (l1 ++ l2).
Proof.
  intros (H1 & (_ & H2 & _)%keys_sorted_cons & H12)%keys_sorted_app.
  apply keys_sorted_app. split_and!; [done..|].
  intros x y Hx Hy. apply H12; [done|]. by right.
Qed.

(** Erasing a node with at most one child and then freeing it: the node is
    no longer allocated, and the tree that is left does not refer to it. *)
Lemma avl_erase_free_spec s c l n r par :
  ctx_shape (st_heap s) c (Some n) par (st_root s) →
  shape (st_heap s) par (Some n) (Node l n r) →
  NoDup (inorder (Node l n r) ++ ctx_dom c) →
  heights_ok (st_heap s) (plug c (Node l n r)) →
  height (plug c (Node l n r)) <= 127 →
  l = Leaf ∨ r = Leaf →
  ∃ s' T',
    (∀ fuel : nat, (256 * length c <= fuel)%nat →
       (avl_erase fuel (Some n);; free (Some n)) s = Done tt s') ∧
    tree_in s' T' ∧ heights_ok (st_heap s') T' ∧
    (balanced (plug c (Node l n r)) → balanced T') ∧
    inorder T' = ctx_before c ++ inorder l ++ inorder r ++ ctx_after c ∧
    st_heap s' !! n = None.
Proof.
  intros Hc Ht Hdup Hh Hbound Hleaf.
  destruct (avl_erase_spec s c l n r par Hc Ht Hdup Hh Hbound Hleaf)
    as (s1 & T' & Hrun & HT1 & Hh1 & Hb1 & Hin1 & _).
  pose proof (keeps_alloc_avl_erase _ (Some n) s tt s1 (Hrun _ (Nat.le_refl _)))
    as Hdom.
  assert (is_Some (st_heap s1 !! n)) as Halloc1.
  { apply elem_of_dom. rewrite Hdom. apply elem_of_dom. by eapply shape_alloc. }
  assert (n ∉ inorder T') as Hn.
  { pose proof (tree_in_plug s c _ _ _ Hc Ht Hdup) as [_ Hnd].
    rewrite inorder_plug in Hnd. cbn [inorder] in Hnd.
    rewrite Hin1. intros Hin.
    assert (Hp : ctx_before c ++ (inorder l ++ n :: inorder r) ++ ctx_after c
                 ≡ₚ n :: ctx_before c ++ inorder l ++ inorder r ++ ctx_after c)
      by solve_Permutation.
    rewrite Hp in Hnd. by apply NoDup_cons in Hnd as [? _]. }
  exists (mk_state (st_root s1) (delete n (st_heap s1))), T'.
  split_and!; [|..|done|done|].
  - intros fuel Hfuel. rewrite (bind_Done _ _ _ _ _ (Hrun fuel Hfuel)).
    by apply free_run.
  - destruct HT1 as [Hs1 Hnd1]. split; [|done].
    eapply shape_ext; [|exact Hs1]. intros a Ha. simpl.
    apply lookup_delete_ne. by intros ->.
  - eapply heights_ok_ext; [|exact Hh1]. intros a Ha. unfold stored_height. simpl.
    rewrite lookup_delete_ne; [done|]. by intros ->.
  - simpl. apply lookup_delete_eq.
Qed.

(** X11: one round of the deletion loop of [main] (the search, [avl_erase]
    and [free]) for a key [k] in an AVL tree with sorted keys, when some node
    holds [k] and every node that holds [k] has at most one child: the round
    returns, a node [a] holding [k] is gone from the in-order sequence and is
    no longer allocated, the other nodes keep their order, and the memory
    holds an AVL tree with sorted keys. *)
Theorem delete_key_removes_node s T keys k (fuel : nat) :
  avl_tree_in s T → height T <= 127 → keys_sorted keys (inorder T) →
  (∃ a, a ∈ inorder T ∧ keys !! a = Some k) →
  (∀ a nd, a ∈ inorder T → keys !! a = Some k → st_heap s !! a = Some nd →
     avl_left nd = None ∨ avl_right nd = None) →
  (256 * length (inorder T) <= fuel)%nat →
  ∃ s' T' a l1 l2,
    delete_key fuel keys k s = Done tt s' ∧
    keys !! a = Some k ∧ inorder T = l1 ++ a :: l2 ∧ inorder T' = l1 ++ l2 ∧
    avl_tree_in s' T' ∧ keys_sorted keys (inorder T') ∧
    st_heap s' !! a = None.
Proof.
  intros (HT & Hh & Hbal) Hbound Hsort (a0 & Ha0 & Hk0) Hone Hfuel.
  pose proof (height_le_length T) as HhT. pose proof (height_nonneg T).
  destruct HT as [Hs Hnodup].
  destruct (find_key_spec s keys k T None (st_root s) fuel Hs Hsort ltac:(lia))
    as ([a|] & Hfind & Hr); [|by destruct (Hr a0 Ha0)].
  destruct Hr as [Ha Hk].
  destruct (tree_in_focus s T a (conj Hs Hnodup) Ha)
    as (c & l & r & par & -> & Hc & Ht & Hdup).
  pose proof Ht as (_ & nd & Hnd & Hpar & Hnl & Hnr & Hsl & Hsr)%shape_node_inv.
  assert (l = Leaf ∨ r = Leaf) as Hleaf.
  { destruct (Hone a nd Ha Hk Hnd) as [Hl|Hr]; [left|right].
    - rewrite Hnl in Hl. by destruct l.
    - rewrite Hnr in Hr. by destruct r. }
  destruct (avl_erase_free_spec s c l a r par Hc Ht Hdup Hh Hbound Hleaf)
    as (s' & T' & Hrun & HT' & Hh' & Hb' & Hin' & Hfreed).
  exists s', T', a, (ctx_before c ++ inorder l), (inorder r ++ ctx_after c).
  assert (inorder (plug c (Node l a r))
          = (ctx_before c ++ inorder l) ++ a :: inorder r ++ ctx_after c) as Hin.
  { rewrite inorder_plug. simpl. by rewrite <- !app_assoc. }
  assert (inorder T' = (ctx_before c ++ inorder l) ++ inorder r ++ ctx_after c)
    as Hin2.
  { rewrite Hin'. by rewrite <- !app_assoc. }
  split_and!; try done.
  - unfold delete_key, bind at 1, get_root.
    rewrite (bind_Done _ _ _ _ _ Hfind). apply Hrun.
    assert (length c <= length (inorder (plug c (Node l a r))))%nat; [|lia].
    rewrite inorder_plug_perm, length_app. pose proof (ctx_length_dom c). lia.
  - split_and!; [done..|by apply Hb'].
  - rewrite Hin2. eapply keys_sorted_remove. by rewrite <- Hin.
Qed.

(** * Erasing a node with two children *)

(** The first node of a non-empty subtree: it has no left child, and the
    subtree's in-order sequence is that node, then its right subtree, then
    the rest. *)
Lemma shape_leftmost h : ∀ r par p,
  r ≠ Leaf → shape h par p r →
  ∃ succ snd sr rest,
    inorder r = succ :: inorder sr ++ rest ∧
    h !! succ = Some snd ∧ avl_left snd = None ∧
    shape h (Some succ) (avl_right snd) sr ∧
    (heights_ok h r → heights_ok h sr) ∧
    height sr < height r.
Proof.
  induction r as [|l IHl a r' _]; intros par p Hne Hs; [done|].
  destruct Hs as (-> & nd & Ha & Hp & Hl & Hr).
  pose proof (height_nonneg l). pose proof (height_nonneg r').
  destruct l as [|ll b lr].
  - exists a, nd, r', []. simpl in Hl. split_and!; try done.
    + simpl. by rewrite app_nil_r.
    + by intros (_ & _ & ?).
    + simpl. lia.
  - destruct (IHl (Some a) (avl_left nd) ltac:(done) Hl)
      as (succ & snd & sr & rest & Hin & Hsucc & Hsl & Hsr & Hh & Hlt).
    exists succ, snd, sr, (rest ++ a :: inorder r'). split_and!; try done.
    + cbn [inorder] in *. rewrite Hin. simpl. by rewrite <- app_assoc.
    + intros (_ & ? & _). by apply Hh.
    + cbn [height] in *. lia.
Qed.

(** The splice of [avl_erase] for a node [n] with two children that is the
    root or a right child, up to the call of [avl_rebalance]: the slot of
    [n] receives the right child of the successor of [n]. *)
Lemma avl_erase_two_splice s c par l n r succ snd sr rest :
  ctx_shape (st_heap s) c (Some n) par (st_root s) →
  shape (st_heap s) par (Some n) (Node l n r) →
  NoDup (inorder (Node l n r) ++ ctx_dom c) →
  l ≠ Leaf → ctx_side c = false →
  inorder r = succ :: inorder sr ++ rest →
  st_heap s !! succ = Some snd → avl_left snd = None →
  shape (st_heap s) (Some succ) (avl_right snd) sr →
  ∃ s1, (∀ fuel : nat, (length (inorder r) <= fuel)%nat →
           avl_erase fuel (Some n) s = avl_rebalance fuel par s1) ∧
        ctx_shape (st_heap s1) c (tree_top sr) par (st_root s1) ∧
        shape (st_heap s1) par (tree_top sr) sr ∧
        (∀ a, stored_height (st_heap s1) (Some a) = stored_height (st_heap s) (Some a)).
Proof.
  destruct s as [rt h]. cbn [st_heap st_root].
  intros Hc Ht Hnd Hl Hside Hin Hsucc Hsl Hsr.
  pose proof Ht as (_ & [np nl nr nh] & Hn & Hnp & Hnl & Hnr & Hshl & Hshr)%shape_node_inv.
  cbn [avl_parent avl_left avl_right] in *.
  assert (∀ fuel : nat, (length (inorder r) <= fuel)%nat →
            avl_subtree_min fuel nr (mk_state rt h) = Done (Some succ) (mk_state rt h))
    as Hmin.
  { intros fuel Hfuel. subst nr.
    rewrite (avl_subtree_min_head (mk_state rt h) r (Some n) _ fuel Hshr Hfuel).
    by rewrite Hin. }
  destruct l as [|ll ltop lr]; [done|]. cbn [tree_top] in Hnl.
  destruct nr as [rtop|]; [|destruct r; [done|discriminate]].
  subst np nl. clear Ht Hshl Hshr Hnr.
  destruct snd as [sp sl sright sh]. cbn [avl_left avl_right] in *. subst sl.
  cbn [inorder] in Hnd. rewrite Hin in Hnd.
  destruct sr as [|srl ch srr]; cbn [shape] in Hsr;
    [ subst sright
    | destruct Hsr as (-> & [chp chl chr chh] & Hch & Hchp & Hcl & Hcr);
      cbn [avl_parent avl_left avl_right] in *; subst ];
    (destruct c as [|[g sib|sib g] c]; cbn [ctx_shape] in Hc;
     [ destruct Hc as [-> ->]
     | done
     | destruct Hc as (-> & [gp gl gr gh] & Hg & Hgl & Hsib & Hc);
       cbn [avl_parent avl_left avl_right] in *; subst ]);
    nodup_split;
    (eexists; split;
     [ intros fuel Hfuel; unfold avl_erase; mrun; rewrite (Hmin fuel Hfuel); mrun;
       try (mbool; mrun); reflexivity | ]);
    cbn [tree_top];
    (split; [ first [ done | mnode; msub ] | ]);
    (split; [ first [ done | mnode; msub ] | ]);
    mhframe.
Qed.

(** X15: [avl_erase] of a node [n] with two children that is the root or the
    right child of its parent, in a well-formed tree with correct heights:
    the parent variable is the one read before the successor was chosen, so
    the slot of [n] itself receives the right child of the successor.  With
    [lt] and [rt] the left and right subtrees of [n], [succ] the first node
    of [rt] and [sr] the right subtree of [succ], the tree is
    [l1 ++ inorder lt ++ n :: inorder rt ++ l2] in in-order sequence, and the
    call returns with a well-formed tree with correct heights whose in-order
    sequence is [l1 ++ inorder sr ++ l2]: the subtree [sr] stands in the
    place of the whole subtree of [n], so that [lt] (which is not empty),
    [n], [succ] and the rest of [rt] are all gone. *)
Theorem erase_two_children_replaces_subtree s T n nd :
  tree_in s T → heights_ok (st_heap s) T → height T <= 127 →
  n ∈ inorder T → st_heap s !! n = Some nd →
  avl_left nd ≠ None → avl_right nd ≠ None →
  (avl_parent nd = None ∨
   ∃ g gnd, avl_parent nd = Some g ∧ st_heap s !! g = Some gnd ∧
            avl_right gnd = Some n) →
  ∃ s' T' l1 lt rt succ snd sr rest l2,
    shape (st_heap s) (Some n) (avl_left nd) lt ∧
    shape (st_heap s) (Some n) (avl_right nd) rt ∧
    inorder rt = succ :: inorder sr ++ rest ∧
    st_heap s !! succ = Some snd ∧ avl_left snd = None ∧
    shape (st_heap s) (Some succ) (avl_right snd) sr ∧
    inorder T = l1 ++ inorder lt ++ n :: inorder rt ++ l2 ∧
    (∀ fuel : nat, (256 * length (inorder T) <= fuel)%nat →
       avl_erase fuel (Some n) s = Done tt s') ∧
    tree_in s' T' ∧ heights_ok (st_heap s') T' ∧
    inorder T' = l1 ++ inorder sr ++ l2.
Proof.
  intros HT Hh Hbound Hn Hnd Hleft Hright Hpos.
  destruct (tree_in_focus s T n HT Hn) as (c & l & r & par & -> & Hc & Ht & Hdup).
  pose proof Ht as (_ & nd' & Hnd' & Hpar & Hnl & Hnr & Hsl & Hsr)%shape_node_inv.
  rewrite Hnd in Hnd'. injection Hnd' as <-.
  assert (l ≠ Leaf) as Hl by (intros ->; by apply Hleft).
  assert (r ≠ Leaf) as Hr by (intros ->; by apply Hright).
  assert (ctx_side c = false) as Hside.
  { destruct c as [|[g sib|sib g] c]; [done| |done]. exfalso.
    destruct Hc as (-> & gnd & Hg & Hgl & Hsib & _).
    destruct Hpos as [Hp|(g' & gnd' & Hp & Hg' & Hgr)]; [by rewrite Hpar in Hp|].
    rewrite Hpar in Hp. injection Hp as <-. rewrite Hg in Hg'. injection Hg' as <-.
    rewrite Hgr in Hsib. apply shape_top_in in Hsib.
    nodup_split. nd_false. }
  destruct (shape_leftmost _ r (Some n) (tree_top r) Hr Hsr)
    as (succ & snd & sr & rest & Hin & Hsucc & Hsuccl & Hssr & Hhsr & Hlt).
  destruct (avl_erase_two_splice s c par l n r succ snd sr rest
              Hc Ht Hdup Hl Hside Hin Hsucc Hsuccl Hssr)
    as (s1 & Hsplice & Hc1 & Ht1 & Hk1).
  destruct (heights_ok_plug_inv _ _ _ Hh) as ((_ & Hhl & Hhr) & Hsib).
  assert (heights_ok (st_heap s1) sr) as Hh1.
  { eapply heights_ok_ext; [intros a _; apply Hk1|]. by apply Hhsr. }
  assert (Forall (λ f, heights_ok (st_heap s1) (frame_sib f)) c) as Hsib1.
  { eapply Forall_impl; [exact Hsib|]. intros f Hf.
    eapply heights_ok_ext; [intros a _; apply Hk1|done]. }
  assert (height sr <= height (Node l n r)) as Hle.
  { pose proof (height_nonneg l). simpl. lia. }
  assert (NoDup (inorder sr ++ ctx_dom c)) as Hdup1.
  { cbn [inorder] in Hdup. rewrite Hin in Hdup.
    apply NoDup_app in Hdup as (H1 & Hd & H2).
    apply NoDup_app. split_and!; [|intros a Ha; apply (Hd a); in_solve|done].
    apply NoDup_app in H1 as (_ & _ & H1). apply NoDup_cons in H1 as [_ H1].
    apply NoDup_cons in H1 as [_ H1]. by apply NoDup_app in H1 as (? & _). }
  assert (inorder (plug c (Node l n r))
          = ctx_before c ++ inorder l ++ n :: inorder r ++ ctx_after c)
    as Hio.
  { rewrite inorder_plug. cbn [inorder].
    repeat (rewrite <- app_assoc; simpl). done. }
  assert (length (inorder r) <= length (inorder (plug c (Node l n r))))%nat as Hlr.
  { rewrite inorder_plug_perm, length_app. simpl. rewrite length_app. simpl. lia. }
  assert (length c <= length (inorder (plug c (Node l n r))))%nat as Hlc.
  { rewrite inorder_plug_perm, length_app. pose proof (ctx_length_dom c). lia. }
  destruct c as [|f c].
  - destruct Hc1 as (Hp1 & Hrt1).
    exists s1, sr, [], l, r, succ, snd, sr, rest, [].
    split_and!; try done.
    + by rewrite Hnl.
    + by rewrite Hnr.
    + intros fuel Hfuel. rewrite Hsplice by lia. rewrite Hp1.
      apply avl_rebalance_null.
    + split; [by rewrite Hrt1, <- Hp1 | by rewrite app_nil_r in Hdup1].
    + simpl. by rewrite app_nil_r.
  - pose proof (ctx_shape_par _ _ _ _ _ Hc1) as Hpar1. cbn [ctx_par] in Hpar1.
    rewrite Hpar1 in Hc1, Ht1.
    assert (walk_inv s1 c (fill f sr)) as Hinv.
    { apply walk_inv_up; [done..|].
      etrans; [|exact Hbound]. by apply height_plug_mono. }
    assert (∃ s' T',
      (∀ fuel : nat, (walk_fuel c (fill f sr) < fuel)%nat →
         avl_rebalance fuel (Some (frame_addr f)) s1 = Done tt s') ∧
      tree_in s' T' ∧ heights_ok (st_heap s') T' ∧ (False → balanced T') ∧
      inorder T' = inorder (plug c (fill f sr)) ∧
      height T' <= height (plug c (fill f sr)))
      as (s' & T' & Hrun & HT' & HhT' & _ & Hin' & _).
    { destruct f as [g sib|sib g]; cbn [fill frame_addr] in *;
        by apply avl_rebalance_full. }
    exists s', T', (ctx_before (f :: c)), l, r, succ, snd, sr, rest,
      (ctx_after (f :: c)).
    split_and!; try done.
    + by rewrite Hnl.
    + by rewrite Hnr.
    + intros fuel Hfuel. rewrite Hsplice by lia. rewrite Hpar1. apply Hrun.
      unfold walk_fuel.
      assert (height (fill f sr) <= 127) as Hf127.
      { destruct Hinv as (_ & _ & _ & _ & _ & Hb'). etrans; [apply height_le_plug|exact Hb']. }
      pose proof (height_nonneg (fill f sr)).
      cbn [length] in Hlc.
      destruct (top_balanced (fill f sr)); lia.
    + rewrite Hin'. change (plug c (fill f sr)) with (plug (f :: c) sr).
      by rewrite inorder_plug.
Qed.


(** * Rotations are mutually inverse *)

(** The shape and the stored heights fix every field of every node. *)
Lemma shape_heights_determine h h' : ∀ t par p,
  shape h par p t → shape h' par p t →
  (∀ a, a ∈ inorder t → stored_height h' (Some a) = stored_height h (Some a)) →
  ∀ a, a ∈ inorder t → h' !! a = h !! a.
Proof.
  induction t as [|l IHl b r IHr]; intros par p Hs Hs' Hh a Ha;
    [by apply elem_of_nil in Ha|].
  destruct Hs as (_ & nd & Hb & Hp & Hl & Hr).
  destruct Hs' as (_ & nd' & Hb' & Hp' & Hl' & Hr').
  cbn [inorder] in Ha, Hh.
  apply elem_of_app in Ha as [Ha|[->|Ha]%elem_of_cons].
  - pose proof (shape_top _ _ _ _ Hl) as E. pose proof (shape_top _ _ _ _ Hl') as E'.
    rewrite E in Hl. rewrite E' in Hl'.
    apply (IHl _ _ Hl Hl'); [|done]. intros k Hk. apply Hh. in_solve.
  - assert (avl_hgt nd' = avl_hgt nd) as Hhgt.
    { specialize (Hh b ltac:(in_solve)). unfold stored_height in Hh.
      by rewrite Hb, Hb' in Hh. }
    pose proof (shape_top _ _ _ _ Hl). pose proof (shape_top _ _ _ _ Hl').
    pose proof (shape_top _ _ _ _ Hr). pose proof (shape_top _ _ _ _ Hr').
    rewrite Hb, Hb'. f_equal.
    destruct nd, nd'. simpl in *. congruence.
  - pose proof (shape_top _ _ _ _ Hr) as E. pose proof (shape_top _ _ _ _ Hr') as E'.
    rewrite E in Hr. rewrite E' in Hr'.
    apply (IHr _ _ Hr Hr'); [|done]. intros k Hk. apply Hh. in_solve.
Qed.

Lemma stored_height_kept_top (h h' : gmap addr avl_node) x y t :
  (∀ a, a ≠ x → a ≠ y → stored_height h' (Some a) = stored_height h (Some a)) →
  x ∉ inorder t → y ∉ inorder t →
  stored_height h' (tree_top t) = stored_height h (tree_top t).
Proof.
  intros Hk Hx Hy. destruct t as [|l a r]; [done|]. simpl tree_top.
  apply Hk; intros ->; [apply Hx|apply Hy]; simpl; in_solve.
Qed.

Lemma rotate_right_left_restores s c par A x B y C :
  ctx_shape (st_heap s) c (Some y) par (st_root s) →
  shape (st_heap s) par (Some y) (Node (Node A x B) y C) →
  NoDup (inorder (Node (Node A x B) y C) ++ ctx_dom c) →
  heights_ok (st_heap s) (Node (Node A x B) y C) →
  height (Node (Node A x B) y C) <= 127 →
  ∃ s1 s2,
    avl_rotate_right (Some y) s = Done tt s1 ∧
    avl_rotate_left (Some x) s1 = Done tt s2 ∧
    ctx_shape (st_heap s2) c (Some y) par (st_root s2) ∧
    shape (st_heap s2) par (Some y) (Node (Node A x B) y C) ∧
    ∀ a, stored_height (st_heap s2) (Some a) = stored_height (st_heap s) (Some a).
Proof.
  intros Hc Ht Hdup (Hhy & (Hhx & HhA & HhB) & HhC) Hbound.
  destruct (avl_rotate_right_spec s c par A x B y C Hc Ht Hdup)
    as (s1 & Hrun1 & Hc1 & Ht1 & Hk1 & Hy1 & Hx1).
  assert (NoDup (inorder (Node A x (Node B y C)) ++ ctx_dom c)) as Hdup1
    by nodup_perm Hdup.
  destruct (avl_rotate_left_spec s1 c par A x B y C Hc1 Ht1 Hdup1)
    as (s2 & Hrun2 & Hc2 & Ht2 & Hk2 & Hx2 & Hy2).
  exists s1, s2. split_and!; try done.
  pose proof Ht as (_ & ynd & _ & _ & _ & _ & HsL & HsC)%shape_node_inv.
  pose proof HsL as (_ & xnd & _ & _ & _ & _ & HsA & HsB)%shape_node_inv.
  pose proof (height_nonneg A). pose proof (height_nonneg B).
  pose proof (height_nonneg C). cbn [height] in Hbound, Hhx, Hhy.
  assert ((x ∉ inorder A) ∧ (y ∉ inorder A) ∧ (x ∉ inorder B) ∧ (y ∉ inorder B) ∧
          (x ∉ inorder C) ∧ (y ∉ inorder C)) as (HxA & HyA & HxB & HyB & HxC & HyC).
  { nodup_split. split_and!; intros ?; nd_false. }
  assert (stored_height (st_heap s1) (tree_top A) = height A) as HA1.
  { rewrite (stored_height_kept_top _ _ x y A Hk1) by done. by eapply heights_ok_top. }
  assert (stored_height (st_heap s1) (tree_top B) = height B) as HB1.
  { rewrite (stored_height_kept_top _ _ x y B Hk1) by done. by eapply heights_ok_top. }
  assert (stored_height (st_heap s1) (tree_top C) = height C) as HC1.
  { rewrite (stored_height_kept_top _ _ x y C Hk1) by done. by eapply heights_ok_top. }
  rewrite HA1, HB1 in Hx2. rewrite int8_id in Hx2 by lia.
  rewrite Hx2, HC1 in Hy2. rewrite int8_id in Hy2 by lia.
  intros a. destruct (decide (a = x)) as [->|Hax]; [rewrite Hx2, Hhx; lia|].
  destruct (decide (a = y)) as [->|Hay]; [rewrite Hy2, Hhy; lia|].
  rewrite Hk2 by done. by apply Hk1.
Qed.

Lemma rotate_left_right_restores s c par A x B y C :
  ctx_shape (st_heap s) c (Some x) par (st_root s) →
  shape (st_heap s) par (Some x) (Node A x (Node B y C)) →
  NoDup (inorder (Node A x (Node B y C)) ++ ctx_dom c) →
  heights_ok (st_heap s) (Node A x (Node B y C)) →
  height (Node A x (Node B y C)) <= 127 →
  ∃ s1 s2,
    avl_rotate_left (Some x) s = Done tt s1 ∧
    avl_rotate_right (Some y) s1 = Done tt s2 ∧
    ctx_shape (st_heap s2) c (Some x) par (st_root s2) ∧
    shape (st_heap s2) par (Some x) (Node A x (Node B y C)) ∧
    ∀ a, stored_height (st_heap s2) (Some a) = stored_height (st_heap s) (Some a).
Proof.
  intros Hc Ht Hdup (Hhx & HhA & (Hhy & HhB & HhC)) Hbound.
  destruct (avl_rotate_left_spec s c par A x B y C Hc Ht Hdup)
    as (s1 & Hrun1 & Hc1 & Ht1 & Hk1 & Hx1 & Hy1).
  assert (NoDup (inorder (Node (Node A x B) y C) ++ ctx_dom c)) as Hdup1
    by nodup_perm Hdup.
  destruct (avl_rotate_right_spec s1 c par A x B y C Hc1 Ht1 Hdup1)
    as (s2 & Hrun2 & Hc2 & Ht2 & Hk2 & Hy2 & Hx2).
  exists s1, s2. split_and!; try done.
  pose proof Ht as (_ & xnd & _ & _ & _ & _ & HsA & HsR)%shape_node_inv.
  pose proof HsR as (_ & ynd & _ & _ & _ & _ & HsB & HsC)%shape_node_inv.
  pose proof (height_nonneg A). pose proof (height_nonneg B).
  pose proof (height_nonneg C). cbn [height] in Hbound, Hhx, Hhy.
  assert ((x ∉ inorder A) ∧ (y ∉ inorder A) ∧ (x ∉ inorder B) ∧ (y ∉ inorder B) ∧
          (x ∉ inorder C) ∧ (y ∉ inorder C)) as (HxA & HyA & HxB & HyB & HxC & HyC).
  { nodup_split. split_and!; intros ?; nd_false. }
  assert (stored_height (st_heap s1) (tree_top A) = height A) as HA1.
  { rewrite (stored_height_kept_top _ _ x y A Hk1) by done. by eapply heights_ok_top. }
  assert (stored_height (st_heap s1) (tree_top B) = height B) as HB1.
  { rewrite (stored_height_kept_top _ _ x y B Hk1) by done. by eapply heights_ok_top. }
  assert (stored_height (st_heap s1) (tree_top C) = height C) as HC1.
  { rewrite (stored_height_kept_top _ _ x y C Hk1) by done. by eapply heights_ok_top. }
  rewrite HB1, HC1 in Hy2. rewrite int8_id in Hy2 by lia.
  rewrite Hy2, HA1 in Hx2. rewrite int8_id in Hx2 by lia.
  intros a. destruct (decide (a = x)) as [->|Hax]; [rewrite Hx2, Hhx; lia|].
  destruct (decide (a = y)) as [->|Hay]; [rewrite Hy2, Hhy; lia|].
  rewrite Hk2 by done. by apply Hk1.
Qed.

(** X17: in a well-formed tree with correct heights of at most 127, rotating
    right at a node and then left at the promoted child, or left and then
    right, restores the root cell and every field of every node of the
    tree. *)
Theorem rotations_are_inverse s T n nd c0 :
  tree_in s T → heights_ok (st_heap s) T → height T <= 127 →
  n ∈ inorder T → st_heap s !! n = Some nd →
  (avl_left nd = Some c0 →
   ∃ s1 s2,
     avl_rotate_right (Some n) s = Done tt s1 ∧
     avl_rotate_left (Some c0) s1 = Done tt s2 ∧
     st_root s2 = st_root s ∧
     ∀ a, a ∈ inorder T → st_heap s2 !! a = st_heap s !! a) ∧
  (avl_right nd = Some c0 →
   ∃ s1 s2,
     avl_rotate_left (Some n) s = Done tt s1 ∧
     avl_rotate_right (Some c0) s1 = Done tt s2 ∧
     st_root s2 = st_root s ∧
     ∀ a, a ∈ inorder T → st_heap s2 !! a = st_heap s !! a).
Proof.
  intros HT Hh Hbound Hn Hnd.
  destruct (tree_in_focus s T n HT Hn) as (c & l & r & par & -> & Hc & Ht & Hdup).
  pose proof Ht as (_ & nd' & Hnd' & Hpar & Hl & Hr).
  rewrite Hnd in Hnd'. injection Hnd' as <-.
  destruct (heights_ok_plug_inv _ _ _ Hh) as (Hht & _).
  assert (height (Node l n r) <= 127) as Hb
    by (etrans; [apply height_le_plug|exact Hbound]).
  destruct HT as [HsT _].
  split; intros Hc0.
  - rewrite Hc0 in Hl. destruct l as [|A x B]; [done|].
    pose proof Hl as ([= <-] & _).
    destruct (rotate_right_left_restores s c par A c0 B n r Hc Ht Hdup Hht Hb)
      as (s1 & s2 & Hrun1 & Hrun2 & Hc2 & Ht2 & Hk).
    exists s1, s2. split; [done|]. split; [done|].
    pose proof (plug_shape _ _ _ _ _ _ Hc2 Ht2) as HsT2.
    split.
    + by rewrite (shape_top _ _ _ _ HsT2), (shape_top _ _ _ _ HsT).
    + rewrite (shape_top _ _ _ _ HsT2) in HsT2. rewrite (shape_top _ _ _ _ HsT) in HsT.
      apply (shape_heights_determine _ _ _ _ _ HsT HsT2). intros a _. apply Hk.
  - rewrite Hc0 in Hr. destruct r as [|B y C]; [done|].
    pose proof Hr as ([= <-] & _).
    destruct (rotate_left_right_restores s c par l n B c0 C Hc Ht Hdup Hht Hb)
      as (s1 & s2 & Hrun1 & Hrun2 & Hc2 & Ht2 & Hk).
    exists s1, s2. split; [done|]. split; [done|].
    pose proof (plug_shape _ _ _ _ _ _ Hc2 Ht2) as HsT2.
    split.
    + by rewrite (shape_top _ _ _ _ HsT2), (shape_top _ _ _ _ HsT).
    + rewrite (shape_top _ _ _ _ HsT2) in HsT2. rewrite (shape_top _ _ _ _ HsT) in HsT.
      apply (shape_heights_determine _ _ _ _ _ HsT HsT2). intros a _. apply Hk.
Qed.


(** * Erasing a left child with two children *)

Lemma left_walk_unique h a b b' : left_walk h a b → left_walk h a b' → b = b'.
Proof.
  intros H. revert b'. induction H as [a nd Ha Hl|a nd l b Ha Hl Hw IH]; intros b' H'.
  - inversion H' as [a' nd' Ha' Hl'|a' nd' l' b'' Ha' Hl' Hw']; subst; [done|].
    rewrite Ha in Ha'. injection Ha' as <-. congruence.
  - inversion H' as [a' nd' Ha' Hl'|a' nd' l' b'' Ha' Hl' Hw']; subst.
    + rewrite Ha in Ha'. injection Ha' as <-. congruence.
    + rewrite Ha in Ha'. injection Ha' as <-. rewrite Hl in Hl'.
      injection Hl' as <-. by apply IH.
Qed.

Lemma shape_left_walk h : ∀ r par a,
  shape h par (Some a) r → ∃ b, head (inorder r) = Some b ∧ left_walk h a b.
Proof.
  induction r as [|l IHl x r' _]; intros par a Hs; [done|].
  destruct Hs as ([= <-] & nd & Ha & _ & Hl & _).
  rewrite head_inorder_node. destruct l as [|ll y lr].
  - exists a. split; [done|]. simpl in Hl. by eapply left_walk_stop.
  - pose proof Hl as [Hly _].
    rewrite Hly in Hl. destruct (IHl _ _ Hl) as (b & Hb & Hw).
    exists b. split; [done|]. by eapply left_walk_step.
Qed.

(** The splice of [avl_erase] for a node [n] with two children that is the
    left child of [g], when the successor of [n] has no child: the right
    child field of [g] is cleared, and [n] stays where it is. *)
Lemma avl_erase_two_left_splice s g sib c par l n r succ snd rest :
  ctx_shape (st_heap s) (InLeft g sib :: c) (Some n) par (st_root s) →
  shape (st_heap s) par (Some n) (Node l n r) →
  NoDup (inorder (Node l n r) ++ ctx_dom (InLeft g sib :: c)) →
  l ≠ Leaf →
  inorder r = succ :: rest →
  st_heap s !! succ = Some snd → avl_left snd = None → avl_right snd = None →
  ∃ s1 gp,
    (∀ fuel : nat, (length (inorder r) <= fuel)%nat →
       avl_erase fuel (Some n) s = avl_rebalance fuel (Some g) s1) ∧
    ctx_shape (st_heap s1) c (Some g) gp (st_root s1) ∧
    shape (st_heap s1) gp (Some g) (Node (Node l n r) g Leaf) ∧
    (∀ a, stored_height (st_heap s1) (Some a) = stored_height (st_heap s) (Some a)).
Proof.
  destruct s as [rt h]. cbn [st_heap st_root].
  intros Hc Ht Hnd Hl Hin Hsucc Hsl Hsr.
  pose proof Ht as (_ & [np nl nr nh] & Hn & Hnp & Hnl & Hnr & Hshl & Hshr)%shape_node_inv.
  cbn [avl_parent avl_left avl_right] in *.
  assert (∀ fuel : nat, (length (inorder r) <= fuel)%nat →
            avl_subtree_min fuel nr (mk_state rt h) = Done (Some succ) (mk_state rt h))
    as Hmin.
  { intros fuel Hfuel. subst nr.
    rewrite (avl_subtree_min_head (mk_state rt h) r (Some n) _ fuel Hshr Hfuel).
    by rewrite Hin. }
  destruct l as [|ll ltop lr]; [done|]. cbn [tree_top] in Hnl.
  destruct nr as [rtop|]; [|destruct r; [done|discriminate]].
  subst np nl. clear Hshl Hshr Hnr.
  destruct snd as [sp sl sright sh]. cbn [avl_left avl_right] in *. subst sl sright.
  cbn [ctx_shape] in Hc.
  destruct Hc as (-> & [gp gl gr gh] & Hg & Hgl & Hsib & Hc).
  cbn [avl_parent avl_left avl_right] in *. subst.
  assert (succ ≠ n ∧ succ ≠ g ∧ n ≠ g) as (Hsn & Hsg & Hng).
  { cbn [inorder ctx_dom frame_addr frame_sib] in Hnd. rewrite Hin in Hnd.
    nodup_split. split_and!; intros ?; simplify_eq; nd_false. }
  assert (g ∉ inorder (Node (Node ll ltop lr) n r)) as Hgt.
  { apply NoDup_app in Hnd as (_ & Hd & _). intros Hin'. apply (Hd g Hin').
    simpl. by left. }
  nodup_split.
  eexists; exists gp; split;
    [ intros fuel Hfuel; unfold avl_erase; mrun; rewrite (Hmin fuel Hfuel); mrun;
      try (mbool; mrun); reflexivity | ].
  split; [ first [ done | msub ] | ].
  split; [ | mhframe ].
  cbn [st_heap]. split; [reflexivity|]. eexists.
  split; [repeat mlookup; reflexivity|].
  cbn [avl_parent avl_left avl_right]. split; [reflexivity|]. split; [|reflexivity].
  eapply shape_ext; [|exact Ht]. intros a Ha.
  rewrite lookup_insert_ne; [done|]. by intros <-.
Qed.

(** X16: [avl_erase] of a node [n] with two children that is the left child of
    its parent [g], when the successor of [n] has no child, in a well-formed
    tree with correct heights: the parent variable is the one read before the
    successor was chosen, and the successor is not the left child of [g], so
    the right child field of [g] is cleared.  The call returns, and the
    memory holds a well-formed tree with correct heights in which [n] and its
    subtree are where they were, while the right subtree of [g] is gone from
    the in-order sequence. *)
Theorem erase_left_child_drops_sibling s T n nd g gnd rtop succ snd :
  tree_in s T → heights_ok (st_heap s) T → height T <= 127 →
  n ∈ inorder T → st_heap s !! n = Some nd →
  avl_left nd ≠ None → avl_right nd = Some rtop →
  avl_parent nd = Some g → st_heap s !! g = Some gnd → avl_left gnd = Some n →
  left_walk (st_heap s) rtop succ → st_heap s !! succ = Some snd →
  avl_right snd = None →
  ∃ s' T' l1 tn sib l2,
    shape (st_heap s) (Some g) (Some n) tn ∧
    shape (st_heap s) (Some g) (avl_right gnd) sib ∧
    inorder T = l1 ++ inorder tn ++ g :: inorder sib ++ l2 ∧
    (∀ fuel : nat, (256 * length (inorder T) <= fuel)%nat →
       avl_erase fuel (Some n) s = Done tt s') ∧
    tree_in s' T' ∧ heights_ok (st_heap s') T' ∧
    inorder T' = l1 ++ inorder tn ++ g :: l2.
Proof.
  intros HT Hh Hbound Hn Hnd Hleft Hright Hparent Hg Hgleft Hwalk Hsucc Hsuccr.
  destruct (tree_in_focus s T n HT Hn) as (c & l & r & par & -> & Hc & Ht & Hdup).
  pose proof Ht as (_ & nd' & Hnd' & Hpar & Hnl & Hnr & Hsl & Hsr)%shape_node_inv.
  rewrite Hnd in Hnd'. injection Hnd' as <-.
  assert (l ≠ Leaf) as Hl by (intros ->; by apply Hleft).
  assert (r ≠ Leaf) as Hr by (intros ->; by rewrite Hright in Hnr).
  rewrite Hparent in Hpar. subst par.
  destruct c as [|[g' sib|sib g'] c].
  { by destruct Hc as [? _]. }
  2:{ exfalso. destruct Hc as ([= <-] & gnd' & Hg' & Hgr & Hsib & _).
      rewrite Hg in Hg'. injection Hg' as <-. rewrite Hgleft in Hsib.
      apply shape_top_in in Hsib. nodup_split. nd_false. }
  pose proof Hc as ([= <-] & gnd' & Hg' & _ & Hsib & Hcc).
  rewrite Hg in Hg'. injection Hg' as <-.
  destruct (shape_leftmost _ r (Some n) (tree_top r) Hr Hsr)
    as (succ' & snd' & sr & rest & Hin & Hsucc' & Hsuccl & Hssr & _ & _).
  assert (succ' = succ) as ->.
  { rewrite <- Hnr, Hright in Hsr.
    destruct (shape_left_walk _ _ _ _ Hsr) as (b & Hb & Hw).
    rewrite Hin in Hb. injection Hb as <-. by eapply left_walk_unique. }
  rewrite Hsucc in Hsucc'. injection Hsucc' as <-.
  rewrite Hsuccr in Hssr. apply shape_top in Hssr.
  destruct sr as [|? ? ?]; [|done]. simpl in Hin.
  destruct (avl_erase_two_left_splice s g sib c (Some g) l n r succ snd rest
              Hc Ht Hdup Hl Hin Hsucc Hsuccl Hsuccr)
    as (s1 & gp & Hsplice & Hc1 & Ht1 & Hk1).
  pose proof (ctx_shape_par _ _ _ _ _ Hc1) as ->.
  destruct (heights_ok_plug_inv _ _ _ Hh) as (Hht & Hsibs).
  apply Forall_cons in Hsibs as [_ Hsibs].
  assert (walk_inv s1 c (Node (Node l n r) g Leaf)) as Hinv.
  { split_and!; [done|done| | | |].
    - cbn [inorder ctx_dom frame_addr frame_sib] in Hdup |- *.
      assert (Hp : (inorder l ++ n :: inorder r) ++ g :: inorder sib ++ ctx_dom c
                   ≡ₚ inorder sib ++
                      (((inorder l ++ n :: inorder r) ++ [g]) ++ ctx_dom c))
        by solve_Permutation.
      rewrite Hp in Hdup. by apply NoDup_app in Hdup as (_ & _ & ?).
    - split; [|done]. eapply heights_ok_ext; [intros a _; apply Hk1|done].
    - eapply Forall_impl; [exact Hsibs|]. intros f Hf.
      eapply heights_ok_ext; [intros a _; apply Hk1|done].
    - etrans; [|exact Hbound].
      change (plug (InLeft g sib :: c) (Node l n r))
        with (plug c (Node (Node l n r) g sib)).
      apply height_plug_mono. pose proof (height_nonneg sib). simpl. lia. }
  destruct (avl_rebalance_full False s1 c (Node l n r) g Leaf Hinv)
    as (s' & T' & Hrun & HT' & HhT' & _ & Hin' & _); [done|].
  exists s', T', (ctx_before c), (Node l n r), sib, (ctx_after c).
  split_and!; try done.
  - change (plug (InLeft g sib :: c) (Node l n r))
      with (plug c (Node (Node l n r) g sib)).
    rewrite inorder_plug. simpl. by rewrite <- !app_assoc.
  - intros fuel Hfuel.
    assert (length (inorder r) <= length (inorder (plug (InLeft g sib :: c) (Node l n r))))%nat
      as Hlr.
    { rewrite inorder_plug_perm, length_app. simpl. rewrite length_app. simpl. lia. }
    assert (S (length c) <= length (inorder (plug (InLeft g sib :: c) (Node l n r))))%nat
      as Hlc.
    { rewrite inorder_plug_perm, length_app.
      pose proof (ctx_length_dom (InLeft g sib :: c)). simpl in *. lia. }
    rewrite Hsplice by lia. apply Hrun. unfold walk_fuel.
    assert (height (Node (Node l n r) g Leaf) <= 127) as Hf127.
    { destruct Hinv as (_ & _ & _ & _ & _ & Hb'). etrans; [apply height_le_plug|exact Hb']. }
    pose proof (height_nonneg (Node (Node l n r) g Leaf)).
    destruct (top_balanced (Node (Node l n r) g Leaf)); lia.
  - rewrite Hin', inorder_plug. simpl. by rewrite <- !app_assoc.
Qed.

(** * The height of an AVL tree *)

(** X18: in an AVL tree with [n] nodes, the height [h] stored at the root
    satisfies [2 ^ (h / 2) <= n + 1]; with fewer than [2 ^ 62] nodes it is at
    most 125, within the range of the [int8_t] height field. *)
Theorem avl_height_is_logarithmic s T :
  avl_tree_in s T →
  2 ^ (stored_height (st_heap s) (st_root s) / 2)
    <= Z.of_nat (length (inorder T)) + 1 ∧
  (Z.of_nat (length (inorder T)) + 1 <= 2 ^ 62 →
   stored_height (st_heap s) (st_root s) <= 125).
Proof.
  intros ((Hs & _) & Hh & Hb).
  rewrite (heights_ok_top _ _ _ _ Hs Hh). split.
  - by apply avl_height_log.
  - by apply avl_height_bound.
Qed.


(** * Erasing, then printing *)

(** X20: a round of the deletion loop of [main] (the search, [avl_erase] and
    [free]) followed by [print_inorder], for a key [k] in an AVL tree with
    sorted keys, when some node holds [k] and every node that holds [k] has
    at most one child: both return, and what is printed is the sequence of
    keys of the tree with one occurrence of [k] taken out. *)
Theorem delete_key_then_print s T keys k (fuel : nat) :
  avl_tree_in s T → height T <= 127 → keys_sorted keys (inorder T) →
  (∃ a, a ∈ inorder T ∧ keys !! a = Some k) →
  (∀ a nd, a ∈ inorder T → keys !! a = Some k → st_heap s !! a = Some nd →
     avl_left nd = None ∨ avl_right nd = None) →
  (256 * length (inorder T) <= fuel)%nat →
  ∃ s' ks1 ks2,
    key_at keys <$> inorder T = ks1 ++ k :: ks2 ∧
    (delete_key fuel keys k;; print_inorder fuel keys) s = Done (ks1 ++ ks2) s'.
Proof.
  intros (HT & Hh & Hbal) Hbound Hsort (a0 & Ha0 & Hk0) Hone Hfuel.
  pose proof (height_le_length T) as HhT. pose proof (height_nonneg T).
  destruct HT as [Hs Hnodup].
  destruct (find_key_spec s keys k T None (st_root s) fuel Hs Hsort ltac:(lia))
    as ([a|] & Hfind & Hr); [|by destruct (Hr a0 Ha0)].
  destruct Hr as [Ha Hk].
  destruct (tree_in_focus s T a (conj Hs Hnodup) Ha)
    as (c & l & r & par & -> & Hc & Ht & Hdup).
  pose proof Ht as (_ & nd & Hnd & Hpar & Hnl & Hnr & Hsl & Hsr)%shape_node_inv.
  assert (l = Leaf ∨ r = Leaf) as Hleaf.
  { destruct (Hone a nd Ha Hk Hnd) as [Hl|Hr]; [left|right].
    - rewrite Hnl in Hl. by destruct l.
    - rewrite Hnr in Hr. by destruct r. }
  destruct (avl_erase_free_spec s c l a r par Hc Ht Hdup Hh Hbound Hleaf)
    as (s' & T' & Hrun & HT' & Hh' & Hb' & Hin' & _).
  assert (inorder (plug c (Node l a r))
          = (ctx_before c ++ inorder l) ++ a :: inorder r ++ ctx_after c) as Hin.
  { rewrite inorder_plug. simpl. by rewrite <- !app_assoc. }
  assert (inorder T' = (ctx_before c ++ inorder l) ++ inorder r ++ ctx_after c)
    as Hin2.
  { rewrite Hin'. by rewrite <- !app_assoc. }
  assert (keys_sorted keys (inorder T')) as [Hkeys' _].
  { rewrite Hin2. eapply keys_sorted_remove. by rewrite <- Hin. }
  assert (length c <= length (inorder (plug c (Node l a r))))%nat as Hlc.
  { rewrite inorder_plug_perm, length_app. pose proof (ctx_length_dom c). lia. }
  assert (delete_key fuel keys k s = Done tt s') as Hdelete.
  { unfold delete_key, bind at 1, get_root.
    rewrite (bind_Done _ _ _ _ _ Hfind). apply Hrun. lia. }
  exists s', (key_at keys <$> ctx_before c ++ inorder l),
    (key_at keys <$> inorder r ++ ctx_after c).
  split.
  - rewrite Hin, fmap_app, fmap_cons. f_equal. f_equal.
    unfold key_at. by rewrite Hk.
  - rewrite (bind_Done _ _ _ _ _ Hdelete).
    rewrite (print_inorder_keys s' T' keys fuel HT' Hkeys').
    + by rewrite Hin2, fmap_app.
    + rewrite Hin2. rewrite Hin in Hfuel.
      rewrite length_app in *. cbn [length] in Hfuel. lia.
Qed.


(** * Further instances on the examples *)

Lemma example_heights : heights_ok (st_heap example_state) example_tree.
Proof. apply example_avl_tree_in. Qed.

Lemma example_keys_sorted : keys_sorted example_keys (inorder example_tree).
Proof.
  split.
  - repeat constructor; by eexists.
  - vm_compute. repeat constructor; by vm_compute.
Qed.

Lemma example_spare_avl : avl_tree_in example_state_spare example_tree.
Proof.
  split_and!.
  - split.
    + repeat (first [ reflexivity | split | eexists ]).
    + simpl. compute_done.
  - vm_compute. repeat split.
  - vm_compute. repeat split; discriminate.
Qed.

Lemma avl_first_is_inorder_head_witness :
  tree_in example_state example_tree ∧
  avl_first 3 example_state = Done (Some 2%positive) example_state.
Proof.
  split; [apply example_tree_in|].
  apply (avl_first_is_inorder_head example_state example_tree 3 example_tree_in).
  simpl. lia.
Defined.

Lemma avl_next_is_inorder_successor_witness :
  tree_in example_state example_tree ∧
  avl_next 3 (Some 2%positive) example_state = Done (Some 1%positive) example_state.
Proof.
  split; [apply example_tree_in|].
  apply (avl_next_is_inorder_successor example_state example_tree []
           2%positive [1%positive; 3%positive] 3 example_tree_in).
  - reflexivity.
  - simpl. lia.
Defined.

Lemma print_inorder_lists_keys_witness :
  tree_in example_state example_tree ∧
  print_inorder 3 example_keys example_state = Done [10; 20; 30] example_state.
Proof.
  split; [apply example_tree_in|].
  apply (print_inorder_lists_keys example_state example_tree example_keys 3
           example_tree_in).
  - apply example_keys_sorted.
  - simpl. lia.
Defined.

Lemma insert_rebalances_witness :
  tree_in example_state_spare example_tree ∧
  ∃ s' T',
    (avl_link_node (Some 4%positive) (Some 3%positive) false;;
     avl_insert_color 512 (Some 4%positive)) example_state_spare = Done tt s' ∧
    tree_in s' T' ∧ inorder T' = [2; 1; 3; 4]%positive.
Proof.
  split; [apply example_spare_avl|].
  destruct example_spare_avl as (HT & Hh & Hb).
  destruct (insert_rebalances example_state_spare
              [InRight Leaf 3%positive; InRight (Node Leaf 2%positive Leaf) 1%positive]
              4%positive fresh_node false HT Hh)
    as (s' & T' & Hrun & HT' & _ & _ & _ & Hin');
    [vm_compute; discriminate | reflexivity | simpl; compute_done | done |].
  exists s', T'. split; [apply Hrun; simpl; lia|]. split; [exact HT'|exact Hin'].
Defined.

Lemma avl_insert_key_keeps_sorted_avl_witness :
  avl_tree_in example_state_spare example_tree ∧
  ∃ s' T',
    avl_insert_key 512 example_keys (Some 4%positive) example_state_spare
    = Done tt s' ∧
    avl_tree_in s' T' ∧ keys_sorted example_keys (inorder T').
Proof.
  split; [apply example_spare_avl|].
  destruct (avl_insert_key_keeps_sorted_avl example_state_spare example_tree
              example_keys 4%positive 40 fresh_node example_spare_avl)
    as (s' & T' & l1 & l2 & Hrun & HT' & Hsort & _);
    [vm_compute; discriminate | apply example_keys_sorted | reflexivity
    | simpl; compute_done | reflexivity |].
  exists s', T'. split; [apply Hrun; vm_compute; lia|]. split; [exact HT'|exact Hsort].
Defined.

Lemma insert_keys_builds_sorted_avl_witness :
  ∃ keys s T,
    insert_keys (Z.to_nat 32000) [3; 1; 2] 1%positive ∅ empty_tree = Done keys s ∧
    avl_tree_in s T ∧ key_at keys <$> inorder T = merge_sort Z.le [3; 1; 2].
Proof.
  destruct (insert_keys_builds_sorted_avl (Z.to_nat 32000) [3; 1; 2])
    as (keys & s & T & Hrun & HT & Hk & _); [lia | simpl; lia |].
  exists keys, s, T. split; [exact Hrun|]. split; [exact HT|exact Hk].
Defined.

Lemma main_prints_sorted_keys_witness :
  inorder_after_inserts (Z.to_nat 32000) [3; 1; 2] = Some (merge_sort Z.le [3; 1; 2]).
Proof.
  apply (main_prints_sorted_keys (Z.to_nat 32000) [3; 1; 2]); [lia | simpl; lia | simpl; lia].
Defined.

Lemma find_key_finds_witness :
  tree_in example_state example_tree ∧
  ∃ r, find_key 2 example_keys 30 (st_root example_state) example_state
       = Done r example_state ∧
       match r with
       | Some a => a ∈ inorder example_tree ∧ example_keys !! a = Some 30
       | None => ∀ a, a ∈ inorder example_tree → example_keys !! a ≠ Some 30
       end.
Proof.
  split; [apply example_tree_in|].
  apply (find_key_finds example_state example_tree example_keys 30 2 example_tree_in
           example_keys_sorted).
  vm_compute. lia.
Defined.

Lemma erase_key_missing_is_noop_witness :
  tree_in example_state example_tree ∧
  erase_key 2 example_keys 25 example_state = Done tt example_state.
Proof.
  split; [apply example_tree_in|].
  apply (erase_key_missing_is_noop example_state example_tree example_keys 25 2
           example_tree_in example_keys_sorted).
  - vm_compute. lia.
  - intros a Ha. simpl in Ha.
    apply elem_of_cons in Ha as [->|Ha]; [by vm_compute|].
    apply elem_of_cons in Ha as [->|Ha]; [by vm_compute|].
    apply elem_of_cons in Ha as [->|Ha]; [by vm_compute|].
    by apply elem_of_nil in Ha.
Defined.

Lemma insert_then_find_witness :
  avl_tree_in example_state_spare example_tree ∧
  ∃ s' a,
    (avl_insert_key 512 example_keys (Some 4%positive);;
     do r <- get_root; find_key 512 example_keys 40 r) example_state_spare
    = Done (Some a) s' ∧
    example_keys !! a = Some 40.
Proof.
  split; [apply example_spare_avl|].
  apply (insert_then_find example_state_spare example_tree example_keys
           4%positive 40 fresh_node 512 example_spare_avl).
  - vm_compute. discriminate.
  - apply example_keys_sorted.
  - reflexivity.
  - simpl. compute_done.
  - reflexivity.
  - vm_compute. lia.
  - simpl. lia.
Defined.

Lemma rebalance_is_identity_on_avl_witness :
  avl_tree_in example_state example_tree ∧
  avl_rebalance 3 (Some 2%positive) example_state = Done tt example_state.
Proof.
  split; [apply example_avl_tree_in|].
  apply (rebalance_is_identity_on_avl example_state example_tree 2%positive 3
           example_avl_tree_in).
  - vm_compute. discriminate.
  - simpl. compute_done.
  - simpl. lia.
Defined.

Lemma cleanup_empties_tree_witness :
  tree_in example_state example_tree ∧
  ∃ s', cleanup 768 example_state = Done tt s' ∧ st_root s' = None ∧
        dom (st_heap s')
        = dom (st_heap example_state) ∖ list_to_set (inorder example_tree).
Proof.
  split; [apply example_tree_in|].
  apply (cleanup_empties_tree example_state example_tree 768 example_tree_in
           example_heights).
  - vm_compute. discriminate.
  - simpl. lia.
Defined.

Lemma delete_key_removes_node_witness :
  avl_tree_in example_state example_tree ∧
  ∃ s' T' a l1 l2,
    delete_key 768 example_keys 10 example_state = Done tt s' ∧
    example_keys !! a = Some 10 ∧ inorder example_tree = l1 ++ a :: l2 ∧
    inorder T' = l1 ++ l2 ∧ avl_tree_in s' T' ∧ st_heap s' !! a = None.
Proof.
  split; [apply example_avl_tree_in|].
  destruct (delete_key_removes_node example_state example_tree example_keys 10 768
              example_avl_tree_in)
    as (s' & T' & a & l1 & l2 & Hrun & Hk & Hin & Hin' & HT' & _ & Hfreed).
  - vm_compute. discriminate.
  - apply example_keys_sorted.
  - exists 2%positive. split; [simpl; compute_done|reflexivity].
  - intros a nd Ha Hk Hnd. simpl in Ha.
    apply elem_of_cons in Ha as [->|Ha];
      [vm_compute in Hnd; injection Hnd as <-; by left|].
    apply elem_of_cons in Ha as [->|Ha]; [by vm_compute in Hk|].
    apply elem_of_cons in Ha as [->|Ha]; [by vm_compute in Hk|].
    by apply elem_of_nil in Ha.
  - simpl. lia.
  - exists s', T', a, l1, l2. split; [exact Hrun|]. split; [exact Hk|].
    split; [exact Hin|]. split; [exact Hin'|]. split; [exact HT'|exact Hfreed].
Defined.

Lemma erase_two_children_replaces_subtree_witness :
  tree_in example_state example_tree ∧
  ∃ s' T', avl_erase 768 (Some 1%positive) example_state = Done tt s' ∧
           tree_in s' T' ∧ (length (inorder T') + 3 <= 3)%nat.
Proof.
  split; [apply example_tree_in|].
  destruct (erase_two_children_replaces_subtree example_state example_tree 1%positive
              (mk_node None (Some 2%positive) (Some 3%positive) 2)
              example_tree_in example_heights)
    as (s' & T' & l1 & lt & rt & succ & snd & sr & rest & l2 & Hlt & _ & Hrt & _ & _ &
        _ & Hin & Hrun & HT' & _ & Hin').
  - vm_compute. discriminate.
  - simpl. compute_done.
  - reflexivity.
  - done.
  - done.
  - by left.
  - exists s', T'. split; [apply Hrun; simpl; lia|]. split; [exact HT'|].
    apply (f_equal length) in Hin. rewrite Hin'.
    destruct lt as [|? ? ?]; [simpl in Hlt; discriminate|].
    change (length (inorder example_tree)) with 3%nat in Hin.
    cbn [inorder] in Hin. rewrite Hrt in Hin.
    repeat (rewrite length_app in Hin; cbn [length] in Hin).
    rewrite !length_app. lia.
Defined.

Lemma example5_tree_in : tree_in example_state5 example_tree5.
Proof.
  split.
  - repeat (first [ reflexivity | split | eexists ]).
  - simpl. compute_done.
Qed.

Lemma example5_heights : heights_ok (st_heap example_state5) example_tree5.
Proof. vm_compute. repeat split. Qed.

Lemma erase_left_child_drops_sibling_witness :
  tree_in example_state5 example_tree5 ∧
  ∃ s' T', avl_erase 1280 (Some 2%positive) example_state5 = Done tt s' ∧
           tree_in s' T' ∧ (length (inorder T') + 1 <= 5)%nat.
Proof.
  split; [apply example5_tree_in|].
  destruct (erase_left_child_drops_sibling example_state5 example_tree5 2%positive
              (mk_node (Some 1%positive) (Some 4%positive) (Some 5%positive) 2)
              1%positive
              (mk_node None (Some 2%positive) (Some 3%positive) 3)
              5%positive 5%positive
              (mk_node (Some 2%positive) None None 1)
              example5_tree_in example5_heights)
    as (s' & T' & l1 & tn & sib & l2 & _ & Hsib & Hin & Hrun & HT' & _ & Hin').
  - vm_compute. discriminate.
  - simpl. compute_done.
  - reflexivity.
  - done.
  - reflexivity.
  - reflexivity.
  - reflexivity.
  - reflexivity.
  - eapply left_walk_stop; reflexivity.
  - reflexivity.
  - reflexivity.
  - exists s', T'. split; [apply Hrun; simpl; lia|]. split; [exact HT'|].
    apply (f_equal length) in Hin. rewrite Hin'.
    destruct sib as [|? ? ?]; [simpl in Hsib; discriminate|].
    cbn [inorder] in Hin.
    change (length (inorder example_tree5)) with 5%nat in Hin.
    repeat (rewrite length_app in Hin; cbn [length] in Hin).
    repeat (rewrite length_app; cbn [length]). lia.
Defined.

Lemma rotations_are_inverse_witness :
  tree_in example_state example_tree ∧
  ∃ s1 s2,
    avl_rotate_right (Some 1%positive) example_state = Done tt s1 ∧
    avl_rotate_left (Some 2%positive) s1 = Done tt s2 ∧
    st_root s2 = st_root example_state.
Proof.
  split; [apply example_tree_in|].
  destruct (rotations_are_inverse example_state example_tree 1%positive
              (mk_node None (Some 2%positive) (Some 3%positive) 2) 2%positive
              example_tree_in example_heights) as [Hr _].
  - vm_compute. discriminate.
  - simpl. compute_done.
  - reflexivity.
  - destruct (Hr eq_refl) as (s1 & s2 & H1 & H2 & H3 & _).
    exists s1, s2. split; [exact H1|]. split; [exact H2|exact H3].
Defined.

Lemma avl_height_is_logarithmic_witness :
  avl_tree_in example_state example_tree ∧
  stored_height (st_heap example_state) (st_root example_state) <= 125.
Proof.
  split; [apply example_avl_tree_in|].
  destruct (avl_height_is_logarithmic example_state example_tree example_avl_tree_in)
    as [_ Hb].
  apply Hb. vm_compute. discriminate.
Defined.

Lemma insert_keys_is_stable_witness :
  ∃ keys s T,
    insert_keys (Z.to_nat 32000) [2; 1; 2] 1%positive ∅ empty_tree = Done keys s ∧
    avl_tree_in s T ∧ 3%positive ∈ inorder T ∧ keys !! 3%positive = Some 2 ∧
    StronglySorted (key_then_addr keys) (inorder T).
Proof.
  destruct (insert_keys_is_stable (Z.to_nat 32000) [2; 1; 2])
    as (keys & s & T & Hrun & HT & Hmem & Hk & Hs); [lia | simpl; lia |].
  exists keys, s, T. split; [exact Hrun|]. split; [exact HT|].
  split; [apply Hmem; simpl; lia|].
  split; [|exact Hs]. apply (Hk 2%nat); [reflexivity | lia].
Defined.

Lemma delete_key_then_print_witness :
  avl_tree_in example_state example_tree ∧
  ∃ s' ks1 ks2,
    [10; 20; 30] = ks1 ++ 10 :: ks2 ∧
    (delete_key 768 example_keys 10;; print_inorder 768 example_keys) example_state
    = Done (ks1 ++ ks2) s'.
Proof.
  split; [apply example_avl_tree_in|].
  apply (delete_key_then_print example_state example_tree example_keys 10 768
           example_avl_tree_in).
  - vm_compute. discriminate.
  - apply example_keys_sorted.
  - exists 2%positive. split; [simpl; compute_done|reflexivity].
  - intros a nd Ha Hk Hnd. simpl in Ha.
    apply elem_of_cons in Ha as [->|Ha];
      [vm_compute in Hnd; injection Hnd as <-; by left|].
    apply elem_of_cons in Ha as [->|Ha]; [by vm_compute in Hk|].
    apply elem_of_cons in Ha as [->|Ha]; [by vm_compute in Hk|].
    by apply elem_of_nil in Ha.
  - simpl. lia.
Defined.

(** * Instances on a tree that needs a double rotation *)

Lemma example_lr_walk_inv :
  walk_inv example_state_lr example_ctx_lr example_subtree_lr.
Proof.
  split_and!.
  - repeat (first [ reflexivity | split | eexists ]).
  - repeat (first [ reflexivity | split | eexists ]).
  - simpl. compute_done.
  - vm_compute. repeat split.
  - repeat constructor.
  - vm_compute. discriminate.
Qed.

Lemma example_lr_avl_walk_inv : avl_walk_inv example_ctx_lr example_subtree_lr.
Proof.
  split_and!; [vm_compute; repeat split; discriminate .. |].
  exists 2. vm_compute. repeat split; discriminate.
Qed.

Lemma rebalance_visits_all_ancestors_witness :
  walk_inv example_state_lr example_ctx_lr example_subtree_lr ∧
  ∃ s' vs,
    avl_rebalance 512 (Some 2%positive) example_state_lr = Done tt s' ∧
    rebalance_walk example_state_lr (Some 2%positive) vs s' ∧
    sublist [2; 1]%positive vs ∧
    st_heap s' !! 5%positive
    = Some (mk_node (Some 1%positive) (Some 4%positive) (Some 2%positive) 2) ∧
    st_heap s' !! 2%positive = Some (mk_node (Some 5%positive) None None 1) ∧
    st_heap s' !! 1%positive
    = Some (mk_node None (Some 5%positive) (Some 3%positive) 3).
Proof.
  split; [apply example_lr_walk_inv|].
  destruct (rebalance_visits_all_ancestors example_state_lr example_ctx_lr
              (Node Leaf 4%positive (Node Leaf 5%positive Leaf)) 2%positive Leaf
              example_lr_walk_inv) as (s' & vs & Hrun & Hwalk & Hsub & _).
  specialize (Hrun 512%nat ltac:(vm_compute; lia)).
  exists s', vs. split; [exact Hrun|]. split; [exact Hwalk|].
  split; [exact (Hsub 2%nat)|].
  vm_compute in Hrun. injection Hrun as <-.
  split; [reflexivity|]. split; reflexivity.
Defined.

Lemma rebalance_never_faults_witness :
  walk_inv example_state_lr example_ctx_lr example_subtree_lr ∧
  (∀ (fuel : nat) f,
     avl_rebalance fuel (Some 2%positive) example_state_lr ≠ Fault f) ∧
  (∃ x xnd,
     Some 4%positive = Some x ∧ st_heap example_state_lr !! x = Some xnd ∧
     2 <= avl_hgt xnd ∧ is_Some (avl_right xnd)) ∧
  ∃ s', avl_rebalance 512 (Some 2%positive) example_state_lr = Done tt s' ∧
        st_heap s' !! 5%positive
        = Some (mk_node (Some 1%positive) (Some 4%positive) (Some 2%positive) 2).
Proof.
  split; [apply example_lr_walk_inv|].
  destruct (rebalance_never_faults example_state_lr example_ctx_lr
              (Node Leaf 4%positive (Node Leaf 5%positive Leaf)) 2%positive Leaf
              (mk_node (Some 1%positive) (Some 4%positive) None 2)
              example_lr_walk_inv eq_refl) as (Hsafe & Hleft & _).
  split; [exact Hsafe|]. split.
  - destruct (Hleft ltac:(vm_compute; reflexivity))
      as (x & xnd & Hx & Hxnd & Hh & Himp).
    exists x, xnd. split; [exact Hx|]. split; [exact Hxnd|]. split; [exact Hh|].
    apply Himp. simpl in Hx. injection Hx as <-.
    vm_compute in Hxnd. injection Hxnd as <-. vm_compute. reflexivity.
  - eexists. split; [vm_compute; reflexivity|]. reflexivity.
Defined.

Lemma rebalance_repairs_heights_and_balance_witness :
  walk_inv example_state_lr example_ctx_lr example_subtree_lr ∧
  ¬ heights_ok (st_heap example_state_lr) (plug example_ctx_lr example_subtree_lr) ∧
  ∃ s' T',
    avl_rebalance 512 (Some 2%positive) example_state_lr = Done tt s' ∧
    avl_tree_in s' T' ∧ inorder T' = [4; 5; 2; 1; 3]%positive.
Proof.
  split; [apply example_lr_walk_inv|].
  split; [intros [H _]; vm_compute in H; discriminate|].
  destruct (rebalance_repairs_heights_and_balance example_state_lr example_ctx_lr
              (Node Leaf 4%positive (Node Leaf 5%positive Leaf)) 2%positive Leaf
              example_lr_walk_inv) as (s' & T' & Hrun & _ & _ & Hin & _ & Havl).
  exists s', T'. split; [apply Hrun; vm_compute; lia|].
  split; [exact (Havl example_lr_avl_walk_inv)|exact Hin].
Defined.
